(** * Grok JPEG 2000 decoder: marker stores, quantization scoping and
      inverse wavelet entry point

    A shallow embedding of the parts of the decompression pipeline that keep
    the packet-length (PLT/PLM) and tile-length (TLM) marker stores, apply the
    QCD/QCC scoping rules, validate a tile header before decompression, read
    the CBD marker, and enter the inverse wavelet transform.

    Unsigned C++ integers are integers of [Z] with their wrap-around written
    out ([u8], [u16], [u32]); a [std::map] keyed by an unsigned integer is a
    [gmap Z]; a pointer into the byte buffer of a marker segment is the list
    of bytes together with an offset. *)

From Stdlib Require Import ZArith Lia Bool List.
From stdpp Require Import base numbers option list sorting fin_maps gmap.

Local Open Scope Z_scope.

(** ** Machine integers and marker bytes *)

Definition u8 (x : Z) : Z := x mod 256.
Definition u16 (x : Z) : Z := x mod 65536.
Definition u32 (x : Z) : Z := x mod 4294967296.

Definition is_u8 (x : Z) : bool := (0 <=? x) && (x <? 256).
Definition is_u16 (x : Z) : bool := (0 <=? x) && (x <? 65536).

(** [*(headerData + pos)] for a [uint8_t*]: the byte at offset [pos]. *)
Definition byte_at (data : list Z) (pos : nat) : Z := u8 (nth pos data 0).

(** Modelled from the spec: [grk_read<uint32_t>(p, &v, nb)] is declared
    outside the sources at hand; the codestream convention is big-endian,
    so it is the value of the [nb] bytes at [pos], most significant first. *)
Fixpoint grk_read (data : list Z) (pos : nat) (nb : nat) (acc : Z) : Z :=
  match nb with
  | O => acc
  | S nb' => grk_read data (S pos) nb' (acc * 256 + byte_at data pos)
  end.

(** ** PacketLengthMarkers (PLT / PLM store) *)

Module PL.

Inductive PL_MARKER_TYPE := GRK_PL_MARKER_PLM | GRK_PL_MARKER_PLT.

Definition is_PLM (t : PL_MARKER_TYPE) : bool :=
  match t with GRK_PL_MARKER_PLM => true | GRK_PL_MARKER_PLT => false end.

(** [markers_] maps a marker index to the vector of packet lengths of that
    marker; [currMarker_] points at one of the vectors held by the map, so
    it is the key of that vector ([None] is the null pointer). *)
Record PacketLengthMarkers := mkPL {
  markers_ : gmap Z (list Z);
  markerIndex_ : Z;
  currMarker_ : option Z;
  sequential_ : bool;
  packet_len_ : Z
}.

(** The default constructor. *)
Definition init : PacketLengthMarkers :=
  mkPL ∅ 0 None false 0.

Definition msize (s : PacketLengthMarkers) : Z := Z.of_nat (size (markers_ s)).

(** The tail of [readInit]: reset the accumulator, then find the vector of
    [markerIndex_] or create an empty one. *)
Definition selectMarker (s : PacketLengthMarkers) : PacketLengthMarkers :=
  let idx := markerIndex_ s in
  match markers_ s !! idx with
  | Some _ => mkPL (markers_ s) idx (Some idx) (sequential_ s) 0
  | None => mkPL (<[idx := []]> (markers_ s)) idx (Some idx) (sequential_ s) 0
  end.

Definition readInit (index : Z) (type : PL_MARKER_TYPE) (s : PacketLengthMarkers)
  : bool * PacketLengthMarkers :=
  let s := mkPL (markers_ s) index (currMarker_ s) (sequential_ s) (packet_len_ s) in
  if (msize s =? 255) && is_PLM type then (false, s)
  else if bool_decide (markers_ s = ∅) then
    (true, selectMarker
             (mkPL (markers_ s) index (currMarker_ s) (index =? 0) (packet_len_ s)))
  else
    (* once sequential_ becomes false, it never returns to true again *)
    let seq1 := if sequential_ s then (msize s mod 256 =? index) else false in
    if sequential_ s && negb seq1 && (256 <? msize s) then
      (false, mkPL (markers_ s) index (currMarker_ s) seq1 (packet_len_ s))
    else
      let idx := if seq1 then u32 (msize s) else index in
      (true, selectMarker
               (mkPL (markers_ s) idx (currMarker_ s) seq1 (packet_len_ s))).

(** [currMarker_->push_back(len)] writes through the pointer into the map. *)
Definition push_back (len : Z) (s : PacketLengthMarkers) : gmap Z (list Z) :=
  match currMarker_ s with
  | Some k => alter (fun v => v ++ [len]) k (markers_ s)
  | None => markers_ s
  end.

Definition readNext (Iplm : Z) (s : PacketLengthMarkers) : PacketLengthMarkers :=
  (* take only the lower seven bits *)
  let pl := Z.lor (packet_len_ s) (Z.land Iplm 0x7f) in
  if negb (Z.land Iplm 0x80 =? 0) then
    mkPL (markers_ s) (markerIndex_ s) (currMarker_ s) (sequential_ s)
         (u32 (Z.shiftl pl 7))
  else
    mkPL (push_back pl (mkPL (markers_ s) (markerIndex_ s) (currMarker_ s)
                             (sequential_ s) pl))
         (markerIndex_ s) (currMarker_ s) (sequential_ s) 0.

(** The loop reading [n] successive bytes from offset [pos], each handed to
    [readNext]. *)
Fixpoint readBytes (n : nat) (data : list Z) (pos : nat) (s : PacketLengthMarkers)
  : PacketLengthMarkers :=
  match n with
  | O => s
  | S n' => readBytes n' data (S pos) (readNext (byte_at data pos) s)
  end.

Definition readPLT (headerData : list Z) (header_size : Z) (s : PacketLengthMarkers)
  : bool * PacketLengthMarkers :=
  if header_size <? 1 then (false, s)
  else
    let Zpl := byte_at headerData 0 in
    let header_size := u16 (header_size - 1) in
    let '(ok, s) := readInit Zpl GRK_PL_MARKER_PLT s in
    if negb ok then (false, s)
    else
      let s := readBytes (Z.to_nat header_size) headerData 1 s in
      if negb (packet_len_ s =? 0) then (false, s) else (true, s).

(** The [while (header_size > 0)] loop of [readPLM]; every round consumes at
    least the Nplm byte, so [fuel] rounds are enough when [fuel] is at least
    [header_size] ([None] is the loop cut short). *)
Fixpoint readPLM_loop (fuel : nat) (data : list Z) (pos : nat) (header_size : Z)
  (s : PacketLengthMarkers) : option (bool * PacketLengthMarkers) :=
  if 0 <? header_size then
    match fuel with
    | O => None
    | S fuel' =>
        let Nplm := byte_at data pos in
        if header_size <? 1 + Nplm then Some (false, s)
        else
          let s := readBytes (Z.to_nat Nplm) data (S pos) s in
          let header_size := u16 (header_size - (1 + Nplm)) in
          if negb (packet_len_ s =? 0) then Some (false, s)
          else readPLM_loop fuel' data (S pos + Z.to_nat Nplm)%nat header_size s
    end
  else Some (true, s).

Definition readPLM (headerData : list Z) (header_size : Z) (s : PacketLengthMarkers)
  : option (bool * PacketLengthMarkers) :=
  if header_size <? 1 then Some (false, s)
  else
    let Zplm := byte_at headerData 0 in
    let header_size := u16 (header_size - 1) in
    let '(ok, s) := readInit Zplm GRK_PL_MARKER_PLM s in
    if negb ok then Some (false, s)
    else readPLM_loop (Z.to_nat header_size) headerData 1 header_size s.

(** *** Runs of marker reads and the reference decoding *)

(** PLT marker segments read one after the other into the same store; a
    segment is handed over with its length as header size. *)
Definition readPLT_all (segs : list (list Z)) (s : PacketLengthMarkers)
  : PacketLengthMarkers :=
  foldl (fun s seg => snd (readPLT seg (Z.of_nat (length seg)) s)) s segs.

(** PLM marker segments, each with a header size, read one after the other
    into the same store. *)
Definition readPLM_all (segs : list (list Z * Z)) (s : PacketLengthMarkers)
  : PacketLengthMarkers :=
  foldl (fun s seg => match readPLM seg.1 seg.2 s with
                      | Some r => snd r
                      | None => s
                      end) s segs.

(** The signaled index of every segment is the number of segments before it
    mod 256, counting from [n]; every segment holds its index byte and fits
    a 16 bit header size. *)
Fixpoint sequential_from (n : nat) (segs : list (list Z)) : bool :=
  match segs with
  | [] => true
  | seg :: segs' =>
      (byte_at seg 0 =? Z.of_nat n mod 256)
      && (1 <=? Z.of_nat (length seg)) && (Z.of_nat (length seg) <=? 65535)
      && sequential_from (S n) segs'
  end.

Definition is_byte (b : Z) : bool := (0 <=? b) && (b <? 256).

(** High bit = continuation. *)
Definition continues (b : Z) : bool := 128 <=? b.

(** Base-128 variable-length integers, 7 bits per byte, most significant
    first: the integers that end in [bytes], [acc] being the value of the
    bytes of the current integer read so far. *)
Fixpoint varints (acc : Z) (bytes : list Z) : list Z :=
  match bytes with
  | [] => []
  | b :: bytes' =>
      let v := acc * 128 + b mod 128 in
      if continues b then varints v bytes' else v :: varints 0 bytes'
  end.

(** The last byte of a run of length bytes leaves an integer unfinished
    with some of its seven low bits set. *)
Definition dangling (bytes : list Z) : bool :=
  match last bytes with
  | Some b => continues b && negb (b mod 128 =? 0)
  | None => false
  end.

(** Every integer of the run ends in the run. *)
Definition terminated (bytes : list Z) : bool :=
  match last bytes with
  | Some b => negb (continues b)
  | None => true
  end.

(** The value of the base-128 integer that the run [bytes] leaves
    unfinished, [acc] being the value of the bytes of the current integer
    read so far: the bytes after the last one without continuation bit. *)
Fixpoint pending (acc : Z) (bytes : list Z) : Z :=
  match bytes with
  | [] => acc
  | b :: bytes' =>
      if continues b then pending (acc * 128 + b mod 128) bytes' else pending 0 bytes'
  end.

(** The residual of a run of length bytes: the unfinished integer shifted
    by seven bits, in 32 bits. *)
Definition residual (bytes : list Z) : Z := u32 (pending 0 bytes * 128).

(** The payload of a PLM marker segment after Zplm: every group is its
    Nplm byte followed by its Nplm length bytes. *)
Definition plm_payload (groups : list (list Z)) : list Z :=
  concat ((fun g => Z.of_nat (length g) :: g) <$> groups).

Definition bytes_ok (l : list Z) : Prop := Forall (fun b => 0 <= b < 256) l.

(** The store after a run of PLT segments whose signaled indices were all
    sequential mod 256: it holds one marker per segment of [read], under the
    number of the segments read before it, with the lengths of that segment
    alone, and it is still in sequential mode. *)
Definition seq_inv (s : PacketLengthMarkers) (read : list (list Z)) : Prop :=
  msize s = Z.of_nat (length read)
  /\ (forall i seg, read !! i = Some seg ->
        markers_ s !! Z.of_nat i = Some (u32 <$> varints 0 (tail seg)))
  /\ (forall k, ~ (0 <= k < Z.of_nat (length read)) -> markers_ s !! k = None)
  /\ (read <> [] -> sequential_ s = true).

(** 257 PLT segments with one packet length each, their indices sequential
    mod 256; and the store after 255 PLM segments. *)
Definition sequential_257 : list (list Z) :=
  (fun i => [Z.of_nat i mod 256; 5]) <$> seq 0 257.

Definition plm_255 : PacketLengthMarkers :=
  readPLM_all ((fun i => ([Z.of_nat i], 1)) <$> seq 0 255) init.

End PL.

(** ** TileLengthMarkers (TLM store) *)

Module TLM.

(** TLM(2) + Ltlm(2) + Ztlm(1) + Stlm(1) *)
Definition tlm_marker_start_bytes : Z := 6.

Record TilePartLengthInfo := mkInfo {
  tileIndex : Z;
  length : Z
}.

(** [markers_] maps a TLM marker index to its vector of entries;
    [curr_vec_] points at one of these vectors, so it is a key. *)
Record TileLengthMarkers := mkTLM {
  markers_ : gmap Z (list TilePartLengthInfo);
  markerIndex_ : Z;
  markerTilePartIndex_ : Z;
  curr_vec_ : option Z;
  valid_ : bool;
  hasTileIndices_ : bool;
  tileCount_ : Z
}.

(** The default constructor. *)
Definition init : TileLengthMarkers :=
  mkTLM ∅ 0 0 None false false 0.

(** Iteration from [begin()] to [end()] visits the keys of a [std::map] in
    ascending order: the vectors of the store in that order. *)
Definition key_le (a b : Z * list TilePartLengthInfo) : Prop := a.1 <= b.1.

#[local] Instance key_le_dec : RelDecision key_le.
Proof. intros a b. unfold key_le. apply _. Defined.

Definition ordered_vectors (m : gmap Z (list TilePartLengthInfo))
  : list (list TilePartLengthInfo) :=
  (merge_sort key_le (map_to_list m)).*2.

(** The inner loop of [validate] over one vector, entered with [isValid]
    true; it yields the running tile index and [isValid]. *)
Fixpoint validate_vec (v : list TilePartLengthInfo) (tileIndex' : Z) : Z * bool :=
  match v with
  | [] => (tileIndex', true)
  | itv :: v' =>
      let ind := tileIndex itv in
      if ind =? tileIndex' then validate_vec v' tileIndex'
      else if negb (ind =? tileIndex' + 1) then (tileIndex', false)
      else validate_vec v' (u16 (tileIndex' + 1))
  end.

(** The outer loop of [validate]; it stops as soon as [isValid] is false. *)
Fixpoint validate_markers (vs : list (list TilePartLengthInfo)) (tileIndex' : Z)
  : Z * bool :=
  match vs with
  | [] => (tileIndex', true)
  | v :: vs' =>
      let '(t, isValid) := validate_vec v tileIndex' in
      if isValid then validate_markers vs' t else (t, false)
  end.

Definition validate (numTiles : Z) (s : TileLengthMarkers) : bool * TileLengthMarkers :=
  let '(t, isValid) := validate_markers (ordered_vectors (markers_ s)) 0 in
  let v := isValid && (t =? numTiles - 1) in
  (v, mkTLM (markers_ s) (markerIndex_ s) (markerTilePartIndex_ s) (curr_vec_ s)
            v (hasTileIndices_ s) (tileCount_ s)).

Definition push (i_TLM : Z) (info : TilePartLengthInfo)
  (m : gmap Z (list TilePartLengthInfo)) : gmap Z (list TilePartLengthInfo) :=
  match m !! i_TLM with
  | Some vec => <[i_TLM := vec ++ [info]]> m
  | None => <[i_TLM := [info]]> m
  end.

(** The loop of [read] over the [numTileParts] entries of the segment;
    [Ttlm_i] is declared outside the loop and keeps its value when the
    segment carries no tile indices. *)
Fixpoint read_entries (n : nat) (data : list Z) (pos : nat) (L_iT : Z)
  (bytesPerTilePartLength : Z) (i_TLM : Z) (Ttlm_i : Z) (s : TileLengthMarkers)
  : TileLengthMarkers :=
  match n with
  | O => s
  | S n' =>
      (* read (global) tile index *)
      let Ttlm_i := if negb (L_iT =? 0)
                    then grk_read data pos (Z.to_nat L_iT) 0 else Ttlm_i in
      let pos := if negb (L_iT =? 0) then (pos + Z.to_nat L_iT)%nat else pos in
      (* read tile part length *)
      let Ptlm_i := grk_read data pos (Z.to_nat bytesPerTilePartLength) 0 in
      let info := if hasTileIndices_ s then mkInfo (u16 Ttlm_i) Ptlm_i
                  else mkInfo (tileCount_ s) Ptlm_i in
      let tileCount' := if hasTileIndices_ s then tileCount_ s
                        else u16 (tileCount_ s + 1) in
      let s := mkTLM (push i_TLM info (markers_ s)) (markerIndex_ s)
                     (markerTilePartIndex_ s) (curr_vec_ s) (valid_ s)
                     (hasTileIndices_ s) tileCount' in
      read_entries n' data (pos + Z.to_nat bytesPerTilePartLength)%nat L_iT
                   bytesPerTilePartLength i_TLM Ttlm_i s
  end.

Definition read (headerData : list Z) (header_size : Z) (s : TileLengthMarkers)
  : bool * TileLengthMarkers :=
  if header_size <? tlm_marker_start_bytes then (false, s)
  else
    (* correct for length of marker *)
    let header_size := u16 (header_size - 2) in
    (* read TLM marker segment index *)
    let i_TLM := byte_at headerData 0 in
    let L := byte_at headerData 1 in
    (* 0x70 == 1110000 *)
    if negb (Z.land L (Z.lnot 0x70) =? 0) then (false, s)
    else
      let L_LTP := Z.land (Z.shiftr L 6) 0x1 in
      let bytesPerTilePartLength := if negb (L_LTP =? 0) then 4 else 2 in
      let L_iT := Z.land (Z.shiftr L 4) 0x3 in
      (* sanity check on tile indices *)
      let s :=
        if bool_decide (markers_ s = ∅) then
          mkTLM (markers_ s) (markerIndex_ s) (markerTilePartIndex_ s) (curr_vec_ s)
                (valid_ s) (negb (L_iT =? 0)) (tileCount_ s)
        else if (hasTileIndices_ s && (L_iT =? 0))
                || (negb (hasTileIndices_ s) && negb (L_iT =? 0)) then
          mkTLM (markers_ s) (markerIndex_ s) (markerTilePartIndex_ s) (curr_vec_ s)
                false (hasTileIndices_ s) (tileCount_ s)
        else s in
      let quotient := bytesPerTilePartLength + L_iT in
      if negb (header_size mod quotient =? 0) then (false, s)
      else
        let numTileParts := u8 (header_size / quotient) in
        (true, read_entries (Z.to_nat numTileParts) headerData 2 L_iT
                            bytesPerTilePartLength i_TLM 0 s).

(** *** The tile indices of a store *)

(** The tile indices carried by the stored entries, in the order in which
    [validate] visits them. *)
Definition indices (s : TileLengthMarkers) : list Z :=
  tileIndex <$> concat (ordered_vectors (markers_ s)).

(** Every index is the one before it or the one before it plus one, [t]
    standing before the first. *)
Fixpoint steps_from (t : Z) (l : list Z) : bool :=
  match l with
  | [] => true
  | i :: l' => ((i =? t) || (i =? t + 1)) && steps_from i l'
  end.

(** A store built from a list of markers with their tile indices. *)
Definition of_indices (l : list (Z * list Z)) : TileLengthMarkers :=
  mkTLM (list_to_map ((fun p : Z * list Z =>
                         (p.1, (fun i => mkInfo i 0) <$> p.2)) <$> l))
        0 0 None false true 0.

End TLM.

(** ** CodeStreamDecompress: marker readers and tile header validation *)

Module CodeStream.

Record grk_stepsize := mkStep {
  expn : Z;
  mant : Z
}.

(** The fields of a tile component's coding parameters that the quantization
    markers and the tile header validation read or write. *)
Record TileComponentCodingParams := mkTccp {
  numresolutions : Z;
  qmfbid : Z;
  qntsty : Z;
  numgbits : Z;
  numStepSizes : Z;
  stepsizes : list grk_stepsize;
  quantizationMarkerSet : bool;
  fromQCC : bool;
  fromTileHeader : bool
}.

Record TileCodingParams := mkTcp {
  tccps : list TileComponentCodingParams;
  main_qcd_qntsty : Z;
  main_qcd_numStepSizes : Z;
  m_compressedTileData : bool
}.

Record grk_image_comp := mkComp {
  sgnd : Z;
  prec : Z
}.

Record GrkImage := mkImage {
  numcomps : Z;
  comps : list grk_image_comp
}.

(** *** CBD *)

(** The loop of [read_cbd] over the components, from component [i]. *)
Fixpoint read_cbd_comps (n : nat) (i : nat) (data : list Z) (pos : nat)
  (cs : list grk_image_comp) : list grk_image_comp :=
  match n with
  | O => cs
  | S n' =>
      (* Component bit depth *)
      let comp_def := grk_read data pos 1 0 in
      let comp := mkComp (Z.land (Z.shiftr comp_def 7) 1)
                         (u8 (Z.land comp_def 0x7f + 1)) in
      read_cbd_comps n' (S i) data (S pos) (<[i := comp]> cs)
  end.

Definition read_cbd (headerData : list Z) (header_size : Z) (image : GrkImage)
  : bool * GrkImage :=
  if (header_size <? 2) || negb (header_size - 2 =? numcomps image) then (false, image)
  else
    (* Ncbd *)
    let numComps := grk_read headerData 0 2 0 in
    if negb (numComps =? numcomps image) then (false, image)
    else
      (true, mkImage (numcomps image)
                     (read_cbd_comps (Z.to_nat (numcomps image)) 0 headerData 2
                                     (comps image))).

(** *** QCD / QCC *)

Section Quantization.

(** The quantization style codes and the size of the step size array are
    declared outside the sources at hand: they are parameters here. *)
Variables J2K_CCP_QNTSTY_NOQNT J2K_CCP_QNTSTY_SIQNT J2K_CCP_QNTSTY_SEQNT : Z.
Variable GRK_J2K_MAXBANDS : Z.

(** The scoping rules of [read_SQcd_SQcc]: whether a marker coming from
    [fromQCC'], [fromTileHeader'] is ignored on a component in state [tccp]. *)
Definition scoping_ignore (fromQCC' fromTileHeader' : bool)
  (tccp : TileComponentCodingParams) : bool :=
  let mainQCD := negb fromQCC' && negb fromTileHeader' in
  if quantizationMarkerSet tccp then
    let tileHeaderQCC := fromQCC' && fromTileHeader' in
    let setMainQCD := negb (fromQCC tccp) && negb (fromTileHeader tccp) in
    let setMainQCC := fromQCC tccp && negb (fromTileHeader tccp) in
    let setTileHeaderQCD := negb (fromQCC tccp) && fromTileHeader tccp in
    let setTileHeaderQCC := fromQCC tccp && fromTileHeader tccp in
    if negb fromTileHeader' then
      if setMainQCC || (mainQCD && setMainQCD) then true else false
    else
      if setTileHeaderQCC then true
      else if setTileHeaderQCD && negb tileHeaderQCC then true
      else false
  else false.

(** The loop over the step sizes of a segment without quantization: one
    byte per band. *)
Fixpoint read_steps_noqnt (n : nat) (band_no : nat) (ignore : bool) (data : list Z)
  (pos : nat) (steps : list grk_stepsize) : list grk_stepsize :=
  match n with
  | O => steps
  | S n' =>
      (* SPqcx_i *)
      let tmp := grk_read data pos 1 0 in
      let steps :=
        if negb ignore then
          if Z.of_nat band_no <? GRK_J2K_MAXBANDS then
            (* top 5 bits for exponent, mantissa = 0 *)
            <[band_no := mkStep (u8 (Z.shiftr tmp 3)) 0]> steps
          else steps
        else steps in
      read_steps_noqnt n' (S band_no) ignore data (S pos) steps
  end.

(** The loop over the step sizes of a quantized segment: two bytes per band. *)
Fixpoint read_steps_qnt (n : nat) (band_no : nat) (ignore : bool) (data : list Z)
  (pos : nat) (steps : list grk_stepsize) : list grk_stepsize :=
  match n with
  | O => steps
  | S n' =>
      (* SPqcx_i *)
      let tmp := grk_read data pos 2 0 in
      let steps :=
        if negb ignore then
          if Z.of_nat band_no <? GRK_J2K_MAXBANDS then
            (* top 5 bits for exponent, bottom 11 bits for mantissa *)
            <[band_no := mkStep (u8 (Z.shiftr tmp 11)) (u16 (Z.land tmp 0x7ff))]> steps
          else steps
        else steps in
      read_steps_qnt n' (S band_no) ignore data (pos + 2)%nat steps
  end.

(** [stepsizes[i]] of the fixed-size array. *)
Definition step_at (steps : list grk_stepsize) (i : nat) : grk_stepsize :=
  default (mkStep 0 0) (steps !! i).

(** If scalar derived, the other step sizes are computed from band 0. *)
Fixpoint derive_steps (n : nat) (band_no : nat) (steps : list grk_stepsize)
  : list grk_stepsize :=
  match n with
  | O => steps
  | S n' =>
      let bandDividedBy3 := u8 ((Z.of_nat band_no - 1) / 3) in
      let e := if bandDividedBy3 <? expn (step_at steps 0)
               then u8 (expn (step_at steps 0) - bandDividedBy3) else 0 in
      derive_steps n' (S band_no)
                   (<[band_no := mkStep e (mant (step_at steps 0))]> steps)
  end.

Definition set_tccp (comp_no : nat) (tccp : TileComponentCodingParams)
  (tcp : TileCodingParams) : TileCodingParams :=
  mkTcp (<[comp_no := tccp]> (tccps tcp)) (main_qcd_qntsty tcp)
        (main_qcd_numStepSizes tcp) (m_compressedTileData tcp).

Definition set_stepsizes (steps : list grk_stepsize) (tccp : TileComponentCodingParams)
  : TileComponentCodingParams :=
  mkTccp (numresolutions tccp) (qmfbid tccp) (qntsty tccp) (numgbits tccp)
         (numStepSizes tccp) steps (quantizationMarkerSet tccp) (fromQCC tccp)
         (fromTileHeader tccp).

(** [read_SQcd_SQcc] on the coding parameters [tcp] that
    [get_current_decode_tcp()] yields, with [isDecodingTilePartHeader()]
    passed as [fromTileHeader']; it returns its result, the header size left
    and the coding parameters. *)
Definition read_SQcd_SQcc (fromQCC' : bool) (comp_no : nat) (fromTileHeader' : bool)
  (headerData : list Z) (header_size : Z) (tcp : TileCodingParams)
  : bool * Z * TileCodingParams :=
  match tccps tcp !! comp_no with
  | None => (false, header_size, tcp)   (* assert(comp_no < numcomps) *)
  | Some tccp =>
      if header_size <? 1 then (false, header_size, tcp)
      else
        (* Sqcx *)
        let tmp := grk_read headerData 0 1 0 in
        let qntsty' := Z.land tmp 0x1f in
        let header_size := u16 (header_size - 1) in
        if J2K_CCP_QNTSTY_SEQNT <? qntsty' then (false, header_size, tcp)
        else
          (* scoping rules *)
          let ignore := scoping_ignore fromQCC' fromTileHeader' tccp in
          let mainQCD := negb fromQCC' && negb fromTileHeader' in
          let n := if qntsty' =? J2K_CCP_QNTSTY_SIQNT then 1
                   else if qntsty' =? J2K_CCP_QNTSTY_NOQNT then u8 header_size
                        else u8 (header_size / 2) in
          let tccp :=
            if negb ignore then
              mkTccp (numresolutions tccp) (qmfbid tccp) qntsty' (u8 (Z.shiftr tmp 5))
                     n (stepsizes tccp) true fromQCC' fromTileHeader'
            else tccp in
          let tcp :=
            if negb ignore && mainQCD then
              mkTcp (tccps tcp) (qntsty tccp) (numStepSizes tccp)
                    (m_compressedTileData tcp)
            else tcp in
          if qntsty' =? J2K_CCP_QNTSTY_NOQNT then
            if header_size <? numStepSizes tccp then
              (false, header_size, set_tccp comp_no tccp tcp)
            else
              let steps := read_steps_noqnt (Z.to_nat (numStepSizes tccp)) 0 ignore
                                            headerData 1 (stepsizes tccp) in
              let header_size := u16 (header_size - numStepSizes tccp) in
              let steps :=
                if negb ignore && (qntsty tccp =? J2K_CCP_QNTSTY_SIQNT)
                then derive_steps (Z.to_nat (GRK_J2K_MAXBANDS - 1)) 1 steps
                else steps in
              (true, header_size, set_tccp comp_no (set_stepsizes steps tccp) tcp)
          else
            if header_size <? 2 * numStepSizes tccp then
              (false, header_size, set_tccp comp_no tccp tcp)
            else
              let steps := read_steps_qnt (Z.to_nat (numStepSizes tccp)) 0 ignore
                                          headerData 1 (stepsizes tccp) in
              let header_size := u16 (header_size - 2 * numStepSizes tccp) in
              let steps :=
                if negb ignore && (qntsty tccp =? J2K_CCP_QNTSTY_SIQNT)
                then derive_steps (Z.to_nat (GRK_J2K_MAXBANDS - 1)) 1 steps
                else steps in
              (true, header_size, set_tccp comp_no (set_stepsizes steps tccp) tcp)
  end.

(** One round of the loop of [read_qcd] applying the quantization parameters
    of component 0 ([src]) to component [i] ([dest]). *)
Definition qcd_copy (src dest : TileComponentCodingParams) : TileComponentCodingParams :=
  (* respect the QCD/QCC scoping rules *)
  let ignore := if fromQCC dest
                then (if negb (fromTileHeader src) || fromTileHeader dest
                      then true else false)
                else false in
  if negb ignore then
    mkTccp (numresolutions dest) (qmfbid dest) (qntsty src) (numgbits src)
           (numStepSizes dest) (stepsizes src) (quantizationMarkerSet dest)
           (fromQCC dest) (fromTileHeader dest)
  else dest.

Fixpoint qcd_apply (n : nat) (i : nat) (l : list TileComponentCodingParams)
  : list TileComponentCodingParams :=
  match n with
  | O => l
  | S n' =>
      let l := match l !! 0%nat, l !! i with
               | Some src, Some dest => <[i := qcd_copy src dest]> l
               | _, _ => l
               end in
      qcd_apply n' (S i) l
  end.

Definition read_qcd (fromTileHeader' : bool) (numcomps : Z) (headerData : list Z)
  (header_size : Z) (tcp : TileCodingParams) : bool * TileCodingParams :=
  let '(ok, header_size, tcp) :=
    read_SQcd_SQcc false 0 fromTileHeader' headerData header_size tcp in
  if negb ok then (false, tcp)
  else if negb (header_size =? 0) then (false, tcp)
  else
    (* Apply the quantization parameters to the other components
       of the current tile or m_default_tcp *)
    (true, mkTcp (qcd_apply (Z.to_nat (numcomps - 1)) 1 (tccps tcp))
                 (main_qcd_qntsty tcp) (main_qcd_numStepSizes tcp)
                 (m_compressedTileData tcp)).

End Quantization.

(** *** Tile header validation *)

(** The fields of the decompressor that [parseTileHeaderMarkers] reads or
    writes: the state and the flags of [m_decompressorState], the current
    marker, the tile index of the current tile processor ([None] when there
    is no processor), the header image and the coding parameters. *)
Record CodeStreamDecompress := mkCS {
  state : Z;
  lastTilePartWasRead : bool;
  m_curr_marker : Z;
  m_currentTileProcessor : option nat;
  m_headerImage : GrkImage;
  m_default_tcp : TileCodingParams;
  tcps : list TileCodingParams
}.

Definition setState (st : Z) (cs : CodeStreamDecompress) : CodeStreamDecompress :=
  mkCS st (lastTilePartWasRead cs) (m_curr_marker cs) (m_currentTileProcessor cs)
       (m_headerImage cs) (m_default_tcp cs) (tcps cs).

Definition orState (st : Z) (cs : CodeStreamDecompress) : CodeStreamDecompress :=
  setState (Z.lor (state cs) st) cs.

Definition set_curr_marker (m : Z) (cs : CodeStreamDecompress) : CodeStreamDecompress :=
  mkCS (state cs) (lastTilePartWasRead cs) m (m_currentTileProcessor cs)
       (m_headerImage cs) (m_default_tcp cs) (tcps cs).

Section TileHeader.

Variables J2K_CCP_QNTSTY_NOQNT J2K_CCP_QNTSTY_SIQNT : Z.
Variables DECOMPRESS_STATE_EOC DECOMPRESS_STATE_TPH_SOT DECOMPRESS_STATE_DATA : Z.
Variable J2K_MS_EOC : Z.

(** [get_current_decode_tcp()] is declared outside the sources at hand: the
    coding parameters it yields for a decompressor are a parameter. *)
Variable get_current_decode_tcp : CodeStreamDecompress -> TileCodingParams.

(** The loop of [parseTileHeaderMarkers] that reads the markers of the tile
    part headers from the stream until the last tile part of the tile was
    read or EOC is met. It works on the stream and through the marker
    handlers; here it is a parameter that yields [false] when the loop
    leaves the function with a failure, and the decompressor it leaves. *)
Variable readTilePartHeaders : CodeStreamDecompress -> bool * CodeStreamDecompress.

(** [merge_ppt] works on the packed packet header buffers only, and
    [TileProcessor::init] on the tile processor: their results are
    parameters. *)
Variable merge_ppt : CodeStreamDecompress -> bool.
Variable tileProcessorInit : CodeStreamDecompress -> bool.

(** Ensure lossy wavelet has quantization set: the loop over the components
    [k], [k+1], ... *)
Fixpoint lossy_has_quantization (n : nat) (k : nat)
  (l : list TileComponentCodingParams) : bool :=
  match n with
  | O => true
  | S n' =>
      match l !! k with
      | Some tccp =>
          if (qmfbid tccp =? 0) && (qntsty tccp =? J2K_CCP_QNTSTY_NOQNT) then false
          else lossy_has_quantization n' (S k) l
      | None => lossy_has_quantization n' (S k) l
      end
  end.

(** 1. Check main QCD: the loop computing [maxDecompositions]. *)
Fixpoint maxDecompositions_loop (n : nat) (k : nat)
  (l : list TileComponentCodingParams) (maxDecompositions : Z) : Z :=
  match n with
  | O => maxDecompositions
  | S n' =>
      match l !! k with
      | Some tccp =>
          if numresolutions tccp =? 0 then
            maxDecompositions_loop n' (S k) l maxDecompositions
          (* only consider number of resolutions from a component
             whose scope is covered by main QCD *)
          else if fromQCC tccp || fromTileHeader tccp then
            maxDecompositions_loop n' (S k) l maxDecompositions
          else
            let decomps := u8 (numresolutions tccp - 1) in
            maxDecompositions_loop n' (S k) l
              (if maxDecompositions <? decomps then decomps else maxDecompositions)
      | None => maxDecompositions_loop n' (S k) l maxDecompositions
      end
  end.

(** 2. Check Tile QCD: the first component bound by a tile QCD. *)
Fixpoint find_qcd_comp (n : nat) (k : nat) (l : list TileComponentCodingParams)
  : option TileComponentCodingParams :=
  match n with
  | O => None
  | S n' =>
      match l !! k with
      | Some tccp =>
          if fromTileHeader tccp && negb (fromQCC tccp) then Some tccp
          else find_qcd_comp n' (S k) l
      | None => find_qcd_comp n' (S k) l
      end
  end.

Fixpoint maxTileDecompositions_loop (n : nat) (k : nat)
  (l : list TileComponentCodingParams) (maxTileDecompositions : Z) : Z :=
  match n with
  | O => maxTileDecompositions
  | S n' =>
      match l !! k with
      | Some tccp =>
          if numresolutions tccp =? 0 then
            maxTileDecompositions_loop n' (S k) l maxTileDecompositions
          else if fromQCC tccp && fromTileHeader tccp then
            maxTileDecompositions_loop n' (S k) l maxTileDecompositions
          else
            let decomps := u8 (numresolutions tccp - 1) in
            maxTileDecompositions_loop n' (S k) l
              (if maxTileDecompositions <? decomps then decomps
               else maxTileDecompositions)
      | None => maxTileDecompositions_loop n' (S k) l maxTileDecompositions
      end
  end.

(** The QCD marker quantization step size sanity check; [false] is the
    failure of either check. *)
Definition qcd_step_sizes_ok (numComps : nat) (tcp : TileCodingParams) : bool :=
  if negb (main_qcd_qntsty tcp =? J2K_CCP_QNTSTY_SIQNT) then
    let maxDecompositions := maxDecompositions_loop numComps 0 (tccps tcp) 0 in
    if main_qcd_numStepSizes tcp <? 3 * maxDecompositions + 1 then false
    else
      match find_qcd_comp numComps 0 (tccps tcp) with
      | Some qcd_comp =>
          if negb (qntsty qcd_comp =? J2K_CCP_QNTSTY_SIQNT) then
            let maxTileDecompositions :=
              maxTileDecompositions_loop numComps 0 (tccps tcp) 0 in
            if numStepSizes qcd_comp <? 3 * maxTileDecompositions + 1 then false
            else true
          else true
      | None => true
      end
  else true.

(** [parseTileHeaderMarkers]: its result, what it writes to [*canDecompress]
    ([None] when it leaves it alone) and the decompressor. *)
Definition parseTileHeaderMarkers (cs : CodeStreamDecompress)
  : bool * option bool * CodeStreamDecompress :=
  if state cs =? DECOMPRESS_STATE_EOC then
    (true, None, set_curr_marker J2K_MS_EOC cs)
  (* We need to encounter a SOT marker (a new tile-part header) *)
  else if negb (state cs =? DECOMPRESS_STATE_TPH_SOT) then (false, None, cs)
  else
    let '(ok, cs) := readTilePartHeaders cs in
    if negb ok then (false, None, cs)
    else
      match m_currentTileProcessor cs with
      | None => (false, None, cs)   (* Missing SOT marker *)
      | Some m_tileIndex =>
          let tcp := get_current_decode_tcp cs in
          let numComps := Z.to_nat (numcomps (m_headerImage cs)) in
          if negb (lossy_has_quantization numComps 0 (tccps tcp)) then (false, None, cs)
          else if negb (qcd_step_sizes_ok numComps tcp) then (false, None, cs)
          else
            (* Current marker is the EOC marker ? *)
            let cs := if (m_curr_marker cs =? J2K_MS_EOC)
                         && negb (state cs =? DECOMPRESS_STATE_EOC)
                      then setState DECOMPRESS_STATE_EOC cs else cs in
            let noTileData :=
              match tcps cs !! m_tileIndex with
              | Some tcp => negb (m_compressedTileData tcp)
              | None => false
              end in
            if negb (lastTilePartWasRead cs) && noTileData then (true, Some false, cs)
            else if negb (merge_ppt cs) then (false, None, cs)
            else if negb (tileProcessorInit cs) then (false, None, cs)
            else (true, Some true, orState DECOMPRESS_STATE_DATA cs)
      end.

End TileHeader.

(** *** The scope of the main QCD, and sample decompressors *)



(** A decompressor at the start of a tile part header with one component of
    [numres] resolutions, wavelet [qmfbid] and quantization style [qnt],
    in the scope of a main QCD of style [qnt] with [nsteps] step sizes. *)
Definition sample_cs (numres qmfbid' qnt nsteps : Z) : CodeStreamDecompress :=
  let tccp := mkTccp numres qmfbid' qnt 2 nsteps [] true false false in
  let tcp := mkTcp [tccp] qnt nsteps true in
  mkCS 0x8 true 0xff93 (Some 0%nat) (mkImage 1 [mkComp 0 8]) tcp [tcp].


End CodeStream.

(** ** WaveletInverse: the inverse wavelet transform in 2-D *)

Module Wavelet.

Record grk_tcd_resolution := mkRes {
  res_x0 : Z;
  res_y0 : Z;
  res_x1 : Z;
  res_y1 : Z
}.

(** A tile component: its horizontal extent, its resolutions and its sample
    buffer (what [tile_buf_get_ptr(tilec->buf, 0, 0, 0, 0)] points at). *)
Record grk_tcd_tilecomp := mkTilec {
  x0 : Z;
  x1 : Z;
  numresolutions : Z;
  resolutions : list grk_tcd_resolution;
  buf : list Z
}.

(** The template parameter [DWT] of [WaveletInverse]: the 5/3 or the 9/7
    filter. An operation is given the scratch line [bj] and, for the
    interleaving ones, the sample buffer with the offset of [aj] in it; it
    yields what it leaves in them. *)
Class DWT := {
  interleave_h : list Z -> list Z -> nat -> Z -> Z -> Z -> list Z * list Z;
  interleave_v : list Z -> list Z -> nat -> Z -> Z -> Z -> Z -> list Z * list Z;
  decode_line : list Z -> Z -> Z -> Z -> list Z
}.

Definition SIZE_MAX : Z := 2 ^ 64 - 1.

Section Run.

Context {dwt : DWT}.

(** [dwt_utils::max_resolution] and the allocator are declared outside the
    sources at hand; whether an allocation of a size succeeds is a
    parameter. *)
Variable max_resolution : list grk_tcd_resolution -> Z -> Z.
Variable grok_aligned_malloc : Z -> bool.

Definition res_at (l : list grk_tcd_resolution) (i : nat) : grk_tcd_resolution :=
  default (mkRes 0 0 0 0) (l !! i).

(** Transform horizontal: the rows [m], [m+1], ... of the level. The task set
    gives every row below [rh] to one thread with a scratch line of its
    own; the rows are taken here in ascending order. *)
Fixpoint rows_h (n : nat) (m : nat) (stride rw d_n s_n cas_row : Z) (a : list Z)
  : list Z :=
  match n with
  | O => a
  | S n' =>
      let aj := (m * Z.to_nat stride)%nat in
      let bj := take (Z.to_nat rw) (drop aj a) in
      let '(bj, a) := interleave_h bj a aj d_n s_n cas_row in
      let bj := decode_line bj d_n s_n cas_row in
      rows_h n' (S m) stride rw d_n s_n cas_row a
  end.

(** [bj[k] = aj[k * stride]] for [k] below [rh]. *)
Definition column (a : list Z) (aj : nat) (stride : Z) (rh : Z) : list Z :=
  (fun k => default 0 (a !! (aj + k * Z.to_nat stride)%nat)) <$> seq 0 (Z.to_nat rh).

(** Transform vertical: the columns [m], [m+1], ... of the level. *)
Fixpoint cols_v (n : nat) (m : nat) (stride rh d_n s_n cas_col : Z) (a : list Z)
  : list Z :=
  match n with
  | O => a
  | S n' =>
      let bj := column a m stride rh in
      let '(bj, a) := interleave_v bj a m d_n s_n stride cas_col in
      let bj := decode_line bj d_n s_n cas_col in
      cols_v n' (S m) stride rh d_n s_n cas_col a
  end.

(** The loop of [run] over the levels, from level [i]. *)
Fixpoint levels (n : nat) (i : nat) (res : list grk_tcd_resolution) (stride : Z)
  (a : list Z) : list Z :=
  match n with
  | O => a
  | S n' =>
      let cur_res := res_at res i in
      let next_res := res_at res (S i) in
      (* width and height of the resolution level computed *)
      let rw := u32 (res_x1 cur_res - res_x0 cur_res) in
      let rh := u32 (res_y1 cur_res - res_y0 cur_res) in
      (* width and height of the next resolution level *)
      let rw_next := u32 (res_x1 next_res - res_x0 next_res) in
      let rh_next := u32 (res_y1 next_res - res_y0 next_res) in
      let cas_row := u8 (Z.land (res_x0 cur_res) 1) in
      let cas_col := u8 (Z.land (res_y0 cur_res) 1) in
      let a := if negb (rh =? 0)
               then rows_h (Z.to_nat rh) 0 stride rw (u32 (rw - rw_next)) rw_next
                           cas_row a
               else a in
      let a := if negb (rw =? 0)
               then cols_v (Z.to_nat rw) 0 stride rh (u32 (rh - rh_next)) rh_next
                           cas_col a
               else a in
      levels n' (S i) res stride a
  end.

Definition run (tilec : grk_tcd_tilecomp) (numres : Z) : bool * grk_tcd_tilecomp :=
  if numresolutions tilec =? 1 then (true, tilec)
  else
    let l_data_size := (max_resolution (resolutions tilec) numres * 4) mod 2 ^ 64 in
    (* overflow check *)
    if SIZE_MAX <? l_data_size then (false, tilec)
    else if l_data_size =? 0 then (false, tilec)
    else if negb (grok_aligned_malloc l_data_size) then (false, tilec)
    else
      let stride := u32 (x1 tilec - x0 tilec) in
      (true, mkTilec (x0 tilec) (x1 tilec) (numresolutions tilec) (resolutions tilec)
                     (levels (Z.to_nat numres) 0 (resolutions tilec) stride
                             (buf tilec))).

End Run.

(** A filter whose operations leave the lines as they are: a sample
    instance of the template parameter. *)
Definition copy_dwt : DWT :=
  {| interleave_h := fun bj a _ _ _ _ => (bj, a);
     interleave_v := fun bj a _ _ _ _ _ => (bj, a);
     decode_line := fun bj _ _ _ => bj |}.

End Wavelet.


(** ** PacketLengthMarkers: writing a length, and popping the lengths *)

Module PLCodec.

(** [temp[counter] = b] on the local array of [write]; a store outside the
    array is not modelled and leaves the array as it is. *)
Definition store_temp (temp : list Z) (counter : Z) (b : Z) : list Z :=
  if (0 <=? counter) then <[Z.to_nat counter := b]> temp else temp.

(** Write commas (backwards from LSB to MSB): the loop [while (val)] of
    [write]. A 32 bit value is exhausted after five rounds; [None] is the
    loop cut short. *)
Fixpoint write_commas (fuel : nat) (val : Z) (counter : Z) (temp : list Z)
  : option (Z * list Z) :=
  if val =? 0 then Some (counter, temp)
  else
    match fuel with
    | O => None
    | S fuel' =>
        let b := u8 (Z.lor (Z.land val 0x7F) 0x80) in
        write_commas fuel' (u32 (Z.shiftr val 7)) (counter - 1)
                     (store_temp temp counter b)
    end.

(** Bytes available in a PLT marker to store packet lengths (4 bytes are
    reserved for marker and marker length, and 1 byte for the index). *)
Definition available_packet_len_bytes_per_plt : Z := 65535 - 1 - 4.

(** [IBufferedStream] is declared outside the sources at hand: the stream
    is kept as the calls that the writer makes on it, in their order. *)
Inductive stream_call :=
| StreamWriteShort (v : Z)
| StreamWriteByte (b : Z)
| StreamWriteBytes (bytes : list Z)
| StreamSeek (pos : Z)
| StreamSkip (n : Z).

(** The fields of [PacketLengthMarkers] that the writer uses: the store,
    the field [markerLength_] of the [PacketLengthMarkerInfo] of every marker
    (0 where it was not set), the counters, which are taken to be 32 bit
    values as the result of [write] is, the cached position of a marker
    length, and the calls made on [stream_]. *)
Record PacketLengthWriter := mkWriter {
  markers : PL.PacketLengthMarkers;
  markerLength_ : gmap Z Z;
  markerBytesWritten_ : Z;
  totalBytesWritten_ : Z;
  markerLenCache_ : Z;
  stream_ : list stream_call
}.

Definition pushInit (w : PacketLengthWriter) : PacketLengthWriter :=
  let s := markers w in
  (* markers_->clear() *)
  let s := PL.mkPL ∅ (PL.markerIndex_ s) (PL.currMarker_ s) (PL.sequential_ s)
                   (PL.packet_len_ s) in
  mkWriter (PL.readInit 0 PL.GRK_PL_MARKER_PLT s).2 ∅ 0 0 0 (stream_ w).

Definition pushNextPacketLength (len : Z) (w : PacketLengthWriter) : PacketLengthWriter :=
  let s := markers w in
  mkWriter (PL.mkPL (PL.push_back len s) (PL.markerIndex_ s) (PL.currMarker_ s)
                    (PL.sequential_ s) (PL.packet_len_ s))
           (markerLength_ w) (markerBytesWritten_ w) (totalBytesWritten_ w)
           (markerLenCache_ w) (stream_ w).

Definition writeIncrement (bytes : Z) (w : PacketLengthWriter) : PacketLengthWriter :=
  mkWriter (markers w) (markerLength_ w) (u32 (markerBytesWritten_ w + bytes))
           (u32 (totalBytesWritten_ w + bytes)) (markerLenCache_ w) (stream_ w).

(** A call on [stream_], and the assignments to the fields. *)
Definition call (c : stream_call) (w : PacketLengthWriter) : PacketLengthWriter :=
  mkWriter (markers w) (markerLength_ w) (markerBytesWritten_ w) (totalBytesWritten_ w)
           (markerLenCache_ w) (stream_ w ++ [c]).

Definition set_markerLength (k : Z) (v : Z) (w : PacketLengthWriter)
  : PacketLengthWriter :=
  mkWriter (markers w) (<[k := v]> (markerLength_ w)) (markerBytesWritten_ w)
           (totalBytesWritten_ w) (markerLenCache_ w) (stream_ w).

Definition set_markerBytesWritten (v : Z) (w : PacketLengthWriter) : PacketLengthWriter :=
  mkWriter (markers w) (markerLength_ w) v (totalBytesWritten_ w) (markerLenCache_ w)
           (stream_ w).

Definition set_totalBytesWritten (v : Z) (w : PacketLengthWriter) : PacketLengthWriter :=
  mkWriter (markers w) (markerLength_ w) (markerBytesWritten_ w) v (markerLenCache_ w)
           (stream_ w).

Definition set_markerLenCache (v : Z) (w : PacketLengthWriter) : PacketLengthWriter :=
  mkWriter (markers w) (markerLength_ w) (markerBytesWritten_ w) (totalBytesWritten_ w)
           v (stream_ w).

(** Iteration from [begin()] to [end()] visits the keys of a [std::map] in
    ascending order. *)
Definition marker_le (a b : Z * list Z) : Prop := a.1 <= b.1.

#[local] Instance marker_le_dec : RelDecision marker_le.
Proof. intros a b. unfold marker_le. apply _. Defined.

Definition ordered_markers (m : gmap Z (list Z)) : list (Z * list Z) :=
  merge_sort marker_le (map_to_list m).

Section Write.

(** [floorlog2], the marker code [J2K_MS_PLT] and [IBufferedStream::tell]
    are declared outside the sources at hand; the position that [tell]
    yields depends on the calls made on the stream so far. *)
Variable floorlog2 : Z -> Z.
Variable J2K_MS_PLT : Z.
Variable tell : list stream_call -> Z.

(** [writeMarkerLength], [markerInfo] being the index of the marker whose
    [PacketLengthMarkerInfo] is pointed at ([None] is the null pointer). *)
Definition writeMarkerLength (markerInfo : option Z) (w : PacketLengthWriter)
  : PacketLengthWriter :=
  if markerBytesWritten_ w =? 0 then w
  else
    match markerInfo with
    | Some k => set_markerLength k (markerBytesWritten_ w) w
    | None =>
        if negb (markerLenCache_ w =? 0) then
          let current_pos := tell (stream_ w) in
          let w := call (StreamSeek (markerLenCache_ w)) w in
          (* do not include 2 bytes for marker itself *)
          let w := call (StreamWriteShort (u16 (markerBytesWritten_ w - 2))) w in
          let w := call (StreamSeek current_pos) w in
          set_markerLenCache 0 w
        else w
    end.

(** Check if we need to start a new marker. *)
Definition tryWriteMarkerHeader (markerInfo : Z) (simulate : bool)
  (w : PacketLengthWriter) : PacketLengthWriter :=
  let firstMarker := totalBytesWritten_ w =? 0 in
  (* 5 bytes worst-case to store a packet length *)
  if firstMarker
     || (u32 (available_packet_len_bytes_per_plt - 5) <=? markerBytesWritten_ w)
  then
    let w := writeMarkerLength (if simulate then Some markerInfo else None) w in
    (* begin new marker *)
    let w := set_markerBytesWritten 0 w in
    let w := if negb simulate then call (StreamWriteShort J2K_MS_PLT) w else w in
    let w := writeIncrement 2 w in
    let w :=
      if negb simulate then
        let markerLength := default 0 (markerLength_ w !! markerInfo) in
        if negb (markerLength =? 0) then
          call (StreamWriteShort (u16 (markerLength - 2))) w
        else
          (* cache location of marker length and skip over *)
          let w := set_markerLenCache (tell (stream_ w)) w in
          call (StreamSkip 2) w
      else w in
    writeIncrement 2 w
  else w.

(** The number of bytes that [write] takes for the packet length [val]. *)
Definition numBytes_of (val : Z) : Z :=
  let numbits := u32 (floorlog2 val + 1) in
  u32 ((numbits + 6) / 7).

(** The bytes that [write] hands to the stream for the packet length
    [val], from MSB down to LSB: the array [temp] up to [numBytes]. *)
Definition write_length (val : Z) : option (list Z) :=
  let numBytes := numBytes_of val in
  (* write period *)
  let counter := numBytes - 1 in
  let temp := store_temp (replicate 5 0) counter (Z.land val 0x7F) in
  let counter := counter - 1 in
  let val := u32 (Z.shiftr val 7) in
  match write_commas 5 val counter temp with
  | Some (_, temp) => Some (take (Z.to_nat numBytes) temp)
  | None => None
  end.

(** Write packet lengths: the loop of [write] over the lengths of the
    marker [markerInfo]. *)
Fixpoint write_vals (markerInfo : Z) (simulate : bool) (vals : list Z)
  (w : PacketLengthWriter) : option PacketLengthWriter :=
  match vals with
  | [] => Some w
  | val :: vals' =>
      (* check if we need to start a new PLT marker *)
      let w := tryWriteMarkerHeader markerInfo simulate w in
      let written :=
        if negb simulate then
          match write_length val with
          | Some bytes => Some (call (StreamWriteBytes bytes) w)
          | None => None
          end
        else Some w in
      match written with
      | Some w => write_vals markerInfo simulate vals' (writeIncrement (numBytes_of val) w)
      | None => None
      end
  end.

(** The loop of [write] over the markers; it yields the writer and
    [finalMarkerInfo]. *)
Fixpoint write_markers (simulate : bool) (ms : list (Z * list Z))
  (finalMarkerInfo : option Z) (w : PacketLengthWriter)
  : option (option Z * PacketLengthWriter) :=
  match ms with
  | [] => Some (finalMarkerInfo, w)
  | (k, vals) :: ms' =>
      (* write marker index *)
      let w := if negb simulate then call (StreamWriteByte (u8 k)) w else w in
      let w := writeIncrement 1 w in
      match write_vals k simulate vals w with
      | Some w => write_markers simulate ms' (Some k) w
      | None => None
      end
  end.

(** [write]: its result and the writer; [None] is a loop of [write_commas]
    cut short. *)
Definition write (simulate : bool) (w : PacketLengthWriter)
  : option (Z * PacketLengthWriter) :=
  match ordered_markers (PL.markers_ (markers w)) with
  | [] => Some (0, w)
  | ((k0, _) :: _) as ms =>
      let w := set_totalBytesWritten 0 w in
      let w := set_markerBytesWritten 0 w in
      (* write first marker header *)
      let w := tryWriteMarkerHeader k0 simulate w in
      match write_markers simulate ms None w with
      | Some (finalMarkerInfo, w) =>
          let w := writeMarkerLength (if simulate then finalMarkerInfo else None) w in
          Some (totalBytesWritten_ w, w)
      | None => None
      end
  end.

End Write.

(** The coding of a packet length in the terms of the reader: the bytes
    with the comma bit for the 7 bit groups of [v], most significant first
    ([fuel] groups at most), and the bytes of the length [val], the last
    one without the comma bit. *)
Fixpoint commas (fuel : nat) (v : Z) : list Z :=
  if v =? 0 then []
  else
    match fuel with
    | O => []
    | S fuel' => commas fuel' (v / 128) ++ [v mod 128 + 128]
    end.

Definition length_bytes (val : Z) : list Z := commas 5 (val / 128) ++ [val mod 128].

(** The store together with [packetIndex_], the field that only [rewind]
    and [popNextPacketLength] use. *)
Record PacketLengthReader := mkReader {
  store : PL.PacketLengthMarkers;
  packetIndex_ : Z
}.

Definition rewind (r : PacketLengthReader) : PacketLengthReader :=
  let s := store r in
  mkReader (PL.mkPL (PL.markers_ s) 0
                    (match PL.markers_ s !! 0 with Some _ => Some 0 | None => None end)
                    (PL.sequential_ s) (PL.packet_len_ s))
           0.

(** [popNextPacketLength]: the length popped (0 when no packet length is
    available) and the reader. [None] stands for the two ways out of this
    model: [operator[]] of the map on an index that it does not hold, which
    builds a [PacketLengthMarkerInfo] declared outside the sources at hand,
    and an access to a vector beyond its size. *)
Definition popNextPacketLength (r : PacketLengthReader)
  : option (Z * PacketLengthReader) :=
  let s := store r in
  match PL.currMarker_ s with
  | None => Some (0, r)
  | Some k =>
      match PL.markers_ s !! k with
      | None => None
      | Some v =>
          let next :=
            if packetIndex_ r =? Z.of_nat (length v) then
              let markerIndex' := u32 (PL.markerIndex_ s + 1) in
              if markerIndex' <? PL.msize s then
                match PL.markers_ s !! markerIndex' with
                | Some v' =>
                    Some (mkReader (PL.mkPL (PL.markers_ s) markerIndex'
                                            (Some markerIndex') (PL.sequential_ s)
                                            (PL.packet_len_ s)) 0)
                | None => None
                end
              else
                Some (mkReader (PL.mkPL (PL.markers_ s) markerIndex' None
                                        (PL.sequential_ s) (PL.packet_len_ s))
                               (packetIndex_ r))
            else Some r in
          match next with
          | None => None
          | Some r =>
              let s := store r in
              match PL.currMarker_ s with
              | None => Some (0, r)
              | Some k =>
                  match PL.markers_ s !! k with
                  | None => None
                  | Some v =>
                      match v !! Z.to_nat (packetIndex_ r) with
                      | Some rc => Some (rc, mkReader s (packetIndex_ r + 1))
                      | None => None
                      end
                  end
              end
          end
      end
  end.

(** [n] calls of [popNextPacketLength] in a row: the lengths popped. *)
Fixpoint pop_many (n : nat) (r : PacketLengthReader) : option (list Z) :=
  match n with
  | O => Some []
  | S n' =>
      match popNextPacketLength r with
      | Some (rc, r') =>
          match pop_many n' r' with
          | Some l => Some (rc :: l)
          | None => None
          end
      | None => None
      end
  end.

End PLCodec.

(** ** TileLengthMarkers: the entries of a segment, and the walk over the store *)

Definition u64 (x : Z) : Z := x mod 18446744073709551616.

Module TLMWalk.

(** The entry that round [j] of the loop of [TLM.read] builds, in closed
    form: the loop is entered at offset [pos] with the tile count [tc], an
    entry takes [L_iT] bytes of tile index and [bpl] bytes of length, and
    [T] is the value that [Ttlm_i] has when no index is read. *)
Definition entry_at (data : list Z) (L_iT bpl : Z) (has : bool) (pos : nat)
  (T tc : Z) (j : nat) : TLM.TilePartLengthInfo :=
  let q := (Z.to_nat L_iT + Z.to_nat bpl)%nat in
  TLM.mkInfo (if has
              then u16 (if negb (L_iT =? 0)
                        then grk_read data (pos + j * q) (Z.to_nat L_iT) 0 else T)
              else u16 (tc + Z.of_nat j))
             (grk_read data (pos + j * q + Z.to_nat L_iT) (Z.to_nat bpl) 0).

Definition rewind (s : TLM.TileLengthMarkers) : TLM.TileLengthMarkers :=
  TLM.mkTLM (TLM.markers_ s) 0 0
            (match TLM.markers_ s !! 0 with Some _ => Some 0 | None => None end)
            (TLM.valid_ s) (TLM.hasTileIndices_ s) (TLM.tileCount_ s).

Section Cursor.

(** The counters [markerIndex_] and [markerTilePartIndex_] are unsigned
    integers whose types are declared outside the sources at hand: their
    widths in bits are parameters, and [++] wraps around at these widths. *)
Variables markerIndex_bits markerTilePartIndex_bits : Z.

(** [getNext]: the entry pointed at ([None] is the null pointer) and the
    store. The outer [None] stands for the ways out of this model:
    [operator[]] of the map on an index that it does not hold, and an access
    to a vector beyond its size. *)
Definition getNext (s : TLM.TileLengthMarkers)
  : option (option TLM.TilePartLengthInfo * TLM.TileLengthMarkers) :=
  if negb (TLM.valid_ s) then Some (None, s)
  else
    match TLM.curr_vec_ s with
    | None => Some (None, s)
    | Some k =>
        match TLM.markers_ s !! k with
        | None => None
        | Some v =>
            let next :=
              if TLM.markerTilePartIndex_ s =? Z.of_nat (length v) then
                let markerIndex' := (TLM.markerIndex_ s + 1) mod 2 ^ markerIndex_bits in
                if markerIndex' <? Z.of_nat (size (TLM.markers_ s)) then
                  match TLM.markers_ s !! markerIndex' with
                  | Some _ =>
                      Some (TLM.mkTLM (TLM.markers_ s) markerIndex' 0 (Some markerIndex')
                                      (TLM.valid_ s) (TLM.hasTileIndices_ s)
                                      (TLM.tileCount_ s))
                  | None => None
                  end
                else
                  Some (TLM.mkTLM (TLM.markers_ s) markerIndex'
                                  (TLM.markerTilePartIndex_ s) None
                                  (TLM.valid_ s) (TLM.hasTileIndices_ s)
                                  (TLM.tileCount_ s))
              else Some s in
            match next with
            | None => None
            | Some s =>
                match TLM.curr_vec_ s with
                | None => Some (None, s)
                | Some k =>
                    match TLM.markers_ s !! k with
                    | None => None
                    | Some v =>
                        match v !! Z.to_nat (TLM.markerTilePartIndex_ s) with
                        | Some tl =>
                            Some (Some tl,
                                  TLM.mkTLM (TLM.markers_ s) (TLM.markerIndex_ s)
                                            ((TLM.markerTilePartIndex_ s + 1)
                                               mod 2 ^ markerTilePartIndex_bits)
                                            (TLM.curr_vec_ s) (TLM.valid_ s)
                                            (TLM.hasTileIndices_ s) (TLM.tileCount_ s))
                        | None => None
                        end
                    end
                end
            end
        end
    end.

(** The loop of [skipTo]; every round takes one entry from the store, so
    [fuel] rounds are enough when [fuel] is at least the number of stored
    entries. The result is the sum [skip] when the loop ends at an entry of
    the tile, [None] when [skipTo] returns false without a seek. *)
Fixpoint skipTo_loop (fuel : nat) (skipTileIndex : Z)
  (tl : option TLM.TilePartLengthInfo) (skip : Z) (s : TLM.TileLengthMarkers)
  : option (option Z * TLM.TileLengthMarkers) :=
  match tl with
  | Some e =>
      if negb (TLM.tileIndex e =? skipTileIndex) then
        match fuel with
        | O => None
        | S fuel' =>
            if TLM.length e =? 0 then Some (None, s)
            else
              let skip := u64 (skip + TLM.length e) in
              match getNext s with
              | Some (tl', s') => skipTo_loop fuel' skipTileIndex tl' skip s'
              | None => None
              end
        end
      else Some (Some skip, s)
  | None => Some (None, s)
  end.

(** [skipTo]: the position handed to [stream->seek], whose result [skipTo]
    then returns, or [None] when it returns false without a seek. *)
Definition skipTo (fuel : nat) (skipTileIndex : Z) (firstSotPos : Z)
  (s : TLM.TileLengthMarkers) : option (option Z * TLM.TileLengthMarkers) :=
  match getNext (rewind s) with
  | Some (tl, s) =>
      match skipTo_loop fuel skipTileIndex tl 0 s with
      | Some (Some skip, s) => Some (Some (u64 (firstSotPos + skip)), s)
      | r => r
      end
  | None => None
  end.

End Cursor.

End TLMWalk.

(** ** The scope of a tile QCD *)

Module TileScope.

(** A component is outside the scope of a tile QCD only when it is bound by
    a QCC of a tile header. *)
Definition in_tile_qcd_scope (tccp : CodeStream.TileComponentCodingParams) : bool :=
  negb (CodeStream.fromQCC tccp && CodeStream.fromTileHeader tccp).

(** The maximum number of decompositions over the components, among the
    first [numComps], that are in the scope of a tile QCD. *)
Definition max_tile_qcd_decomps (numComps : nat)
  (l : list CodeStream.TileComponentCodingParams) : Z :=
  foldr Z.max 0 ((fun tccp => CodeStream.numresolutions tccp - 1)
                   <$> List.filter in_tile_qcd_scope (take numComps l)).

(** A component bound by the QCD of a tile header. *)
Definition bound_by_tile_qcd (tccp : CodeStream.TileComponentCodingParams) : bool :=
  CodeStream.fromTileHeader tccp && negb (CodeStream.fromQCC tccp).

(** A decompressor at the start of a tile part header with two components
    of [numres] resolutions: the first in the scope of a main QCD of style
    [qnt] with [nsteps] step sizes, the second bound by the QCD of the tile
    header, of style [qnt] with [tsteps] step sizes. *)
Definition sample_tile_cs (numres qnt nsteps tsteps : Z)
  : CodeStream.CodeStreamDecompress :=
  let tccp0 := CodeStream.mkTccp numres 1 qnt 2 nsteps [] true false false in
  let tccp1 := CodeStream.mkTccp numres 1 qnt 2 tsteps [] true false true in
  let tcp := CodeStream.mkTcp [tccp0; tccp1] qnt nsteps true in
  CodeStream.mkCS 0x8 true 0xff93 (Some 0%nat)
                  (CodeStream.mkImage 2 [CodeStream.mkComp 0 8; CodeStream.mkComp 0 8])
                  tcp [tcp].

End TileScope.

(** ** QCC *)

Module QCC.

Section Read.

Variables J2K_CCP_QNTSTY_NOQNT J2K_CCP_QNTSTY_SIQNT J2K_CCP_QNTSTY_SEQNT : Z.
Variable GRK_J2K_MAXBANDS : Z.

(** [read_qcc] on the coding parameters that [get_current_decode_tcp()]
    yields, [numcomps] being the number of components of the header image
    and [fromTileHeader'] the value of [isDecodingTilePartHeader()]. *)
Definition read_qcc (fromTileHeader' : bool) (numcomps : Z) (headerData : list Z)
  (header_size : Z) (tcp : CodeStream.TileCodingParams)
  : bool * CodeStream.TileCodingParams :=
  let num_comp := u16 numcomps in
  let rest (comp_no : Z) (headerData : list Z) (header_size : Z) :=
    if numcomps <=? comp_no then (false, tcp)
    else
      let '(ok, header_size, tcp) :=
        CodeStream.read_SQcd_SQcc J2K_CCP_QNTSTY_NOQNT J2K_CCP_QNTSTY_SIQNT
          J2K_CCP_QNTSTY_SEQNT GRK_J2K_MAXBANDS true (Z.to_nat comp_no)
          fromTileHeader' headerData header_size tcp in
      if negb ok then (false, tcp)
      else if negb (header_size =? 0) then (false, tcp)
      else (true, tcp) in
  if num_comp <=? 256 then
    if header_size <? 1 then (false, tcp)
    else rest (grk_read headerData 0 1 0) (drop 1 headerData) (u16 (header_size - 1))
  else
    if header_size <? 2 then (false, tcp)
    else rest (grk_read headerData 0 2 0) (drop 2 headerData) (u16 (header_size - 2)).

End Read.

(** Coding parameters of two components with four step sizes each: the
    first not yet bound by a marker, the second bound by a QCC of the main
    header ([fth] false) or of a tile header ([fth] true). *)
Definition sample_tcp (fth : bool) : CodeStream.TileCodingParams :=
  let steps := replicate 4 (CodeStream.mkStep 0 0) in
  CodeStream.mkTcp [CodeStream.mkTccp 1 1 0 0 0 steps false false false;
                    CodeStream.mkTccp 1 1 2 1 1 steps true true fth]
                   0 0 false.

End QCC.

(** ** PPT: packed packet headers of a tile part *)

Module PPT.

Record grk_ppx := mkPpx {
  m_data : option (list Z);   (* [None] is the null pointer *)
  m_data_size : Z
}.

(** The fields of the coding parameters of a tile that [read_ppt] and
    [merge_ppt] read or write. [ppt_markers] is the array with its
    allocated length ([None] is the null pointer); [ppt_data] points at
    [ppt_buffer] once the markers are merged and is given by its bytes. *)
Record TileCodingParams := mkTcp {
  ppt : bool;
  ppt_markers : option (list grk_ppx);
  ppt_markers_count : Z;
  ppt_buffer : option (list Z);
  ppt_len : Z;
  ppt_data : option (list Z);
  ppt_data_size : Z
}.

(** The coding parameters of a tile before any PPT marker. *)
Definition init : TileCodingParams := mkTcp false None 0 None 0 None 0.

Definition set_markers (ms : option (list grk_ppx)) (count : Z) (tcp : TileCodingParams)
  : TileCodingParams :=
  mkTcp (ppt tcp) ms count (ppt_buffer tcp) (ppt_len tcp) (ppt_data tcp)
        (ppt_data_size tcp).

(** [memcpy(dest, headerData, n)]: the [n] bytes from offset [pos]. *)
Definition bytes_from (data : list Z) (pos : nat) (n : nat) : list Z :=
  (fun j => byte_at data (pos + j)) <$> seq 0 n.

(** [memcpy(buf + off, src, n)] on a buffer given by its bytes. *)
Definition memcpy_at (buf : list Z) (off : nat) (src : list Z) (n : nat) : list Z :=
  take off buf ++ take n src ++ drop (off + n) buf.

Section Read.

(** [grkCalloc], [grkRealloc] and [grkMalloc] are declared outside the
    sources at hand: whether an allocation of a given number of elements or
    bytes succeeds is a parameter. *)
Variables grkCalloc_ok grkRealloc_ok grkMalloc_ok : Z -> bool.

(** [read_ppt] on the coding parameters of the tile of the current tile
    processor; [ppm_marker] tells whether [cp->ppm_marker] is set. *)
Definition read_ppt (ppm_marker : bool) (headerData : list Z) (header_size : Z)
  (tcp : TileCodingParams) : bool * TileCodingParams :=
  (* We need to have the Z_ppt element + 1 byte of Ippt at minimum *)
  if header_size <? 2 then (false, tcp)
  else if ppm_marker then (false, tcp)
  else
    let tcp := mkTcp true (ppt_markers tcp) (ppt_markers_count tcp) (ppt_buffer tcp)
                     (ppt_len tcp) (ppt_data tcp) (ppt_data_size tcp) in
    (* Z_ppt *)
    let Z_ppt := grk_read headerData 0 1 0 in
    let header_size := u16 (header_size - 1) in
    (* check allocation needed *)
    let allocated :=
      match ppt_markers tcp with
      | None =>
          (* first PPT marker *)
          let newCount := u32 (Z_ppt + 1) in
          if grkCalloc_ok newCount
          then Some (set_markers (Some (replicate (Z.to_nat newCount) (mkPpx None 0)))
                                 newCount tcp)
          else None
      | Some ms =>
          if ppt_markers_count tcp <=? Z_ppt then
            let newCount := u32 (Z_ppt + 1) in
            if grkRealloc_ok newCount
            then Some (set_markers
                         (Some (take (Z.to_nat (ppt_markers_count tcp)) ms
                                ++ replicate (Z.to_nat (newCount - ppt_markers_count tcp))
                                             (mkPpx None 0)))
                         newCount tcp)
            else None
          else Some tcp
      end in
    match allocated with
    | None => (false, tcp)
    | Some tcp =>
        match ppt_markers tcp with
        | None => (false, tcp)
        | Some ms =>
            match ms !! Z.to_nat Z_ppt with
            | None => (false, tcp)
            | Some m =>
                match m_data m with
                | Some _ => (false, tcp)   (* Zppt already read *)
                | None =>
                    if negb (grkMalloc_ok header_size) then (false, tcp)
                    else
                      let m := mkPpx (Some (bytes_from headerData 1 (Z.to_nat header_size)))
                                     header_size in
                      (true, set_markers (Some (<[Z.to_nat Z_ppt := m]> ms))
                                         (ppt_markers_count tcp) tcp)
                end
            end
        end
    end.

End Read.

(** The first loop of [merge_ppt]: the sum of the sizes of the markers
    [i], [i+1], ... *)
Fixpoint sum_sizes (n : nat) (i : nat) (ms : list grk_ppx) (ppt_data_size : Z) : Z :=
  match n with
  | O => ppt_data_size
  | S n' =>
      sum_sizes n' (S i) ms
                (u32 (ppt_data_size + default 0 (m_data_size <$> ms !! i)))
  end.

(** The second loop of [merge_ppt]: the markers that hold data are copied
    into the buffer one behind the other, and released. *)
Fixpoint copy_markers (n : nat) (i : nat) (ms : list grk_ppx) (buf : list Z)
  (ppt_data_size : Z) : list grk_ppx * list Z * Z :=
  match n with
  | O => (ms, buf, ppt_data_size)
  | S n' =>
      match ms !! i with
      | Some (mkPpx (Some data) size) =>
          (* standard doesn't seem to require contiguous Zppt *)
          copy_markers n' (S i) (<[i := mkPpx None 0]> ms)
                       (memcpy_at buf (Z.to_nat ppt_data_size) data (Z.to_nat size))
                       (u32 (ppt_data_size + size))
      | _ => copy_markers n' (S i) ms buf ppt_data_size
      end
  end.

(** [merge_ppt]; the buffer that [new] returns holds unspecified bytes,
    taken to be zero here. *)
Definition merge_ppt (p_tcp : TileCodingParams) : bool * TileCodingParams :=
  if negb (ppt p_tcp) then (true, p_tcp)
  else
    match ppt_buffer p_tcp with
    | Some _ => (false, p_tcp)   (* multiple calls to merge_ppt *)
    | None =>
        let ms := default [] (ppt_markers p_tcp) in
        let count := Z.to_nat (ppt_markers_count p_tcp) in
        let ppt_data_size := sum_sizes count 0 ms 0 in
        let buf := replicate (Z.to_nat ppt_data_size) 0 in
        let '(_, buf, _) := copy_markers count 0 ms buf 0 in
        (true, mkTcp (ppt p_tcp) None 0 (Some buf) ppt_data_size
                     (Some buf) ppt_data_size)
    end.

(** PPT marker segments, each with its header size, read one after the
    other; the run stops at the first segment that is rejected. *)
Section Run.

Variables grkCalloc_ok grkRealloc_ok grkMalloc_ok : Z -> bool.

Fixpoint read_ppt_all (segs : list (list Z)) (tcp : TileCodingParams)
  : bool * TileCodingParams :=
  match segs with
  | [] => (true, tcp)
  | seg :: segs' =>
      let '(ok, tcp) := read_ppt grkCalloc_ok grkRealloc_ok grkMalloc_ok false seg
                                 (Z.of_nat (length seg)) tcp in
      if ok then read_ppt_all segs' tcp else (false, tcp)
  end.

End Run.

End PPT.

(** ** COD / COC: the coding style *)

Module CodingStyle.

(** The fields of a tile component's coding parameters that the coding
    style markers read or write. The precinct exponents are arrays of fixed
    size, given by their entries. *)
Record TileComponentCodingParams := mkTccp {
  csty : Z;
  numresolutions : Z;
  cblkw : Z;
  cblkh : Z;
  cblk_sty : Z;
  qmfbid : Z;
  numgbits : Z;
  precinctWidthExp : list Z;
  precinctHeightExp : list Z
}.

(** The fields of the coding parameters of a tile that [read_cod] reads or
    writes; [rest] stands for all the other fields, the ones behind [isHT]
    and [setIsHT] among them. *)
Record TileCodingParams {Rest : Type} := mkTcp {
  cod : bool;
  tcp_csty : Z;
  prg : Z;
  numlayers : Z;
  numLayersToDecompress : Z;
  mct : Z;
  tccps : list TileComponentCodingParams;
  rest : Rest
}.
Arguments TileCodingParams : clear implicits.
Arguments mkTcp {Rest}.

Definition set_tccps {Rest} (l : list TileComponentCodingParams)
  (tcp : TileCodingParams Rest) : TileCodingParams Rest :=
  mkTcp (cod tcp) (tcp_csty tcp) (prg tcp) (numlayers tcp)
        (numLayersToDecompress tcp) (mct tcp) l (rest tcp).

Definition set_numresolutions (v : Z) (t : TileComponentCodingParams) :=
  mkTccp (csty t) v (cblkw t) (cblkh t) (cblk_sty t) (qmfbid t) (numgbits t)
         (precinctWidthExp t) (precinctHeightExp t).

Definition set_cblk (w h : Z) (t : TileComponentCodingParams) :=
  mkTccp (csty t) (numresolutions t) w h (cblk_sty t) (qmfbid t) (numgbits t)
         (precinctWidthExp t) (precinctHeightExp t).

Definition set_cblk_sty (v : Z) (t : TileComponentCodingParams) :=
  mkTccp (csty t) (numresolutions t) (cblkw t) (cblkh t) v (qmfbid t) (numgbits t)
         (precinctWidthExp t) (precinctHeightExp t).

Definition set_qmfbid (v : Z) (t : TileComponentCodingParams) :=
  mkTccp (csty t) (numresolutions t) (cblkw t) (cblkh t) (cblk_sty t) v (numgbits t)
         (precinctWidthExp t) (precinctHeightExp t).

Definition set_csty (v : Z) (t : TileComponentCodingParams) :=
  mkTccp v (numresolutions t) (cblkw t) (cblkh t) (cblk_sty t) (qmfbid t) (numgbits t)
         (precinctWidthExp t) (precinctHeightExp t).

Definition set_precincts (w h : list Z) (t : TileComponentCodingParams) :=
  mkTccp (csty t) (numresolutions t) (cblkw t) (cblkh t) (cblk_sty t) (qmfbid t)
         (numgbits t) w h.

(** The loop over the precinct sizes of a segment, from resolution [i];
    [None] is the failure on a precinct exponent 0 above the lowest
    resolution, met with the exponents written so far. *)
Fixpoint read_precincts (n : nat) (i : nat) (data : list Z) (pos : nat)
  (w h : list Z) : bool * list Z * list Z :=
  match n with
  | O => (true, w, h)
  | S n' =>
      (* SPcoc (I_i) *)
      let tmp := byte_at data pos in
      (* Precinct exponent 0 is only allowed for lowest resolution level *)
      if negb (i =? 0)%nat && ((Z.land tmp 0xf =? 0) || (Z.shiftr tmp 4 =? 0))
      then (false, w, h)
      else read_precincts n' (S i) data (S pos)
                          (<[i := Z.land tmp 0xf]> w) (<[i := Z.shiftr tmp 4]> h)
  end.

(** Set default size for the precinct width and height. *)
Fixpoint default_precincts (n : nat) (i : nat) (w h : list Z) : list Z * list Z :=
  match n with
  | O => (w, h)
  | S n' => default_precincts n' (S i) (<[i := 15]> w) (<[i := 15]> h)
  end.

Section Read.

Context {Rest : Type}.

(** The constants of the coding style markers, declared outside the sources
    at hand. *)
Variables SPCod_SPCoc_len cod_coc_len : Z.
Variables GRK_J2K_MAX_DECOMP_LVLS GRK_CBLKSTY_HT GRK_NUM_PROGRESSION_ORDERS : Z.
Variables J2K_CCP_CSTY_PRT J2K_CP_CSTY_PRT J2K_CP_CSTY_SOP J2K_CP_CSTY_EPH : Z.

(** [isHT] and [setIsHT] of the coding parameters of a tile are declared
    outside the sources at hand. *)
Variable isHT : TileCodingParams Rest -> bool.
Variable setIsHT : bool -> bool -> Z -> TileCodingParams Rest -> TileCodingParams Rest.

(** The fields of [m_cp] that the readers consult: [pcap], and [m_reduce]
    and [m_layer] of the decompression parameters. *)
Variables pcap m_reduce m_layer : Z.

(** [tccp->field = v] through the pointer [tcp->tccps + compno]. *)
Definition update (compno : nat)
  (f : TileComponentCodingParams -> TileComponentCodingParams)
  (tcp : TileCodingParams Rest) : TileCodingParams Rest :=
  set_tccps (alter f compno (tccps tcp)) tcp.

Definition tccp_at (compno : nat) (tcp : TileCodingParams Rest)
  : TileComponentCodingParams :=
  default (mkTccp 0 0 0 0 0 0 0 [] []) (tccps tcp !! compno).

(** [read_SPCod_SPCoc] on the coding parameters that
    [get_current_decode_tcp()] yields, [numcomps] being the number of
    components of the header image; it returns its result, the header size
    left and the coding parameters. *)
Definition read_SPCod_SPCoc (numcomps : Z) (compno : nat) (headerData : list Z)
  (header_size : Z) (tcp : TileCodingParams Rest)
  : bool * Z * TileCodingParams Rest :=
  if numcomps <=? Z.of_nat compno then (false, header_size, tcp)
  (* make sure room is sufficient *)
  else if header_size <? SPCod_SPCoc_len then (false, header_size, tcp)
  else
    (* SPcox (D) *)
    let tcp := update compno (set_numresolutions (byte_at headerData 0)) tcp in
    if GRK_J2K_MAX_DECOMP_LVLS <? numresolutions (tccp_at compno tcp)
    then (false, header_size, tcp)
    else
      let tcp := update compno
                   (fun t => set_numresolutions (u8 (numresolutions t + 1)) t) tcp in
      let tcp := if negb (pcap =? 0) && negb (isHT tcp)
                 then setIsHT true (qmfbid (tccp_at compno tcp) =? 1)
                              (numgbits (tccp_at compno tcp)) tcp
                 else tcp in
      (* If user wants to remove more resolutions than the code stream
         contains, return error *)
      if numresolutions (tccp_at compno tcp) <=? m_reduce
      then (false, header_size, tcp)
      else
        (* SPcoc (E), SPcoc (F) *)
        let tcp := update compno (set_cblk (byte_at headerData 1)
                                           (byte_at headerData 2)) tcp in
        let tccp := tccp_at compno tcp in
        if (8 <? cblkw tccp) || (8 <? cblkh tccp) || (8 <? cblkw tccp + cblkh tccp)
        then (false, header_size, tcp)
        else
          let tcp := update compno
                       (fun t => set_cblk (u8 (cblkw t + 2)) (u8 (cblkh t + 2)) t) tcp in
          (* SPcoc (G) *)
          let tcp := update compno (set_cblk_sty (byte_at headerData 3)) tcp in
          let sty := cblk_sty (tccp_at compno tcp) in
          if negb (Z.land sty GRK_CBLKSTY_HT =? 0) && negb (sty =? GRK_CBLKSTY_HT)
          then (false, header_size, tcp)
          else
            let high_bits := u8 (Z.shiftr sty 6) in
            if high_bits =? 2 then (false, header_size, tcp)
            else
              (* SPcoc (H) *)
              let tcp := update compno (set_qmfbid (byte_at headerData 4)) tcp in
              if 1 <? qmfbid (tccp_at compno tcp) then (false, header_size, tcp)
              else
                let header_size := u16 (header_size - SPCod_SPCoc_len) in
                let tccp := tccp_at compno tcp in
                (* use custom precinct size ? *)
                if negb (Z.land (csty tccp) J2K_CCP_CSTY_PRT =? 0) then
                  if header_size <? numresolutions tccp then (false, header_size, tcp)
                  else
                    let '(ok, w, h) :=
                      read_precincts (Z.to_nat (numresolutions tccp)) 0 headerData 5
                                     (precinctWidthExp tccp) (precinctHeightExp tccp) in
                    let tcp := update compno (set_precincts w h) tcp in
                    if negb ok then (false, header_size, tcp)
                    else (true, u16 (header_size - numresolutions tccp), tcp)
                else
                  let '(w, h) :=
                    default_precincts (Z.to_nat (numresolutions tccp)) 0
                                      (precinctWidthExp tccp) (precinctHeightExp tccp) in
                  (true, header_size, update compno (set_precincts w h) tcp).

(** One round of the loop of [read_cod] applying the coding style of
    component 0 ([ref_tccp]) to another component; [memcpy] copies the
    exponents of as many resolutions as component 0 has. *)
Definition cod_copy (ref_tccp copied_tccp : TileComponentCodingParams)
  : TileComponentCodingParams :=
  let n := Z.to_nat (numresolutions ref_tccp) in
  mkTccp (csty copied_tccp) (numresolutions ref_tccp) (cblkw ref_tccp) (cblkh ref_tccp)
         (cblk_sty ref_tccp) (qmfbid ref_tccp) (numgbits copied_tccp)
         (take n (precinctWidthExp ref_tccp) ++ drop n (precinctWidthExp copied_tccp))
         (take n (precinctHeightExp ref_tccp) ++ drop n (precinctHeightExp copied_tccp)).

Fixpoint cod_apply (n : nat) (i : nat) (l : list TileComponentCodingParams)
  : list TileComponentCodingParams :=
  match n with
  | O => l
  | S n' =>
      let l := match l !! 0%nat with
               | Some ref_tccp => alter (cod_copy ref_tccp) i l
               | None => l
               end in
      cod_apply n' (S i) l
  end.

(** The loop of [read_cod] that sets [csty] of every component. *)
Fixpoint cod_csty (n : nat) (i : nat) (v : Z) (l : list TileComponentCodingParams)
  : list TileComponentCodingParams :=
  match n with
  | O => l
  | S n' => cod_csty n' (S i) v (alter (set_csty v) i l)
  end.

Definition read_cod (numcomps : Z) (headerData : list Z) (header_size : Z)
  (tcp : TileCodingParams Rest) : bool * TileCodingParams Rest :=
  (* Only one COD per tile *)
  let tcp := mkTcp true (tcp_csty tcp) (prg tcp) (numlayers tcp)
                   (numLayersToDecompress tcp) (mct tcp) (tccps tcp) (rest tcp) in
  (* Make sure room is sufficient *)
  if header_size <? cod_coc_len then (false, tcp)
  else
    (* Scod *)
    let tcp := mkTcp (cod tcp) (byte_at headerData 0) (prg tcp) (numlayers tcp)
                     (numLayersToDecompress tcp) (mct tcp) (tccps tcp) (rest tcp) in
    (* Make sure we know how to decompress this *)
    if negb (Z.land (tcp_csty tcp)
                    (Z.lnot (Z.lor (Z.lor J2K_CP_CSTY_PRT J2K_CP_CSTY_SOP)
                                   J2K_CP_CSTY_EPH)) =? 0)
    then (false, tcp)
    else
      (* SGcod (A) *)
      let tmp := byte_at headerData 1 in
      (* Make sure progression order is valid *)
      if GRK_NUM_PROGRESSION_ORDERS <=? tmp then (false, tcp)
      else
        (* SGcod (B) *)
        let tcp := mkTcp (cod tcp) (tcp_csty tcp) tmp (grk_read headerData 2 2 0)
                         (numLayersToDecompress tcp) (mct tcp) (tccps tcp) (rest tcp) in
        if numlayers tcp =? 0 then (false, tcp)
        else
          (* If user didn't set a number layer to decompress take the max
             specify in the code stream. *)
          let tcp := mkTcp (cod tcp) (tcp_csty tcp) (prg tcp) (numlayers tcp)
                           (if negb (m_layer =? 0) then m_layer else numlayers tcp)
                           (byte_at headerData 4) (tccps tcp) (rest tcp) in
          (* SGcod (C) *)
          if 1 <? mct tcp then (false, tcp)
          else
            let header_size := u16 (header_size - cod_coc_len) in
            let tcp := set_tccps (cod_csty (Z.to_nat numcomps) 0
                                           (Z.land (tcp_csty tcp) J2K_CCP_CSTY_PRT)
                                           (tccps tcp)) tcp in
            let '(ok, header_size, tcp) :=
              read_SPCod_SPCoc numcomps 0 (drop 5 headerData) header_size tcp in
            if negb ok then (false, tcp)
            else if negb (header_size =? 0) then (false, tcp)
            else
              (* Apply the coding style to other components of the current
                 tile or the m_default_tcp *)
              (true, set_tccps (cod_apply (Z.to_nat (numcomps - 1)) 1 (tccps tcp)) tcp).

Definition read_coc (numcomps : Z) (headerData : list Z) (header_size : Z)
  (tcp : TileCodingParams Rest) : bool * TileCodingParams Rest :=
  let comp_room := if numcomps <=? 256 then 1 else 2 in
  (* make sure room is sufficient *)
  if header_size <? comp_room + 1 then (false, tcp)
  else
    let header_size := u16 (header_size - (comp_room + 1)) in
    (* Ccoc *)
    let comp_no := grk_read headerData 0 (Z.to_nat comp_room) 0 in
    if numcomps <=? comp_no then (false, tcp)
    else
      (* Scoc *)
      let tcp := update (Z.to_nat comp_no)
                        (set_csty (byte_at headerData (Z.to_nat comp_room))) tcp in
      let '(ok, header_size, tcp) :=
        read_SPCod_SPCoc numcomps (Z.to_nat comp_no)
                         (drop (Z.to_nat comp_room + 1) headerData) header_size tcp in
      if negb ok then (false, tcp)
      else if negb (header_size =? 0) then (false, tcp)
      else (true, tcp).

End Read.

(** Modelled from the spec: [cod_coc_len] and [SPCod_SPCoc_len] are 5, a
    component has at most 33 resolutions and there are 5 progression
    orders. The readers below take these values, the bits of the coding
    styles as the standard numbers them, a decompressor without HT and
    without reduction, and coding parameters whose other fields are left
    out. *)
Definition read_SPCod_SPCoc_part1 :=
  read_SPCod_SPCoc (Rest := unit) 5 32 0x40 1 (fun _ => false) (fun _ _ _ tcp => tcp) 0 0.

Definition read_cod_part1 :=
  read_cod (Rest := unit) 5 5 32 0x40 5 1 1 2 4 (fun _ => false) (fun _ _ _ tcp => tcp)
           0 0 0.

Definition read_coc_part1 :=
  read_coc (Rest := unit) 5 32 0x40 1 (fun _ => false) (fun _ _ _ tcp => tcp) 0 0.

(** Coding parameters of two components, before any marker. *)
Definition sample_tccp : TileComponentCodingParams :=
  mkTccp 0 0 0 0 0 0 2 (replicate 33 0) (replicate 33 0).

Definition sample_tcp : TileCodingParams unit :=
  mkTcp false 0 0 0 0 0 [sample_tccp; sample_tccp] tt.

End CodingStyle.

(** ** ResWindow: the band window of a tile component window *)

Module ResWindow.

Record grk_rect32 := mkRect {
  x0 : Z;
  y0 : Z;
  x1 : Z;
  y1 : Z
}.

Section BandWindow.

(** [ceildivpow2<uint32_t>] is declared outside the sources at hand. *)
Variable ceildivpow2 : Z -> Z -> Z.

(** One coordinate of the band window: [(tc <= shift) ? 0 :
    ceildivpow2(tc - shift, numDecomps)]. *)
Definition band_coord (tc shift numDecomps : Z) : Z :=
  if tc <=? shift then 0 else ceildivpow2 (u32 (tc - shift)) numDecomps.

Definition getBandWindow (numDecomps orientation : Z)
  (tileCompWindowUnreduced : grk_rect32) : grk_rect32 :=
  if numDecomps =? 0 then tileCompWindowUnreduced
  else
    let tcx0 := x0 tileCompWindowUnreduced in
    let tcy0 := y0 tileCompWindowUnreduced in
    let tcx1 := x1 tileCompWindowUnreduced in
    let tcy1 := y1 tileCompWindowUnreduced in
    (* project window onto sub-band generated by [numDecomps] decompositions *)
    let bx0 := Z.land orientation 1 in
    let by0 := u32 (Z.shiftr orientation 1) in
    let bx0Shift := u32 (u32 (Z.shiftl 1 (numDecomps - 1)) * bx0) in
    let by0Shift := u32 (u32 (Z.shiftl 1 (numDecomps - 1)) * by0) in
    mkRect (band_coord tcx0 bx0Shift numDecomps) (band_coord tcy0 by0Shift numDecomps)
           (band_coord tcx1 bx0Shift numDecomps) (band_coord tcy1 by0Shift numDecomps).

End BandWindow.

(** Modelled from the spec: the division by a power of two rounded up. *)
Definition ceildivpow2 (a b : Z) : Z := (a + 2 ^ b - 1) / 2 ^ b.

(** A rectangle of 32 bit coordinates with its corners in order. *)
Definition valid (r : grk_rect32) : Prop :=
  0 <= x0 r <= x1 r /\ x1 r < 4294967296 /\ 0 <= y0 r <= y1 r /\ y1 r < 4294967296.

(** [r] lies within [t]. *)
Definition within (r t : grk_rect32) : Prop :=
  x0 t <= x0 r /\ x1 r <= x1 t /\ y0 t <= y0 r /\ y1 r <= y1 t.

End ResWindow.

(** ** T1DecompressScheduler: decompression of the blocks by one worker *)

Module T1Scheduler.

(** What [block->open(impl)] does: it returns true or false, or throws a
    [std::runtime_error]. *)
Inductive open_result := OpenTrue | OpenFalse | OpenThrows.

(** What the scheduler does to a block. *)
Inductive event {Block : Type} := Opened (b : Block) | Deleted (b : Block).
Arguments event : clear implicits.

Section Decompress.

Context {Block : Type}.

(** [DecompressBlockExec::open] is declared outside the sources at hand:
    its outcome on a block, with the implementation of worker 0, is a
    parameter. *)
Variable open : Block -> open_result.

(** [decompressBlock]: its result and what it did, in this order. *)
Definition decompressBlock (block : Block) : bool * list (event Block) :=
  match open block with
  | OpenTrue => (true, [Opened block; Deleted block])
  | OpenFalse => (false, [Opened block; Deleted block])
  | OpenThrows => (false, [Opened block; Deleted block])
  end.

(** One round of the inner loop of [decompress] with one worker, on the
    member [success] and the log of what was done. *)
Definition decompress_one (st : bool * list (event Block)) (block : Block)
  : bool * list (event Block) :=
  let '(success, log) := st in
  if negb success then (success, log ++ [Deleted block])
  else
    let '(rc, evs) := decompressBlock block in
    (if negb rc then false else success, log ++ evs).

(** [decompress] when [num_workers()] is 1: the value returned and the log
    of what was done to the blocks. *)
Definition decompress (blocks : list (list Block)) : bool * list (event Block) :=
  match blocks with
  | [] => (true, [])
  | _ =>
      foldl (fun st rb => foldl decompress_one st rb) (true, []) blocks
  end.

(** The blocks opened, and the blocks deleted, in the order of the log. *)
Definition opened (log : list (event Block)) : list Block :=
  omap (fun e => match e with Opened b => Some b | Deleted _ => None end) log.

Definition deleted (log : list (event Block)) : list Block :=
  omap (fun e => match e with Deleted b => Some b | Opened _ => None end) log.

(** The blocks up to the first one that does not open with true, this one
    included. *)
Fixpoint until_failure (l : list Block) : list Block :=
  match l with
  | [] => []
  | b :: l' =>
      match open b with
      | OpenTrue => b :: until_failure l'
      | _ => [b]
      end
  end.

(** Every block opens with true. *)
Definition all_open_true (l : list Block) : bool :=
  forallb (fun b => match open b with OpenTrue => true | _ => false end) l.

End Decompress.

End T1Scheduler.

(** ** CAP, RGN and POC *)

Module Markers.

(** *** CAP *)

Record CodingParams := mkCp {
  pcap : Z;
  ccap : list Z
}.

Section Cap.

(** [grk_population_count] is declared outside the sources at hand. *)
Variable grk_population_count : Z -> Z.

(** The loop of [read_cap] over the [count] entries of [ccap]; the read
    pointer is not advanced in the loop. *)
Fixpoint read_ccap (n : nat) (i : nat) (data : list Z) (pos : nat) (l : list Z)
  : list Z :=
  match n with
  | O => l
  | S n' => read_ccap n' (S i) data pos (<[i := grk_read data pos 2 0]> l)
  end.

(** [read_cap]; [pcap] is a 32 bit field, so [sizeof(cp->pcap)] is 4. *)
Definition read_cap (headerData : list Z) (header_size : Z) (cp : CodingParams)
  : bool * CodingParams :=
  if header_size <? 4 then (false, cp)
  else
    (* Pcap *)
    let tmp := grk_read headerData 0 4 0 in
    if negb (Z.land tmp 0xFFFDFFFF =? 0) then (false, cp)
    else if Z.land tmp 0x00020000 =? 0 then (false, cp)
    else
      let cp := mkCp tmp (ccap cp) in
      let count := u32 (grk_population_count (pcap cp)) in
      let expected_size := u32 (4 + 2 * count) in
      if negb (header_size =? expected_size) then (false, cp)
      else (true, mkCp (pcap cp) (read_ccap (Z.to_nat count) 0 headerData 4 (ccap cp))).

End Cap.

(** *** RGN *)


(** *** POC *)

Record grk_progression := mkProg {
  resS : Z;
  compS : Z;
  layE : Z;
  resE : Z;
  compE : Z;
  progression : Z
}.

(** The loop of [read_poc] computing [maxNumResLevels] over the numbers of
    resolutions of the components. *)
Fixpoint maxNumResLevels_loop (numresolutions : list Z) (maxNumResLevels : Z) : Z :=
  match numresolutions with
  | [] => maxNumResLevels
  | r :: l =>
      maxNumResLevels_loop l (if maxNumResLevels <? r then u16 r else maxNumResLevels)
  end.

Section Poc.

(** The number of progression orders and the size of the array of
    progression order changes are declared outside the sources at hand. *)
Variables GRK_NUM_PROGRESSION_ORDERS GRK_J2K_MAXRLVLS : Z.

Definition set_prog (i : nat) (f : grk_progression -> grk_progression)
  (l : list grk_progression) : list grk_progression := alter f i l.

Definition prog_at (i : nat) (l : list grk_progression) : grk_progression :=
  default (mkProg 0 0 0 0 0 0) (l !! i).

(** The loop of [read_poc] over the progression order changes [i], [i+1],
    ... of the segment, the read pointer standing at [pos]; it yields false
    at the first record that is rejected, with what was written so far. *)
Fixpoint read_progs (n : nat) (i : nat) (data : list Z) (pos : nat)
  (componentRoom : nat) (maxNumResLevels numcomps numlayers : Z)
  (l : list grk_progression) : bool * list grk_progression :=
  match n with
  | O => (true, l)
  | S n' =>
      (* RSpoc_i *)
      let l := set_prog i (fun p => mkProg (byte_at data pos) (compS p) (layE p) (resE p)
                                           (compE p) (progression p)) l in
      if maxNumResLevels <=? resS (prog_at i l) then (false, l)
      else
        (* CSpoc_i *)
        let pos := S pos in
        let l := set_prog i (fun p => mkProg (resS p) (u16 (grk_read data pos componentRoom 0))
                                             (layE p) (resE p) (compE p) (progression p)) l in
        if numcomps <? compS (prog_at i l) then (false, l)
        else
          (* LYEpoc_i *)
          let pos := (pos + componentRoom)%nat in
          let l := set_prog i (fun p => mkProg (resS p) (compS p)
                                               (Z.min (grk_read data pos 2 0) numlayers)
                                               (resE p) (compE p) (progression p)) l in
          (* REpoc_i *)
          let pos := (pos + 2)%nat in
          let l := set_prog i (fun p => mkProg (resS p) (compS p) (layE p)
                                               (byte_at data pos) (compE p)
                                               (progression p)) l in
          if resE (prog_at i l) <=? resS (prog_at i l) then (false, l)
          else
            (* CEpoc_i *)
            let pos := S pos in
            let l := set_prog i (fun p => mkProg (resS p) (compS p) (layE p) (resE p)
                                   (Z.min (u16 (grk_read data pos componentRoom 0))
                                          (u16 numcomps))
                                   (progression p)) l in
            if compE (prog_at i l) <=? compS (prog_at i l) then (false, l)
            else
              (* Ppoc_i *)
              let pos := (pos + componentRoom)%nat in
              let tmp := byte_at data pos in
              if GRK_NUM_PROGRESSION_ORDERS <=? tmp then (false, l)
              else
                let l := set_prog i (fun p => mkProg (resS p) (compS p) (layE p) (resE p)
                                                     (compE p) tmp) l in
                read_progs n' (S i) data (S pos) componentRoom maxNumResLevels
                           numcomps numlayers l
  end.

(** [read_poc] on the progression order changes and [numpocs] of the coding
    parameters that [get_current_decode_tcp()] yields; [numresolutions]
    holds the numbers of resolutions of the components of the header image
    and [oldNumProgressions] is the value of [tcp->getNumProgressions()],
    declared outside the sources at hand. *)
Definition read_poc (numcomps : Z) (numresolutions : list Z) (numlayers : Z)
  (oldNumProgressions : Z) (headerData : list Z) (header_size : Z)
  (progs : list grk_progression) (numpocs : Z)
  : bool * list grk_progression * Z :=
  let maxNumResLevels := maxNumResLevels_loop numresolutions 0 in
  let numComps := u16 numcomps in
  let componentRoom := if numComps <=? 256 then 1 else 2 in
  let chunkSize := 5 + 2 * componentRoom in
  let currentNumProgressions := header_size / chunkSize in
  let currentRemainingProgressions := header_size mod chunkSize in
  if (currentNumProgressions =? 0) || negb (currentRemainingProgressions =? 0)
  then (false, progs, numpocs)
  else
    let currentNumProgressions := u32 (currentNumProgressions + oldNumProgressions) in
    if GRK_J2K_MAXRLVLS <? currentNumProgressions then (false, progs, numpocs)
    else
      let '(ok, progs) :=
        read_progs (Z.to_nat (currentNumProgressions - oldNumProgressions))
                   (Z.to_nat oldNumProgressions) headerData 0 (Z.to_nat componentRoom)
                   maxNumResLevels numcomps numlayers progs in
      if negb ok then (false, progs, numpocs)
      else (true, progs, u32 (currentNumProgressions - 1)).

End Poc.

(** A progression order change within the bounds that the decoder relies
    on. *)
Definition progression_ok (numProgressionOrders maxNumResLevels numcomps numlayers : Z)
  (p : grk_progression) : Prop :=
  0 <= resS p < resE p /\ resS p < maxNumResLevels
  /\ 0 <= compS p < compE p /\ compE p <= numcomps
  /\ layE p <= numlayers
  /\ 0 <= progression p < numProgressionOrders.

End Markers.
(** * Properties *)

(** ** Bytes and bit operations *)

Section Bits.

Lemma byte_cases (P : Z -> Prop) :
  Forall P (seqZ 0 256) -> forall b, 0 <= b < 256 -> P b.
Proof.
  intros H b Hb. rewrite Forall_forall in H. apply H. apply elem_of_seqZ. lia.
Qed.

Lemma land_0x80 b : 0 <= b < 256 -> (Z.land b 0x80 =? 0) = negb (PL.continues b).
Proof.
  revert b. apply byte_cases. vm_compute.
  repeat (constructor; [reflexivity|]). constructor.
Qed.

Lemma land_0x7f b : 0 <= b -> Z.land b 0x7f = b mod 128.
Proof. intros H. change 0x7f with (Z.ones 7). by rewrite Z.land_ones. Qed.

Lemma lor_low7 p x : 0 <= p -> p mod 128 = 0 -> 0 <= x < 128 -> Z.lor p x = p + x.
Proof.
  intros Hp Hm Hx.
  assert (Z.land p x = 0) as Hl.
  { apply Z.bits_inj'. intros n Hn. rewrite Z.land_spec, Z.bits_0.
    destruct (decide (n < 7)) as [Hlt|Hge].
    - assert (p = Z.shiftl (p / 128) 7) as ->.
      { rewrite Z.shiftl_mul_pow2 by lia. change (2 ^ 7) with 128.
        pose proof (Z.div_mod p 128). lia. }
      rewrite Z.shiftl_spec_low by lia. done.
    - destruct (decide (x = 0)) as [->|Hx0]; [by rewrite Z.bits_0, andb_false_r|].
      rewrite (Z.bits_above_log2 x n), andb_false_r; [done|lia|].
      assert (Z.log2 x < 7); [|lia].
      apply Z.log2_lt_pow2; lia. }
  rewrite <- Z.lxor_lor by done. symmetry. by apply Z.add_nocarry_lxor.
Qed.

Lemma shifted_nonzero p x : 0 < x < 128 -> u32 (Z.shiftl (Z.lor p x) 7) <> 0.
Proof.
  intros Hx Hz.
  assert (Z.log2 x < 7) as Hl by (apply Z.log2_lt_pow2; lia).
  pose proof (Z.log2_nonneg x) as Hl0.
  assert (Z.testbit (u32 (Z.shiftl (Z.lor p x) 7)) (Z.log2 x + 7) = true) as Hb.
  { unfold u32. change 4294967296 with (2 ^ 32).
    rewrite Z.mod_pow2_bits_low by lia.
    rewrite Z.shiftl_spec by lia.
    replace (Z.log2 x + 7 - 7) with (Z.log2 x) by lia.
    rewrite Z.lor_spec, Z.bit_log2 by lia. apply orb_true_r. }
  rewrite Hz, Z.bits_0 in Hb. done.
Qed.

End Bits.


(** ** The packet length store: sizes and termination *)

Section PLFacts.
Import PL.

Lemma msize_selectMarker s :
  msize (selectMarker s) = msize s \/ msize (selectMarker s) = msize s + 1.
Proof.
  unfold selectMarker, msize.
  destruct (markers_ s !! markerIndex_ s) eqn:E; simpl; [by left|right].
  rewrite map_size_insert_None; [lia|done].
Qed.

Lemma readInit_PLM_full idx s :
  msize s = 255 -> exists s', readInit idx GRK_PL_MARKER_PLM s = (false, s') /\ markers_ s' = markers_ s.
Proof.
  intros H. unfold readInit. unfold msize in *. simpl. rewrite H. simpl. eauto.
Qed.

Lemma msize_readInit idx t s :
  msize (readInit idx t s).2 = msize s \/ msize (readInit idx t s).2 = msize s + 1.
Proof.
  unfold readInit.
  repeat (case_match; simpl); try (by left);
  match goal with |- context [selectMarker ?x] => destruct (msize_selectMarker x) as [->| ->] end;
  unfold msize; simpl; auto.
Qed.

Lemma msize_readInit_PLM idx s :
  msize s <= 255 -> msize (readInit idx GRK_PL_MARKER_PLM s).2 <= 255.
Proof.
  intros H. destruct (decide (msize s = 255)) as [E|E].
  - destruct (readInit_PLM_full idx s E) as (s' & -> & Hm). unfold msize in *. simpl. rewrite Hm. lia.
  - destruct (msize_readInit idx GRK_PL_MARKER_PLM s); lia.
Qed.

Lemma markers_readNext_size b s : msize (readNext b s) = msize s.
Proof.
  unfold readNext, msize, push_back. case_match; simpl; [done|].
  destruct (currMarker_ s); simpl; [|done].
  rewrite <- !size_dom, dom_alter_L. done.
Qed.

Lemma msize_readBytes n data pos s : msize (readBytes n data pos s) = msize s.
Proof.
  revert pos s. induction n as [|n IH]; intros; simpl; [done|].
  rewrite IH. apply markers_readNext_size.
Qed.

Lemma readPLM_loop_msize fuel data pos hs s r :
  readPLM_loop fuel data pos hs s = Some r -> msize r.2 = msize s.
Proof.
  revert pos hs s. induction fuel as [|fuel IH]; intros pos hs s; simpl.
  - case_match; [done|]. intros [= <-]. done.
  - case_match; [|intros [= <-]; done].
    case_match; [intros [= <-]; done|].
    case_match; [intros [= <-]; simpl; apply msize_readBytes|].
    intros Hr. apply IH in Hr. rewrite Hr. apply msize_readBytes.
Qed.

Lemma byte_at_range data pos : 0 <= byte_at data pos < 256.
Proof. unfold byte_at, u8. apply Z.mod_pos_bound. lia. Qed.

Lemma readPLM_loop_total fuel data pos hs s :
  hs <= Z.of_nat fuel -> is_Some (readPLM_loop fuel data pos hs s).
Proof.
  revert pos hs s. induction fuel as [|fuel IH]; intros pos hs s Hf; simpl.
  - destruct (0 <? hs) eqn:E; [lia|eauto].
  - destruct (0 <? hs) eqn:E; [|eauto].
    pose proof (byte_at_range data pos).
    case_match; [eauto|]. case_match; [eauto|].
    apply IH. unfold u16.
    assert (0 <= hs - (1 + byte_at data pos)) by lia.
    pose proof (Z.mod_le (hs - (1 + byte_at data pos)) 65536 ltac:(lia) ltac:(lia)). lia.
Qed.

Lemma readPLM_total data hs s : is_Some (readPLM data hs s).
Proof.
  unfold readPLM. case_match; [eauto|].
  destruct (readInit _ _ _) as [ok s']. case_match; [eauto|].
  apply readPLM_loop_total. lia.
Qed.

Lemma readPLM_msize_le data hs s r :
  readPLM data hs s = Some r -> msize s <= 255 -> msize r.2 <= 255.
Proof.
  unfold readPLM. case_match; [intros [= <-]; done|].
  pose proof (msize_readInit_PLM (byte_at data 0) s) as Hi.
  destruct (readInit _ _ _) as [ok s'] eqn:E. simpl in Hi.
  case_match; [intros [= <-]; simpl; auto|].
  intros Hr%readPLM_loop_msize. rewrite Hr. auto.
Qed.

Lemma readPLM_all_msize segs s : msize s <= 255 -> msize (readPLM_all segs s) <= 255.
Proof.
  revert s. induction segs as [|seg segs IH]; intros s H; simpl; [done|].
  apply IH. destruct (readPLM_total seg.1 seg.2 s) as [r Hr]. rewrite Hr.
  by eapply readPLM_msize_le.
Qed.

End PLFacts.


(** ** The packet length store: decoding of the length bytes *)

Section PLRead.
Import PL.

Lemma byte_at_drop data pos b rest :
  drop pos data = b :: rest -> 0 <= b < 256 -> byte_at data pos = b.
Proof.
  intros Hd Hb. unfold byte_at, u8. rewrite nth_lookup.
  assert (data !! pos = Some b) as ->.
  { replace pos with (pos + 0)%nat by lia. rewrite <- lookup_drop, Hd. done. }
  simpl. apply Z.mod_small. lia.
Qed.

Lemma drop_S_cons {A} (data : list A) pos b rest :
  drop pos data = b :: rest -> drop (S pos) data = rest.
Proof.
  intros Hd. replace (S pos) with (pos + 1)%nat by lia.
  rewrite <- drop_drop, Hd. done.
Qed.

Lemma readBytes_foldl bytes : forall n data pos s rest,
  drop pos data = bytes ++ rest -> length bytes = n -> bytes_ok bytes ->
  readBytes n data pos s = foldl (fun s b => readNext b s) s bytes.
Proof.
  induction bytes as [|b bytes IH]; intros n data pos s rest Hd Hn Hb; simpl in *; subst n.
  - done.
  - simpl. inversion Hb; subst.
    rewrite (byte_at_drop data pos b (bytes ++ rest)) by done.
    apply (IH _ _ _ _ rest); [|done..].
    by eapply drop_S_cons.
Qed.

Lemma u32_mul128_mod x : u32 (x * 128) mod 128 = 0.
Proof.
  unfold u32. rewrite Z.mod_mod_divide by (exists 33554432; lia).
  apply Z.mod_mul. lia.
Qed.

Lemma u32_range x : 0 <= u32 x < 4294967296.
Proof. unfold u32. apply Z.mod_pos_bound. lia. Qed.

Lemma accum_push acc x :
  0 <= x < 128 -> Z.lor (u32 (acc * 128)) x = u32 (acc * 128 + x).
Proof.
  intros Hx. pose proof (u32_mul128_mod acc) as Hm. pose proof (u32_range (acc * 128)) as Hr.
  rewrite lor_low7 by (done || lia).
  unfold u32 in *. 
  rewrite <- (Z.mod_small (acc * 128 mod 4294967296 + x) 4294967296).
  - by rewrite Zplus_mod_idemp_l.
  - pose proof (Z.div_mod (acc * 128 mod 4294967296) 128 ltac:(lia)). lia.
Qed.

Lemma accum_shift acc x :
  0 <= x < 128 ->
  u32 (Z.shiftl (Z.lor (u32 (acc * 128)) x) 7) = u32 ((acc * 128 + x) * 128).
Proof.
  intros Hx. rewrite accum_push by done. rewrite Z.shiftl_mul_pow2 by lia.
  change (2 ^ 7) with 128. unfold u32. by rewrite Zmult_mod_idemp_l.
Qed.

Lemma alter_alter_app (m : gmap Z (list Z)) k (l1 l2 : list Z) :
  alter (fun v => v ++ l2) k (alter (fun v => v ++ l1) k m)
  = alter (fun v => v ++ l1 ++ l2) k m.
Proof.
  apply map_eq. intros j. destruct (decide (k = j)) as [->|Hne].
  - rewrite !lookup_alter_eq. destruct (m !! j); simpl; [|done]. by rewrite app_assoc.
  - by rewrite !lookup_alter_ne.
Qed.

Lemma readNext_cont b s :
  0 <= b < 256 -> continues b = true ->
  readNext b s = mkPL (markers_ s) (markerIndex_ s) (currMarker_ s) (sequential_ s)
                      (u32 (Z.shiftl (Z.lor (packet_len_ s) (b mod 128)) 7)).
Proof.
  intros Hb Hc. unfold readNext. by rewrite land_0x80, land_0x7f, Hc by lia.
Qed.

Lemma readNext_term b s :
  0 <= b < 256 -> continues b = false ->
  readNext b s =
  mkPL (match currMarker_ s with
        | Some k => alter (fun v => v ++ [Z.lor (packet_len_ s) (b mod 128)]) k (markers_ s)
        | None => markers_ s
        end) (markerIndex_ s) (currMarker_ s) (sequential_ s) 0.
Proof.
  intros Hb Hc. unfold readNext. by rewrite land_0x80, land_0x7f, Hc by lia.
Qed.

Lemma foldl_readNext_spec bytes : forall acc s k,
  bytes_ok bytes -> currMarker_ s = Some k -> packet_len_ s = u32 (acc * 128) ->
  let s' := foldl (fun s b => readNext b s) s bytes in
  markers_ s' = alter (fun v => v ++ (u32 <$> varints acc bytes)) k (markers_ s)
  /\ currMarker_ s' = Some k /\ markerIndex_ s' = markerIndex_ s
  /\ sequential_ s' = sequential_ s.
Proof.
  induction bytes as [|b bytes IH]; intros acc s k Hb Hk Hp; simpl.
  - split; [|done]. symmetry. apply alter_id. intros x _. by rewrite app_nil_r.
  - inversion Hb as [|? ? Hb1 Hb2]; subst.
    assert (0 <= b mod 128 < 128) as Hx by (apply Z.mod_pos_bound; lia).
    destruct (continues b) eqn:Hc.
    + rewrite readNext_cont, Hp, accum_shift by done.
      destruct (IH (acc * 128 + b mod 128)
                   (mkPL (markers_ s) (markerIndex_ s) (currMarker_ s) (sequential_ s)
                         (u32 ((acc * 128 + b mod 128) * 128))) k Hb2 Hk eq_refl)
        as (H1 & H2 & H3 & H4).
      simpl in *. by rewrite H1, H2, H3, H4.
    + rewrite readNext_term, Hp, accum_push, Hk by done.
      destruct (IH 0
                   (mkPL (alter (fun v => v ++ [u32 (acc * 128 + b mod 128)]) k (markers_ s))
                         (markerIndex_ s) (Some k) (sequential_ s) 0) k Hb2 eq_refl eq_refl)
        as (H1 & H2 & H3 & H4).
      simpl in *. rewrite H1, H2, H3, H4. split; [|done].
      by rewrite alter_alter_app.
Qed.

Lemma foldl_readNext_dangling bytes s :
  bytes_ok bytes -> dangling bytes = true ->
  packet_len_ (foldl (fun s b => readNext b s) s bytes) <> 0.
Proof.
  intros Hb Hd. unfold dangling in Hd.
  destruct (last bytes) as [b|] eqn:Hl; [|done].
  apply last_Some in Hl as [l' ->]. rewrite foldl_app. simpl.
  apply Forall_app in Hb as [_ Hb]. inversion Hb; subst.
  apply andb_true_iff in Hd as [Hc Hz].
  rewrite readNext_cont by done. simpl.
  apply shifted_nonzero.
  assert (0 <= b mod 128 < 128) by (apply Z.mod_pos_bound; lia).
  apply negb_true_iff, Z.eqb_neq in Hz. lia.
Qed.

Lemma foldl_readNext_terminated bytes s :
  bytes_ok bytes -> terminated bytes = true -> packet_len_ s = 0 ->
  packet_len_ (foldl (fun s b => readNext b s) s bytes) = 0.
Proof.
  intros Hb Hd Hp. unfold terminated in Hd.
  destruct (last bytes) as [b|] eqn:Hl.
  - apply last_Some in Hl as [l' ->]. rewrite foldl_app. simpl.
    apply Forall_app in Hb as [_ Hb]. inversion Hb; subst.
    apply negb_true_iff in Hd. by rewrite readNext_term.
  - apply last_None in Hl as ->. done.
Qed.

Lemma foldl_readNext_pending bytes : forall acc s,
  bytes_ok bytes -> packet_len_ s = u32 (acc * 128) ->
  packet_len_ (foldl (fun s b => readNext b s) s bytes) = u32 (pending acc bytes * 128).
Proof.
  induction bytes as [|b bytes IH]; intros acc s Hb Hp; [done|].
  inversion Hb as [|? ? Hb1 Hb2]; subst. cbn [foldl pending].
  assert (0 <= b mod 128 < 128) as Hx by (apply Z.mod_pos_bound; lia).
  destruct (continues b) eqn:Hc.
  - rewrite readNext_cont, Hp, accum_shift by done. by apply IH.
  - rewrite readNext_term by done. by apply IH.
Qed.

Lemma pending_congr bytes : forall acc acc',
  u32 (acc * 128) = u32 (acc' * 128) ->
  u32 (pending acc bytes * 128) = u32 (pending acc' bytes * 128).
Proof.
  induction bytes as [|b bytes IH]; intros acc acc' H; [done|].
  cbn [pending]. destruct (continues b); [|done].
  apply IH. unfold u32 in *.
  replace ((acc * 128 + b mod 128) * 128) with (acc * 128 * 128 + b mod 128 * 128) by lia.
  replace ((acc' * 128 + b mod 128) * 128) with (acc' * 128 * 128 + b mod 128 * 128)
    by lia.
  rewrite (Z.add_mod (acc * 128 * 128)), (Z.add_mod (acc' * 128 * 128)) by lia.
  rewrite (Z.mul_mod (acc * 128)), (Z.mul_mod (acc' * 128)) by lia.
  by rewrite H.
Qed.

Lemma varints_app bytes : forall acc l,
  varints acc (bytes ++ l) = varints acc bytes ++ varints (pending acc bytes) l.
Proof.
  induction bytes as [|b bytes IH]; intros acc l; [done|].
  cbn [app varints pending]. destruct (continues b); [apply IH|].
  by rewrite IH.
Qed.

Lemma residual_terminated bytes : terminated bytes = true -> residual bytes = 0.
Proof.
  unfold residual, terminated.
  assert (forall acc, match last bytes with
                      | Some b => negb (continues b)
                      | None => true
                      end = true -> bytes <> [] -> pending acc bytes = 0) as H.
  { induction bytes as [|b bytes IH]; intros acc Ht Hne; [done|].
    cbn [pending]. destruct bytes as [|b' bytes].
    - simpl in Ht. apply negb_true_iff in Ht. by rewrite Ht.
    - destruct (continues b); apply IH; done. }
  intros Ht. destruct bytes as [|b bytes]; [done|]. by rewrite H.
Qed.

Lemma residual_dangling bytes :
  bytes_ok bytes -> dangling bytes = true -> residual bytes <> 0.
Proof.
  intros Hb Hd.
  pose proof (foldl_readNext_dangling bytes init Hb Hd) as H.
  by rewrite (foldl_readNext_pending bytes 0 init Hb eq_refl) in H.
Qed.

Lemma readInit_true idx t s s1 :
  readInit idx t s = (true, s1) ->
  packet_len_ s1 = 0 /\ currMarker_ s1 = Some (markerIndex_ s1).
Proof.
  unfold readInit.
  repeat (case_match; simpl); intros [= <-]; unfold selectMarker; simpl;
    case_match; simpl; done.
Qed.

End PLRead.


(** ** The packet length store: PLM groups *)

Section PLSegments.
Import PL.

Lemma forallb_bytes_ok l : forallb is_byte l = true -> bytes_ok l.
Proof.
  intros H. apply Forall_forall. intros b Hb.
  rewrite forallb_forall in H. apply list_elem_of_In, H in Hb.
  unfold is_byte in Hb. lia.
Qed.

Lemma u16_small x : 0 <= x < 65536 -> u16 x = x.
Proof. apply Z.mod_small. Qed.

Lemma plm_payload_cons g gs :
  plm_payload (g :: gs) = Z.of_nat (length g) :: g ++ plm_payload gs.
Proof. done. Qed.

(** One round of the loop of [readPLM] on a well-formed group. *)
Lemma readPLM_loop_step fuel data pos g tail s hs :
  drop pos data = Z.of_nat (length g) :: g ++ tail ->
  bytes_ok g -> (length g <= 255)%nat ->
  hs = 1 + Z.of_nat (length g) + Z.of_nat (length tail) -> hs <= 65535 ->
  readPLM_loop (S fuel) data pos hs s
  = let s1 := foldl (fun s b => readNext b s) s g in
    if negb (packet_len_ s1 =? 0) then Some (false, s1)
    else readPLM_loop fuel data (S pos + length g)%nat (Z.of_nat (length tail)) s1.
Proof.
  intros Hd Hb Hg -> Hl.
  cbn [readPLM_loop].
  rewrite (byte_at_drop data pos _ _ Hd) by lia.
  destruct (0 <? _) eqn:E1; [|apply Z.ltb_ge in E1; lia].
  destruct (_ <? 1 + _) eqn:E2; [apply Z.ltb_lt in E2; lia|].
  rewrite Nat2Z.id.
  rewrite (readBytes_foldl g _ data (S pos) s tail); [|by eapply drop_S_cons|done|done].
  rewrite u16_small by lia.
  replace (1 + Z.of_nat (length g) + Z.of_nat (length tail) - (1 + Z.of_nat (length g)))
    with (Z.of_nat (length tail)) by lia.
  done.
Qed.

Lemma drop_group {A} (data : list A) pos n g tail :
  drop pos data = n :: g ++ tail -> drop (S pos + length g) data = tail.
Proof.
  intros Hd. rewrite <- drop_drop. rewrite (drop_S_cons _ _ _ _ Hd).
  by rewrite drop_app_length.
Qed.

Lemma length_plm_payload_cons g gs :
  length (plm_payload (g :: gs)) = S (length g + length (plm_payload gs)).
Proof. rewrite plm_payload_cons. simpl. by rewrite length_app. Qed.

Lemma readPLM_loop_fail gs : forall g rest fuel data pos s hs,
  drop pos data = plm_payload (gs ++ [g]) ++ rest ->
  bytes_ok (plm_payload (gs ++ [g])) ->
  Forall (fun g => (length g <= 255)%nat) (gs ++ [g]) ->
  hs = Z.of_nat (length (plm_payload (gs ++ [g]) ++ rest)) ->
  hs <= 65535 -> hs <= Z.of_nat fuel ->
  packet_len_ s = 0 ->
  residual g <> 0 ->
  exists s', readPLM_loop fuel data pos hs s = Some (false, s').
Proof.
  induction gs as [|g0 gs IH]; intros g rest fuel data pos s hs Hd Hb Hg Hh Hl Hf Hp Hdg.
  - change ([] ++ [g]) with [g] in *. rewrite length_app, length_plm_payload_cons in Hh.
    rewrite plm_payload_cons in *. unfold plm_payload in Hd, Hb, Hh. simpl in Hd, Hb, Hh.
    rewrite app_nil_r in *. inversion Hb as [|? ? _ Hb']; subst.
    inversion Hg; subst.
    destruct fuel as [|fuel]; [lia|].
    rewrite (readPLM_loop_step fuel data pos g rest) by (done || lia). cbv zeta.
    rewrite (foldl_readNext_pending g 0 s Hb' Hp).
    fold (residual g). apply Z.eqb_neq in Hdg. rewrite Hdg. simpl. eauto.
  - change ((g0 :: gs) ++ [g]) with (g0 :: (gs ++ [g])) in *.
    rewrite length_app, length_plm_payload_cons in Hh.
    rewrite plm_payload_cons in *.
    rewrite <- !app_comm_cons, <- app_assoc in *.
    inversion Hb as [|? ? _ Hb']; subst. apply Forall_app in Hb' as [Hb0 Hb'].
    inversion Hg as [|? ? Hg0 Hg']; subst.
    destruct fuel as [|fuel]; [lia|].
    rewrite (readPLM_loop_step fuel data pos g0 (plm_payload (gs ++ [g]) ++ rest))
      by (done || rewrite ?length_app; lia). cbv zeta.
    destruct (packet_len_ _ =? 0) eqn:E; simpl negb; cbv iota; [|eauto].
    apply Z.eqb_eq in E.
    eapply IH; try done.
    + by eapply drop_group.
    + rewrite length_app in *. lia.
    + rewrite length_app in *. lia.
Qed.

Lemma readPLM_loop_ok gs : forall acc fuel data pos s k hs,
  drop pos data = plm_payload gs ->
  bytes_ok (plm_payload gs) ->
  Forall (fun g => (length g <= 255)%nat /\ residual g = 0) gs ->
  hs = Z.of_nat (length (plm_payload gs)) ->
  hs <= 65535 -> hs <= Z.of_nat fuel ->
  currMarker_ s = Some k -> packet_len_ s = 0 -> u32 (acc * 128) = 0 ->
  exists s', readPLM_loop fuel data pos hs s = Some (true, s')
    /\ markers_ s' = alter (fun v => v ++ (u32 <$> varints acc (concat gs))) k (markers_ s).
Proof.
  induction gs as [|g gs IH]; intros acc fuel data pos s k hs Hd Hb Hg Hh Hl Hf Hk Hp Ha.
  - exists s. subst hs. split.
    + destruct fuel; done.
    + simpl. symmetry. apply alter_id. intros x _. by rewrite app_nil_r.
  - rewrite length_plm_payload_cons in Hh. rewrite plm_payload_cons in *.
    inversion Hb as [|? ? _ Hb']; subst. apply Forall_app in Hb' as [Hb0 Hb'].
    inversion Hg as [|? ? [Hg0 Ht] Hg']; subst.
    destruct fuel as [|fuel]; [lia|].
    rewrite (readPLM_loop_step fuel data pos g (plm_payload gs)) by (done || lia). cbv zeta.
    assert (packet_len_ s = u32 (acc * 128)) as Hp' by (by rewrite Ha).
    destruct (foldl_readNext_spec g acc s k Hb0 Hk Hp') as (H1 & H2 & _).
    assert (u32 (pending acc g * 128) = 0) as Ha'.
    { unfold residual in Ht. rewrite <- Ht. apply pending_congr. by rewrite Ha. }
    pose proof (foldl_readNext_pending g acc s Hb0 Hp') as Hp1. rewrite Ha' in Hp1.
    rewrite Hp1. simpl negb. cbv iota.
    edestruct (IH (pending acc g) fuel data (S pos + length g)%nat
                  (foldl (fun s b => readNext b s) s g) k) as (s' & Hs' & Hm);
      [by eapply drop_group|done|done|reflexivity|lia|lia|done|done|done|].
    exists s'. split; [done|].
    rewrite Hm, H1, alter_alter_app. simpl concat.
    by rewrite varints_app, fmap_app.
Qed.

End PLSegments.


(** ** The packet length store: whole marker segments *)

Section PLClaims.
Import PL.

Lemma readPLT_unfold Zplt bytes s :
  bytes_ok (Zplt :: bytes) -> Z.of_nat (length (Zplt :: bytes)) <= 65535 ->
  readPLT (Zplt :: bytes) (Z.of_nat (length (Zplt :: bytes))) s
  = let '(ok, s1) := readInit Zplt GRK_PL_MARKER_PLT s in
    if negb ok then (false, s1)
    else let s2 := foldl (fun s b => readNext b s) s1 bytes in
         if negb (packet_len_ s2 =? 0) then (false, s2) else (true, s2).
Proof.
  intros Hb Hl. inversion Hb as [|? ? Hz Hb']; subst.
  unfold readPLT. simpl length in *.
  destruct (_ <? 1) eqn:E; [apply Z.ltb_lt in E; lia|].
  rewrite (byte_at_drop (Zplt :: bytes) 0 Zplt bytes) by done.
  destruct (readInit _ _ _) as [ok s1]. destruct ok; simpl negb; cbv iota; [|done].
  rewrite u16_small by lia.
  replace (Z.to_nat (Z.of_nat (S (length bytes)) - 1)) with (length bytes) by lia.
  rewrite (readBytes_foldl bytes _ _ 1 s1 []); [done|by rewrite app_nil_r|done|done].
Qed.

Lemma readPLM_unfold Zplm payload s :
  0 <= Zplm < 256 -> Z.of_nat (length (Zplm :: payload)) <= 65535 ->
  readPLM (Zplm :: payload) (Z.of_nat (length (Zplm :: payload))) s
  = let '(ok, s1) := readInit Zplm GRK_PL_MARKER_PLM s in
    if negb ok then Some (false, s1)
    else readPLM_loop (length payload) (Zplm :: payload) 1
                      (Z.of_nat (length payload)) s1.
Proof.
  intros Hz Hl.
  unfold readPLM. simpl length in *.
  destruct (_ <? 1) eqn:E; [apply Z.ltb_lt in E; lia|].
  rewrite (byte_at_drop (Zplm :: payload) 0 Zplm payload) by done.
  destruct (readInit _ _ _) as [ok s1]. destruct ok; simpl negb; cbv iota; [|done].
  rewrite u16_small by lia.
  replace (Z.of_nat (S (length payload)) - 1) with (Z.of_nat (length payload)) by lia.
  by rewrite Nat2Z.id.
Qed.

Lemma readPLT_residual s Zplt bytes :
  forallb is_byte (Zplt :: bytes) = true ->
  Z.of_nat (length (Zplt :: bytes)) <= 65535 ->
  residual bytes <> 0 ->
  (readPLT (Zplt :: bytes) (Z.of_nat (length (Zplt :: bytes))) s).1 = false.
Proof.
  intros Hb%forallb_bytes_ok Hl Hd. rewrite readPLT_unfold by done.
  inversion Hb; subst.
  destruct (readInit _ _ _) as [[] s1] eqn:Hi; simpl; [|done].
  destruct (readInit_true _ _ _ _ Hi) as [Hp Hk].
  rewrite (foldl_readNext_pending bytes 0 s1) by done. fold (residual bytes).
  apply Z.eqb_neq in Hd. by rewrite Hd.
Qed.

Lemma readPLT_packet_len s s1 Zplt bytes :
  forallb is_byte (Zplt :: bytes) = true ->
  Z.of_nat (length (Zplt :: bytes)) <= 65535 ->
  readInit Zplt GRK_PL_MARKER_PLT s = (true, s1) ->
  let r := readPLT (Zplt :: bytes) (Z.of_nat (length (Zplt :: bytes))) s in
  packet_len_ r.2 = residual bytes /\ r.1 = (residual bytes =? 0).
Proof.
  intros Hb%forallb_bytes_ok Hl Hi. cbv zeta. rewrite readPLT_unfold by done.
  inversion Hb; subst. rewrite Hi. simpl negb. cbv iota zeta.
  destruct (readInit_true _ _ _ _ Hi) as [Hp Hk].
  pose proof (foldl_readNext_pending bytes 0 s1 ltac:(done) Hp) as Hr.
  fold (residual bytes) in Hr. rewrite Hr.
  by destruct (residual bytes =? 0).
Qed.

Lemma readPLT_no_residual s s1 Zplt bytes :
  forallb is_byte (Zplt :: bytes) = true ->
  Z.of_nat (length (Zplt :: bytes)) <= 65535 ->
  residual bytes = 0 ->
  readInit Zplt GRK_PL_MARKER_PLT s = (true, s1) ->
  exists s', readPLT (Zplt :: bytes) (Z.of_nat (length (Zplt :: bytes))) s = (true, s')
    /\ markers_ s' = alter (fun v => v ++ (u32 <$> varints 0 bytes))
                           (markerIndex_ s1) (markers_ s1).
Proof.
  intros Hb%forallb_bytes_ok Hl Ht Hi. rewrite readPLT_unfold by done.
  inversion Hb; subst. rewrite Hi. simpl negb. cbv iota zeta.
  destruct (readInit_true _ _ _ _ Hi) as [Hp Hk].
  rewrite (foldl_readNext_pending bytes 0 s1) by done. fold (residual bytes).
  rewrite Ht. simpl.
  eexists. split; [done|].
  by destruct (foldl_readNext_spec bytes 0 s1 _ ltac:(done) Hk Hp) as (-> & _).
Qed.

Lemma Forall_length_255 (gs : list (list Z)) :
  forallb (fun g => (length g <=? 255)%nat) gs = true ->
  Forall (fun g => (length g <= 255)%nat) gs.
Proof.
  intros H. apply Forall_forall. intros g Hg%list_elem_of_In.
  rewrite forallb_forall in H. apply H in Hg. by apply Nat.leb_le.
Qed.

Lemma readPLM_residual s Zplm gs g rest :
  forallb is_byte (Zplm :: plm_payload (gs ++ [g]) ++ rest) = true ->
  Z.of_nat (length (Zplm :: plm_payload (gs ++ [g]) ++ rest)) <= 65535 ->
  forallb (fun g => (length g <=? 255)%nat) (gs ++ [g]) = true ->
  residual g <> 0 ->
  exists s', readPLM (Zplm :: plm_payload (gs ++ [g]) ++ rest)
                     (Z.of_nat (length (Zplm :: plm_payload (gs ++ [g]) ++ rest))) s
             = Some (false, s').
Proof.
  intros Hb%forallb_bytes_ok Hl Hg%Forall_length_255 Hd.
  inversion Hb as [|? ? Hz Hb']; subst. apply Forall_app in Hb' as [Hb' _].
  rewrite readPLM_unfold by done.
  destruct (readInit _ _ _) as [[] s1] eqn:Hi; simpl negb; cbv iota; [|eauto].
  destruct (readInit_true _ _ _ _ Hi) as [Hp Hk].
  simpl length in Hl.
  eapply (readPLM_loop_fail gs g rest); try done; lia.
Qed.

Lemma readPLM_no_residual s s1 Zplm gs :
  forallb is_byte (Zplm :: plm_payload gs) = true ->
  Z.of_nat (length (Zplm :: plm_payload gs)) <= 65535 ->
  forallb (fun g => (length g <=? 255)%nat && (residual g =? 0)) gs = true ->
  readInit Zplm GRK_PL_MARKER_PLM s = (true, s1) ->
  exists s', readPLM (Zplm :: plm_payload gs)
                     (Z.of_nat (length (Zplm :: plm_payload gs))) s = Some (true, s')
    /\ markers_ s' = alter (fun v => v ++ (u32 <$> varints 0 (concat gs)))
                           (markerIndex_ s1) (markers_ s1).
Proof.
  intros Hb%forallb_bytes_ok Hl Hg Hi.
  inversion Hb as [|? ? Hz Hb']; subst.
  rewrite readPLM_unfold by done. rewrite Hi. simpl negb. cbv iota.
  destruct (readInit_true _ _ _ _ Hi) as [Hp Hk].
  simpl length in Hl.
  eapply (readPLM_loop_ok gs 0); try done; try lia.
  apply Forall_forall. intros g Hin%list_elem_of_In.
  rewrite forallb_forall in Hg. apply Hg, andb_true_iff in Hin as [H1 H2].
  apply Nat.leb_le in H1. by apply Z.eqb_eq in H2.
Qed.

End PLClaims.


(** ** The packet length store: sequential marker indices *)

Section PLSequential.
Import PL.

Lemma seq_inv_init : seq_inv init [].
Proof.
  unfold seq_inv, init, msize. simpl. repeat split; try done.
Qed.

Lemma nonempty_size s : msize s <> 0 -> bool_decide (markers_ s = ∅) = false.
Proof.
  intros H. apply bool_decide_eq_false. intros Hm. apply H. unfold msize. by rewrite Hm.
Qed.

Lemma msize_mk m a b c d : msize (mkPL m a b c d) = Z.of_nat (size m).
Proof. done. Qed.

Lemma readInit_sequential s read :
  seq_inv s read -> Z.of_nat (length read) < 4294967296 ->
  readInit (Z.of_nat (length read) mod 256) GRK_PL_MARKER_PLT s
  = (true, mkPL (<[Z.of_nat (length read) := []]> (markers_ s))
                (Z.of_nat (length read)) (Some (Z.of_nat (length read))) true 0).
Proof.
  intros (Hs & Hl & Hn & Hq) Hlt. unfold readInit. cbn [is_PLM markers_ sequential_].
  rewrite andb_false_r.
  rewrite !msize_mk. unfold msize in Hs.
  destruct (decide (read = [])) as [->|Hne].
  - assert (markers_ s = ∅) as Hm.
    { apply map_size_empty_iff. unfold msize in Hs. simpl in Hs. lia. }
    rewrite Hm, bool_decide_eq_true_2 by done. simpl. unfold selectMarker. simpl.
    by rewrite lookup_empty.
  - rewrite Hq by done.
    assert (Z.of_nat (length read) <> 0) by (destruct read; simpl; [done|lia]).
    rewrite (nonempty_size s) by (unfold msize; rewrite Hs; done).
    rewrite Hs. rewrite Z.eqb_refl. simpl.
    unfold u32. rewrite Z.mod_small by lia.
    unfold selectMarker. simpl. rewrite Hn by lia. done.
Qed.

Lemma insert_alter_nil (m : gmap Z (list Z)) k l :
  alter (fun v => v ++ l) k (<[k := []]> m) = <[k := l]> m.
Proof.
  apply map_eq. intros j. destruct (decide (k = j)) as [->|Hne].
  - by rewrite lookup_alter_eq, !lookup_insert_eq.
  - by rewrite lookup_alter_ne, !lookup_insert_ne.
Qed.

Lemma readPLT_sequential s read seg :
  seq_inv s read -> Z.of_nat (length read) < 4294967296 ->
  byte_at seg 0 = Z.of_nat (length read) mod 256 ->
  1 <= Z.of_nat (length seg) <= 65535 ->
  forallb is_byte seg = true ->
  seq_inv (readPLT seg (Z.of_nat (length seg)) s).2 (read ++ [seg]).
Proof.
  intros Hinv Hlt Hz Hl Hb%forallb_bytes_ok.
  destruct seg as [|Zplt bytes]; [simpl in Hl; lia|].
  rewrite readPLT_unfold by (done || lia).
  inversion Hb as [|? ? Hz0 Hb']; subst.
  rewrite (byte_at_drop _ 0 Zplt bytes) in Hz by done. subst Zplt.
  rewrite (readInit_sequential s read) by done. simpl negb. cbv iota zeta.
  match goal with |- context [foldl _ ?s1 bytes] =>
    destruct (foldl_readNext_spec bytes 0 s1 (Z.of_nat (length read)) Hb' eq_refl eq_refl)
      as (H1 & H2 & H3 & H4) end.
  simpl in H1, H4. rewrite insert_alter_nil in H1.
  destruct Hinv as (Hs & Hlk & Hn & Hq).
  assert (seq_inv (foldl (fun s b => readNext b s)
            (mkPL (<[Z.of_nat (length read) := []]> (markers_ s))
                  (Z.of_nat (length read)) (Some (Z.of_nat (length read))) true 0) bytes)
            (read ++ [Z.of_nat (length read) mod 256 :: bytes])) as Hres.
  { unfold seq_inv. rewrite length_app. simpl length. repeat split.
    - unfold msize in *. rewrite H1, map_size_insert_None by (apply Hn; lia). lia.
    - intros i seg Hi. rewrite H1.
      destruct (decide (i < length read)%nat) as [Hlt'|Hge].
      + rewrite lookup_app_l in Hi by done.
        rewrite lookup_insert_ne by lia. by apply Hlk.
      + rewrite lookup_app_r in Hi by lia.
        apply list_lookup_singleton_Some in Hi as [Hi <-].
        replace i with (length read) by lia. by rewrite lookup_insert_eq.
    - intros k Hk. rewrite H1, lookup_insert_ne by lia. apply Hn. lia.
    - intros _. exact H4. }
  destruct (negb _); exact Hres.
Qed.

Lemma sequential_from_cons n seg segs :
  sequential_from n (seg :: segs) = true ->
  byte_at seg 0 = Z.of_nat n mod 256 /\ 1 <= Z.of_nat (length seg) <= 65535
  /\ sequential_from (S n) segs = true.
Proof.
  simpl. rewrite !andb_true_iff. intros [[[H1 H2] H3] H4].
  apply Z.eqb_eq in H1. apply Z.leb_le in H2, H3. repeat split; (done || lia).
Qed.

Lemma readPLT_all_sequential segs : forall s read,
  seq_inv s read ->
  sequential_from (length read) segs = true ->
  forallb (forallb is_byte) segs = true ->
  Z.of_nat (length (read ++ segs)) <= 4294967296 ->
  seq_inv (readPLT_all segs s) (read ++ segs).
Proof.
  induction segs as [|seg segs IH]; intros s read Hinv Hseq Hb Hl.
  - by rewrite app_nil_r.
  - apply sequential_from_cons in Hseq as (Hz & Hlen & Hseq).
    simpl in Hb. apply andb_true_iff in Hb as [Hb1 Hb2].
    rewrite length_app in Hl. simpl in Hl.
    change (readPLT_all (seg :: segs) s)
      with (readPLT_all segs (readPLT seg (Z.of_nat (length seg)) s).2).
    replace (read ++ seg :: segs) with ((read ++ [seg]) ++ segs) by (by rewrite <- app_assoc).
    apply IH; try done.
    + apply readPLT_sequential; try done. lia.
    + rewrite length_app. simpl. by replace (length read + 1)%nat with (S (length read)) by lia.
    + rewrite !length_app. simpl. lia.
Qed.

Lemma readInit_sequence_broken s idx :
  sequential_ s = true -> 256 < msize s -> idx <> msize s mod 256 ->
  (readInit idx GRK_PL_MARKER_PLT s).1 = false.
Proof.
  intros Hq Hs Hi. unfold readInit. cbn [is_PLM markers_ sequential_].
  rewrite andb_false_r.
  rewrite nonempty_size by lia.
  rewrite Hq, !msize_mk. fold (msize s).
  destruct (_ =? idx) eqn:E; [apply Z.eqb_eq in E; lia|].
  simpl. destruct (256 <? msize s) eqn:E2; [done|apply Z.ltb_ge in E2; lia].
Qed.

Lemma readPLT_readInit_false data hs s :
  (readInit (byte_at data 0) GRK_PL_MARKER_PLT s).1 = false ->
  (readPLT data hs s).1 = false.
Proof.
  intros H. unfold readPLT. destruct (hs <? 1); [done|].
  destruct (readInit _ _ _) as [ok s1]. simpl in H. subst ok. done.
Qed.

End PLSequential.


(** ** The packet length store: the claims *)

(** C5, as amended: [readPLT] and [readPLM] fail on the residual of the
    accumulator [packet_len_], not on the continuation bit of the last byte.
    The residual of a run of length bytes is the base-128 integer that the
    run leaves unfinished, shifted by seven bits and taken mod 2^32: it is 0
    when the last byte has its continuation bit clear (or there is no
    byte), and it is not 0 when the last byte has its continuation bit set
    and one of its seven low bits set. When [readInit] succeeds, the
    residual is the value of [packet_len_] after the length bytes of the
    segment, and [readPLT] succeeds exactly when it is 0. [readPLT] fails on
    every segment whose length bytes leave a residual other than 0, whether
    [readInit] succeeds or not; when the residual is 0
    and [readInit] succeeds, it succeeds and the base-128 integers of the
    segment, taken mod 2^32, are appended to the vector of the current
    marker. [readPLM] returns a result on every segment; it fails when some
    Nplm group leaves a residual other than 0, and when every group leaves
    the residual 0 and [readInit] succeeds, it succeeds and the integers of
    all groups are appended. *)
Theorem pl_residual_check :
  (forall bytes,
      PL.bytes_ok bytes ->
      (PL.terminated bytes = true -> PL.residual bytes = 0)
      /\ (PL.dangling bytes = true -> PL.residual bytes <> 0))
  /\ (forall s s1 Zplt bytes,
      forallb PL.is_byte (Zplt :: bytes) = true ->
      Z.of_nat (length (Zplt :: bytes)) <= 65535 ->
      PL.readInit Zplt PL.GRK_PL_MARKER_PLT s = (true, s1) ->
      let r := PL.readPLT (Zplt :: bytes) (Z.of_nat (length (Zplt :: bytes))) s in
      PL.packet_len_ r.2 = PL.residual bytes /\ r.1 = (PL.residual bytes =? 0))
  /\ (forall s Zplt bytes,
      forallb PL.is_byte (Zplt :: bytes) = true ->
      Z.of_nat (length (Zplt :: bytes)) <= 65535 ->
      PL.residual bytes <> 0 ->
      (PL.readPLT (Zplt :: bytes) (Z.of_nat (length (Zplt :: bytes))) s).1 = false)
  /\ (forall s s1 Zplt bytes,
      forallb PL.is_byte (Zplt :: bytes) = true ->
      Z.of_nat (length (Zplt :: bytes)) <= 65535 ->
      PL.residual bytes = 0 ->
      PL.readInit Zplt PL.GRK_PL_MARKER_PLT s = (true, s1) ->
      exists s',
        PL.readPLT (Zplt :: bytes) (Z.of_nat (length (Zplt :: bytes))) s = (true, s')
        /\ PL.markers_ s' = alter (fun v => v ++ (u32 <$> PL.varints 0 bytes))
                                  (PL.markerIndex_ s1) (PL.markers_ s1))
  /\ (forall s Zplm gs g rest,
      forallb PL.is_byte (Zplm :: PL.plm_payload (gs ++ [g]) ++ rest) = true ->
      Z.of_nat (length (Zplm :: PL.plm_payload (gs ++ [g]) ++ rest)) <= 65535 ->
      forallb (fun g => (length g <=? 255)%nat) (gs ++ [g]) = true ->
      PL.residual g <> 0 ->
      exists s',
        PL.readPLM (Zplm :: PL.plm_payload (gs ++ [g]) ++ rest)
                   (Z.of_nat (length (Zplm :: PL.plm_payload (gs ++ [g]) ++ rest))) s
        = Some (false, s'))
  /\ (forall s s1 Zplm gs,
      forallb PL.is_byte (Zplm :: PL.plm_payload gs) = true ->
      Z.of_nat (length (Zplm :: PL.plm_payload gs)) <= 65535 ->
      forallb (fun g => (length g <=? 255)%nat && (PL.residual g =? 0)) gs = true ->
      PL.readInit Zplm PL.GRK_PL_MARKER_PLM s = (true, s1) ->
      exists s',
        PL.readPLM (Zplm :: PL.plm_payload gs)
                   (Z.of_nat (length (Zplm :: PL.plm_payload gs))) s = Some (true, s')
        /\ PL.markers_ s' = alter (fun v => v ++ (u32 <$> PL.varints 0 (concat gs)))
                                  (PL.markerIndex_ s1) (PL.markers_ s1)).
Proof.
  split; [|split; [|split; [|split; [|split]]]].
  - intros bytes Hb. split; [apply residual_terminated|by apply residual_dangling].
  - apply readPLT_packet_len.
  - apply readPLT_residual.
  - apply readPLT_no_residual.
  - apply readPLM_residual.
  - apply readPLM_no_residual.
Qed.

Lemma pl_residual_check_witness :
  PL.residual [5; 0x81; 1] = 0 /\ PL.residual [0x81] = 128
  /\ PL.residual [0x81; 0x80] = 16384
  /\ (PL.readPLT [0; 0x81] 2 PL.init).1 = false
  /\ (PL.readPLT [0; 0x81; 0x80] 3 PL.init).1 = false
  /\ (exists s', PL.readPLT [0; 5; 0x81; 1] 4 PL.init = (true, s')
        /\ PL.markers_ s' = alter (fun v => v ++ (u32 <$> PL.varints 0 [5; 0x81; 1])) 0
                                  (PL.markers_ (PL.readInit 0 PL.GRK_PL_MARKER_PLT PL.init).2))
  /\ (exists s', PL.readPLM [0; 1; 5; 2; 0x81; 0x80] 6 PL.init = Some (false, s'))
  /\ (exists s', PL.readPLM [0; 1; 5; 2; 0x81; 1] 6 PL.init = Some (true, s')
        /\ PL.markers_ s' = alter (fun v => v ++ (u32 <$> PL.varints 0 [5; 0x81; 1])) 0
                                  (PL.markers_ (PL.readInit 0 PL.GRK_PL_MARKER_PLM PL.init).2)).
Proof.
  destruct pl_residual_check as (H0 & _ & H1 & H2 & H3 & H4).
  split; [apply (H0 [5; 0x81; 1]); [repeat constructor; lia|reflexivity]|].
  split; [vm_compute; reflexivity|]. split; [vm_compute; reflexivity|].
  split; [|split; [|split; [|split]]].
  - apply (H1 PL.init 0 [0x81]); [reflexivity|simpl; lia|].
    apply (H0 [0x81]); [repeat constructor; lia|reflexivity].
  - apply (H1 PL.init 0 [0x81; 0x80]); [reflexivity|simpl; lia|vm_compute; discriminate].
  - apply (H2 PL.init (PL.readInit 0 PL.GRK_PL_MARKER_PLT PL.init).2 0 [5; 0x81; 1]);
      [reflexivity|simpl; lia|vm_compute; reflexivity|reflexivity].
  - apply (H3 PL.init 0 [[5]] [0x81; 0x80] []);
      [reflexivity|simpl; lia|reflexivity|vm_compute; discriminate].
  - apply (H4 PL.init (PL.readInit 0 PL.GRK_PL_MARKER_PLM PL.init).2 0 [[5]; [0x81; 1]]);
      [reflexivity|simpl; lia|vm_compute; reflexivity|reflexivity].
Defined.

Lemma pl_residual_check_counterexample :
  last [0; 0x80] = Some 0x80 /\ Z.testbit 0x80 7 = true
  /\ (PL.readPLT [0; 0x80] 2 PL.init).1 = true
  /\ last [0; 1; 0x80] = Some 0x80
  /\ fst <$> PL.readPLM [0; 1; 0x80] 3 PL.init = Some true.
Proof. repeat split; vm_compute; reflexivity. Qed.

(** C6: PLT segments read into a fresh store, the signaled index of each
    being the number of segments read before it mod 256. The store then
    holds as many markers as segments, the marker of segment [i] is kept
    under the index [i] and holds the lengths of that segment alone, also
    beyond 256 segments; and once more than 256 markers are stored, a segment
    whose signaled index is not the marker count mod 256 makes [readInit],
    hence [readPLT], fail. *)
Theorem plt_sequential_mode (segs : list (list Z)) :
  PL.sequential_from 0 segs = true ->
  forallb (forallb PL.is_byte) segs = true ->
  Z.of_nat (length segs) <= 4294967296 ->
  let s := PL.readPLT_all segs PL.init in
  PL.msize s = Z.of_nat (length segs)
  /\ (forall i seg, segs !! i = Some seg ->
        PL.markers_ s !! Z.of_nat i = Some (u32 <$> PL.varints 0 (tail seg)))
  /\ (256 < Z.of_nat (length segs) ->
      forall data hs, byte_at data 0 <> Z.of_nat (length segs) mod 256 ->
        (PL.readInit (byte_at data 0) PL.GRK_PL_MARKER_PLT s).1 = false
        /\ (PL.readPLT data hs s).1 = false).
Proof.
  intros Hseq Hb Hl s.
  pose proof (readPLT_all_sequential segs PL.init [] seq_inv_init Hseq Hb Hl)
    as (Hs & Hlk & Hn & Hq).
  simpl app in *. fold s in Hs, Hlk, Hn, Hq.
  split; [done|]. split; [done|].
  intros Hbig data hs Hidx.
  assert ((PL.readInit (byte_at data 0) PL.GRK_PL_MARKER_PLT s).1 = false) as Hi.
  { apply readInit_sequence_broken.
    - apply Hq. intros ->. simpl in Hbig. lia.
    - lia.
    - by rewrite Hs. }
  split; [done|]. by apply readPLT_readInit_false.
Qed.

Lemma plt_sequential_mode_witness :
  let s := PL.readPLT_all PL.sequential_257 PL.init in
  PL.msize s = 257
  /\ PL.markers_ s !! 256 = Some [5]
  /\ PL.markers_ s !! 0 = Some [5]
  /\ (PL.readPLT [7; 5] 2 s).1 = false.
Proof.
  destruct (plt_sequential_mode PL.sequential_257) as (H1 & H2 & H3);
    [vm_compute; reflexivity|vm_compute; reflexivity|vm_compute; discriminate|].
  split; [exact H1|]. split; [exact (H2 256%nat [0; 5] eq_refl)|].
  split; [exact (H2 0%nat [0; 5] eq_refl)|].
  apply (H3 ltac:(vm_compute; reflexivity) [7; 5] 2). vm_compute. discriminate.
Defined.

(** C10: when 255 markers are stored, [readInit] for a PLM marker fails, and
    so does [readPLM] on every segment; PLM segments read into a fresh store
    never leave more than 255 markers in it, whereas PLT segments with
    sequential indices take the store beyond 256 markers. *)
Theorem plm_at_most_255_markers :
  (forall s idx, PL.msize s = 255 ->
      (PL.readInit idx PL.GRK_PL_MARKER_PLM s).1 = false
      /\ forall data hs, exists s', PL.readPLM data hs s = Some (false, s'))
  /\ (forall segs, PL.msize (PL.readPLM_all segs PL.init) <= 255)
  /\ PL.msize (PL.readPLT_all PL.sequential_257 PL.init) = 257.
Proof.
  split; [|split].
  - intros s idx Hs. split.
    + by destruct (readInit_PLM_full idx s Hs) as (s' & -> & _).
    + intros data hs. unfold PL.readPLM. destruct (hs <? 1); [eauto|].
      destruct (readInit_PLM_full (byte_at data 0) s Hs) as (s' & -> & _). simpl. eauto.
  - intros segs. apply readPLM_all_msize. vm_compute. discriminate.
  - vm_compute. reflexivity.
Qed.

Lemma plm_at_most_255_markers_witness :
  PL.msize PL.plm_255 = 255
  /\ (PL.readInit 255 PL.GRK_PL_MARKER_PLM PL.plm_255).1 = false
  /\ exists s', PL.readPLM [255; 1; 5] 3 PL.plm_255 = Some (false, s').
Proof.
  assert (PL.msize PL.plm_255 = 255) as Hs by (vm_compute; reflexivity).
  destruct (proj1 plm_at_most_255_markers PL.plm_255 255 Hs) as [H1 H2].
  split; [exact Hs|]. split; [exact H1|]. apply H2.
Defined.


(** ** The tile length store *)

Section TLMFacts.
Import TLM.

Lemma validate_vec_app v : forall w t,
  validate_vec (v ++ w) t
  = let '(t1, ok) := validate_vec v t in
    if ok then validate_vec w t1 else (t1, false).
Proof.
  induction v as [|itv v IH]; intros w t; simpl.
  - done.
  - destruct (tileIndex itv =? t); [apply IH|].
    destruct (negb _); [done|apply IH].
Qed.

Lemma validate_markers_concat vs : forall t,
  validate_markers vs t = validate_vec (concat vs) t.
Proof.
  induction vs as [|v vs IH]; intros t; simpl; [done|].
  rewrite validate_vec_app. destruct (validate_vec v t) as [t1 []]; [apply IH|done].
Qed.

Lemma validate_vec_steps l : forall t,
  forallb is_u16 (tileIndex <$> l) = true ->
  steps_from t (tileIndex <$> l) = true ->
  validate_vec l t = (default t (last (tileIndex <$> l)), true).
Proof.
  induction l as [|itv l IH]; intros t Hr Hs; [done|].
  rewrite fmap_cons in *. cbn [forallb steps_from] in Hr, Hs. cbn [validate_vec].
  apply andb_true_iff in Hr as [Hr1 Hr2]. apply andb_true_iff in Hs as [Hs1 Hs2].
  assert (default t (last (tileIndex itv :: (tileIndex <$> l)))
          = default (tileIndex itv) (last (tileIndex <$> l))) as ->.
  { rewrite last_cons. by destruct (last (tileIndex <$> l)). }
  destruct (tileIndex itv =? t) eqn:E.
  - apply Z.eqb_eq in E. rewrite <- E. apply IH; [done|]. by rewrite E in *.
  - simpl in Hs1. rewrite Hs1. simpl. apply Z.eqb_eq in Hs1.
    unfold is_u16 in Hr1. unfold u16. rewrite <- Hs1, Z.mod_small by lia. by apply IH.
Qed.

Lemma validate_vec_valid l : forall t,
  forallb is_u16 (tileIndex <$> l) = true ->
  (validate_vec l t).2 = true ->
  steps_from t (tileIndex <$> l) = true.
Proof.
  induction l as [|itv l IH]; intros t Hr Hv; [done|].
  rewrite fmap_cons in *. cbn [forallb] in Hr. cbn [validate_vec] in Hv. cbn [steps_from].
  apply andb_true_iff in Hr as [Hr1 Hr2].
  destruct (tileIndex itv =? t) eqn:E.
  - simpl. apply Z.eqb_eq in E. rewrite E. by apply IH.
  - destruct (tileIndex itv =? t + 1) eqn:E1; simpl in *; [|done].
    apply Z.eqb_eq in E1. unfold is_u16 in Hr1.
    unfold u16 in Hv. rewrite <- E1, Z.mod_small in Hv by lia. by apply IH.
Qed.

Lemma steps_from_walk l : forall t,
  steps_from t l = true ->
  t <= default t (last l)
  /\ (forall j, j ∈ l -> t <= j <= default t (last l))
  /\ (forall j, t < j <= default t (last l) -> j ∈ l).
Proof.
  induction l as [|i l IH]; intros t Hs.
  - simpl. split; [lia|]. split; intros j Hj; [by apply elem_of_nil in Hj|lia].
  - cbn [steps_from] in Hs. apply andb_true_iff in Hs as [Hs1 Hs2].
    destruct (IH i Hs2) as (H1 & H2 & H3).
    assert (default t (last (i :: l)) = default i (last l)) as ->.
    { rewrite last_cons. by destruct (last l). }
    assert (i = t \/ i = t + 1) as Hi.
    { apply orb_true_iff in Hs1 as [E|E]; apply Z.eqb_eq in E; lia. }
    split; [lia|]. split.
    + intros j [->|Hj]%elem_of_cons; [lia|]. apply H2 in Hj. lia.
    + intros j Hj. apply elem_of_cons.
      destruct (decide (j = i)) as [->|Hne]; [by left|right].
      apply H3. lia.
Qed.

Lemma validate_indices n s :
  validate n s = (let r := validate_vec (concat (ordered_vectors (markers_ s))) 0 in
                  (r.2 && (r.1 =? n - 1),
                   mkTLM (markers_ s) (markerIndex_ s) (markerTilePartIndex_ s)
                         (curr_vec_ s) (r.2 && (r.1 =? n - 1)) (hasTileIndices_ s)
                         (tileCount_ s))).
Proof.
  unfold validate. rewrite validate_markers_concat.
  by destruct (validate_vec _ 0) as [t ok].
Qed.

End TLMFacts.

(** C1, as amended: [validate] walks the tile indices in the order of the
    store (ascending marker index, then the order of the entries), all of
    them 16 bit values. If they start with 0, never decrease, grow by at
    most one from an entry to the next and end with [n - 1], then
    [validate n] returns true, and the indices form exactly the set
    {0, ..., n-1}. If [validate n] returns true, then every index is the one
    before it or the one before it plus one, every index lies in [0, n) and
    every index of [1, n) is present. The order counts: indices that form
    the set out of order are refused. *)
Theorem tlm_validate_monotone_cover (s : TLM.TileLengthMarkers) (n : Z) :
  forallb is_u16 (TLM.indices s) = true ->
  (head (TLM.indices s) = Some 0 ->
   TLM.steps_from 0 (TLM.indices s) = true ->
   last (TLM.indices s) = Some (n - 1) ->
   (TLM.validate n s).1 = true
   /\ forall j, j ∈ TLM.indices s <-> 0 <= j < n)
  /\ ((TLM.validate n s).1 = true ->
      TLM.steps_from 0 (TLM.indices s) = true
      /\ (forall j, j ∈ TLM.indices s -> 0 <= j < n)
      /\ (forall j, 1 <= j < n -> j ∈ TLM.indices s)).
Proof.
  intros Hr. unfold TLM.indices in *. rewrite validate_indices. cbv zeta. cbn [fst].
  set (l := concat _) in *. split.
  - intros Hh Hs Hl.
    rewrite (validate_vec_steps l 0 Hr Hs), Hl. simpl. split; [by rewrite Z.eqb_refl|].
    destruct (steps_from_walk _ 0 Hs) as (H1 & H2 & H3). rewrite Hl in *. simpl in *.
    intros j. split; [intros Hj%H2; lia|]. intros Hj.
    destruct (decide (j = 0)) as [->|Hne]; [|apply H3; lia].
    destruct (TLM.tileIndex <$> l); [done|]. injection Hh as ->. apply elem_of_cons. by left.
  - intros Hv. apply andb_true_iff in Hv as [Hv1 Hv2]. apply Z.eqb_eq in Hv2.
    pose proof (validate_vec_valid l 0 Hr Hv1) as Hs.
    rewrite (validate_vec_steps l 0 Hr Hs) in Hv2. simpl in Hv2.
    destruct (steps_from_walk _ 0 Hs) as (H1 & H2 & H3). rewrite Hv2 in *.
    split; [done|]. split.
    + intros j Hj%H2. lia.
    + intros j Hj. apply H3. lia.
Qed.

Lemma tlm_validate_monotone_cover_witness :
  let s := TLM.of_indices [(0, [0; 0; 1]); (1, [1; 2])] in
  ((TLM.validate 3 s).1 = true /\ forall j, j ∈ TLM.indices s <-> 0 <= j < 3)
  /\ (TLM.steps_from 0 (TLM.indices s) = true
      /\ (forall j, j ∈ TLM.indices s -> 0 <= j < 3)
      /\ (forall j, 1 <= j < 3 -> j ∈ TLM.indices s)).
Proof.
  intros s.
  destruct (tlm_validate_monotone_cover s 3) as [H1 H2]; [reflexivity|].
  split.
  - apply H1; reflexivity.
  - apply H2. reflexivity.
Defined.

Lemma tlm_validate_counterexample :
  let s := TLM.of_indices [(0, [1; 0])] in
  (forall j, j ∈ TLM.indices s <-> 0 <= j < 2) /\ (TLM.validate 2 s).1 = false.
Proof.
  split; [|reflexivity].
  intros j. change (TLM.indices _) with [1; 0].
  rewrite !elem_of_cons, elem_of_nil. lia.
Qed.

(** The walk of [validate] starts from tile index 0 and accepts a first
    entry for tile 1: a store without an entry for tile 0, and the empty
    store for one tile, are taken as valid. *)
Example tlm_validate_without_tile_0 :
  (TLM.validate 2 (TLM.of_indices [(0, [1])])).1 = true
  /\ (TLM.validate 1 TLM.init).1 = true.
Proof. split; reflexivity. Qed.

(** C7, on an L byte with both tile index bits set: the L byte 0x30 encodes
    L_iT = 3, outside the range 0..2 that the comment of [read] gives; the
    test [(L & ~0x70) != 0] lets it through, and [read] returns true, reads
    a tile index of three bytes and stores the entry. *)
Theorem tlm_read_accepts_L_iT_3 :
  let r := TLM.read [0; 0x30; 0; 0; 1; 0; 10] 7 TLM.init in
  Z.land (Z.shiftr 0x30 4) 0x3 = 3
  /\ r.1 = true
  /\ TLM.markers_ r.2 = {[ 0 := [TLM.mkInfo 1 10] ]}.
Proof. repeat split; vm_compute; reflexivity. Qed.


(** ** The CBD marker *)

Section CBD.
Import CodeStream.

Lemma grk_read_1 data pos : grk_read data pos 1 0 = byte_at data pos.
Proof. done. Qed.

Lemma read_cbd_comps_length n : forall i data pos cs,
  length (read_cbd_comps n i data pos cs) = length cs.
Proof.
  induction n as [|n IH]; intros; simpl; [done|]. by rewrite IH, length_insert.
Qed.

Lemma read_cbd_comps_lookup n : forall i data pos cs k,
  (k < length cs)%nat ->
  read_cbd_comps n i data pos cs !! k
  = if bool_decide (i <= k < i + n)%nat
    then Some (mkComp (Z.land (Z.shiftr (byte_at data (pos + (k - i))) 7) 1)
                      (u8 (Z.land (byte_at data (pos + (k - i))) 0x7f + 1)))
    else cs !! k.
Proof.
  induction n as [|n IH]; intros i data pos cs k Hk; cbn [read_cbd_comps].
  - rewrite bool_decide_eq_false_2 by lia. done.
  - rewrite IH by (by rewrite length_insert).
    destruct (decide (k = i)) as [->|Hne].
    + rewrite bool_decide_eq_false_2 by lia. rewrite bool_decide_eq_true_2 by lia.
      rewrite list_lookup_insert_eq by done. rewrite grk_read_1.
      by replace (pos + (i - i))%nat with pos by lia.
    + rewrite list_lookup_insert_ne by done.
      destruct (decide (S i <= k < S i + n)%nat).
      * rewrite !bool_decide_eq_true_2 by lia.
        by replace (S pos + (k - S i))%nat with (pos + (k - i))%nat by lia.
      * rewrite !bool_decide_eq_false_2 by lia. done.
Qed.

Lemma land_0x7f_range x : 0 <= x -> 0 <= Z.land x 0x7f < 128.
Proof.
  intros Hx. rewrite land_0x7f by done. apply Z.mod_pos_bound. lia.
Qed.

End CBD.

(** C8, as amended: for every CBD marker segment that [read_cbd] accepts,
    on an image that holds [numcomps] components, the precision of
    component [i] is [(comp_def & 0x7f) + 1] for its byte [comp_def] of the
    segment, a value between 1 and 128, and its sign flag is the high bit
    of that byte: [read_cbd] does not bound the precision by 38. *)
Theorem read_cbd_precision (headerData : list Z) (header_size : Z)
  (image image' : CodeStream.GrkImage) :
  CodeStream.numcomps image = Z.of_nat (length (CodeStream.comps image)) ->
  CodeStream.read_cbd headerData header_size image = (true, image') ->
  forall i comp, CodeStream.comps image' !! i = Some comp ->
    CodeStream.prec comp = Z.land (byte_at headerData (2 + i)) 0x7f + 1
    /\ 1 <= CodeStream.prec comp <= 128
    /\ CodeStream.sgnd comp = Z.land (Z.shiftr (byte_at headerData (2 + i)) 7) 1.
Proof.
  intros Hn Hr i comp Hi. unfold CodeStream.read_cbd in Hr. rewrite Hn, Nat2Z.id in Hr.
  destruct (_ || _); [done|]. destruct (negb _); [done|].
  injection Hr as <-. simpl in Hi.
  assert (i < length (CodeStream.comps image))%nat as Hlt.
  { apply lookup_lt_Some in Hi. by rewrite read_cbd_comps_length in Hi. }
  rewrite read_cbd_comps_lookup in Hi by done.
  assert (0 <= i < 0 + length (CodeStream.comps image))%nat as Hx by lia.
  rewrite (bool_decide_eq_true_2 _ Hx) in Hi.
  injection Hi as <-. cbn [CodeStream.prec CodeStream.sgnd].
  replace (i - 0)%nat with i by lia.
  pose proof (byte_at_range headerData (2 + i)).
  pose proof (land_0x7f_range (byte_at headerData (2 + i)) ltac:(lia)).
  change (S (S i)) with (2 + i)%nat.
  unfold u8. rewrite Z.mod_small by lia. repeat split; lia.
Qed.

Lemma read_cbd_precision_witness :
  CodeStream.read_cbd [0; 2; 0x87; 0x0b] 4
    (CodeStream.mkImage 2 [CodeStream.mkComp 0 1; CodeStream.mkComp 0 1])
  = (true, CodeStream.mkImage 2 [CodeStream.mkComp 1 8; CodeStream.mkComp 0 12])
  /\ (CodeStream.prec (CodeStream.mkComp 0 12)
      = Z.land (byte_at [0; 2; 0x87; 0x0b] (2 + 1)) 0x7f + 1
      /\ 1 <= CodeStream.prec (CodeStream.mkComp 0 12) <= 128
      /\ CodeStream.sgnd (CodeStream.mkComp 0 12)
         = Z.land (Z.shiftr (byte_at [0; 2; 0x87; 0x0b] (2 + 1)) 7) 1).
Proof.
  split; [reflexivity|].
  apply (read_cbd_precision [0; 2; 0x87; 0x0b] 4
           (CodeStream.mkImage 2 [CodeStream.mkComp 0 1; CodeStream.mkComp 0 1])
           (CodeStream.mkImage 2 [CodeStream.mkComp 1 8; CodeStream.mkComp 0 12]));
    reflexivity.
Defined.

Lemma read_cbd_precision_counterexample :
  CodeStream.read_cbd [0; 1; 0x7f] 3 (CodeStream.mkImage 1 [CodeStream.mkComp 0 8])
  = (true, CodeStream.mkImage 1 [CodeStream.mkComp 0 128])
  /\ 38 < 128.
Proof. split; [reflexivity|lia]. Qed.


(** ** The scoping rules of QCD and QCC *)

Section QCD.
Import CodeStream.

(** The quantization style codes and the size of the step size array. *)
Variables NOQNT SIQNT SEQNT MAXBANDS : Z.

Lemma read_steps_noqnt_ignored n : forall band_no data pos steps,
  read_steps_noqnt MAXBANDS n band_no true data pos steps = steps.
Proof. induction n as [|n IH]; intros; simpl; [done|apply IH]. Qed.

Lemma read_steps_qnt_ignored n : forall band_no data pos steps,
  read_steps_qnt MAXBANDS n band_no true data pos steps = steps.
Proof. induction n as [|n IH]; intros; simpl; [done|apply IH]. Qed.

Lemma set_stepsizes_id tccp : set_stepsizes (stepsizes tccp) tccp = tccp.
Proof. by destruct tccp. Qed.

Lemma set_tccp_id i tccp tcp : tccps tcp !! i = Some tccp -> set_tccp i tccp tcp = tcp.
Proof.
  intros H. destruct tcp as [l a b c]. unfold set_tccp. simpl in *.
  by rewrite list_insert_id.
Qed.

Lemma set_tccp_lookup i t t' tcp :
  tccps tcp !! i = Some t -> tccps (set_tccp i t' tcp) !! i = Some t'.
Proof.
  intros H. unfold set_tccp. simpl. apply list_lookup_insert_eq.
  by eapply lookup_lt_Some.
Qed.

(** A component bound by a marker ignores a marker of the same origin. *)
Lemma scoping_ignore_bound fq fth a b c d e f :
  scoping_ignore fq fth (mkTccp a b c d e f true fq fth) = true.
Proof. by destruct fq, fth. Qed.

(** What [read_SQcd_SQcc] does on a component that the scoping rules make
    it ignore: the coding parameters stay as they are. *)
Lemma read_SQcd_SQcc_ignored fq comp_no fth data hs tcp t :
  tccps tcp !! comp_no = Some t ->
  scoping_ignore fq fth t = true ->
  (hs <? 1) = false ->
  (SEQNT <? Z.land (grk_read data 0 1 0) 0x1f) = false ->
  read_SQcd_SQcc NOQNT SIQNT SEQNT MAXBANDS fq comp_no fth data hs tcp
  = let q := Z.land (grk_read data 0 1 0) 0x1f in
    let hs1 := u16 (hs - 1) in
    if q =? NOQNT then
      if hs1 <? numStepSizes t then (false, hs1, tcp)
      else (true, u16 (hs1 - numStepSizes t), tcp)
    else
      if hs1 <? 2 * numStepSizes t then (false, hs1, tcp)
      else (true, u16 (hs1 - 2 * numStepSizes t), tcp).
Proof.
  intros Ht Hi H1 H2. unfold read_SQcd_SQcc. rewrite Ht, H1, H2, Hi.
  simpl negb. cbv iota zeta. simpl andb. cbv iota.
  rewrite read_steps_noqnt_ignored, read_steps_qnt_ignored, set_stepsizes_id.
  rewrite (set_tccp_id _ _ _ Ht). done.
Qed.

Lemma read_SQcd_SQcc_stable fq comp_no fth data hs tcp ok hs' tcp1 :
  read_SQcd_SQcc NOQNT SIQNT SEQNT MAXBANDS fq comp_no fth data hs tcp = (ok, hs', tcp1) ->
  forall tcp2, tccps tcp2 !! comp_no = tccps tcp1 !! comp_no ->
  read_SQcd_SQcc NOQNT SIQNT SEQNT MAXBANDS fq comp_no fth data hs tcp2 = (ok, hs', tcp2).
Proof.
  intros H tcp2 H2.
  destruct (tccps tcp !! comp_no) as [t|] eqn:Et.
  2: { unfold read_SQcd_SQcc in H |- *. rewrite Et in H. injection H as <- <- <-.
       by rewrite H2, Et. }
  destruct (hs <? 1) eqn:E1.
  { unfold read_SQcd_SQcc in H |- *. rewrite Et, E1 in H. injection H as <- <- <-.
    by rewrite H2, Et, E1. }
  destruct (SEQNT <? Z.land (grk_read data 0 1 0) 0x1f) eqn:E2.
  { unfold read_SQcd_SQcc in H |- *. rewrite Et, E1, E2 in H. injection H as <- <- <-.
    by rewrite H2, Et, E1, E2. }
  destruct (scoping_ignore fq fth t) eqn:Ei.
  - rewrite (read_SQcd_SQcc_ignored _ _ _ _ _ _ t) in H by done.
    assert (tcp1 = tcp) as ->.
    { cbv zeta in H. repeat case_match; by injection H. }
    rewrite Et in H2.
    rewrite (read_SQcd_SQcc_ignored _ _ _ _ _ _ t) by done.
    cbv zeta in H |- *. repeat case_match; injection H as <- <-; done.
  - unfold read_SQcd_SQcc in H. rewrite Et, E1, E2, Ei in H.
    simpl negb in H. cbv iota zeta in H.
    set (q := Z.land (grk_read data 0 1 0) 0x1f) in *.
    set (hs1 := u16 (hs - 1)) in *.
    set (n := if q =? SIQNT then 1 else if q =? NOQNT then u8 hs1 else u8 (hs1 / 2)) in *.
    set (t' := mkTccp (numresolutions t) (qmfbid t) q (u8 (Z.shiftr (grk_read data 0 1 0) 5))
                      n (stepsizes t) true fq fth) in *.
    assert (exists steps, tccps tcp1 !! comp_no = Some (set_stepsizes steps t')
              /\ (ok, hs') = (if q =? NOQNT then
                                if hs1 <? n then (false, hs1) else (true, u16 (hs1 - n))
                              else
                                if hs1 <? 2 * n then (false, hs1)
                                else (true, u16 (hs1 - 2 * n))))
      as (steps & Hl & Hr).
    { cbn [numStepSizes t'] in H.
      change (numStepSizes t') with n in H.
      repeat case_match; injection H as <- <- <-;
        (eexists; split; [|reflexivity]);
        (erewrite set_tccp_lookup; [|destruct (true && _); simpl; exact Et]);
        try reflexivity; by rewrite set_stepsizes_id. }
    rewrite Hl in H2.
    rewrite (read_SQcd_SQcc_ignored _ _ _ _ _ _ (set_stepsizes steps t'));
      [|done|apply scoping_ignore_bound|done|done].
    fold q hs1. change (numStepSizes (set_stepsizes steps t')) with n.
    cbv zeta. repeat case_match; by injection Hr as -> ->.
Qed.

Lemma qcd_copy_idem src dest : qcd_copy src (qcd_copy src dest) = qcd_copy src dest.
Proof.
  unfold qcd_copy. destruct (fromQCC dest) eqn:E1;
    destruct (negb (fromTileHeader src) || fromTileHeader dest) eqn:E2; simpl;
    rewrite ?E1, ?E2; simpl; done.
Qed.

Lemma qcd_apply_lookup n : forall i l k, (1 <= i)%nat ->
  qcd_apply n i l !! k
  = if bool_decide (i <= k < i + n)%nat
    then match l !! 0%nat, l !! k with
         | Some src, Some dest => Some (qcd_copy src dest)
         | _, _ => l !! k
         end
    else l !! k.
Proof.
  induction n as [|n IH]; intros i l k Hi; cbn [qcd_apply].
  - by rewrite bool_decide_eq_false_2 by lia.
  - rewrite IH by lia.
    assert (forall j, j <> i ->
              match l !! 0%nat, l !! i with
              | Some src, Some dest => <[i := qcd_copy src dest]> l
              | _, _ => l
              end !! j = l !! j) as Hother.
    { intros j Hj. repeat case_match; try done. by rewrite list_lookup_insert_ne. }
    rewrite (Hother 0%nat) by lia.
    destruct (decide (k = i)) as [->|Hne].
    + rewrite bool_decide_eq_false_2 by lia. rewrite bool_decide_eq_true_2 by lia.
      destruct (l !! 0%nat) as [src|] eqn:E0; [|done].
      destruct (l !! i) as [dest|] eqn:Ei; [|done].
      apply list_lookup_insert_eq. by eapply lookup_lt_Some.
    + rewrite (Hother k) by done.
      destruct (decide (S i <= k < S i + n)%nat).
      * by rewrite !bool_decide_eq_true_2 by lia.
      * by rewrite !bool_decide_eq_false_2 by lia.
Qed.

Lemma qcd_apply_idem n i l : (1 <= i)%nat ->
  qcd_apply n i (qcd_apply n i l) = qcd_apply n i l.
Proof.
  intros Hi. apply list_eq. intros k.
  rewrite (qcd_apply_lookup n i (qcd_apply n i l)) by done.
  rewrite !(qcd_apply_lookup n i l) by done.
  rewrite (bool_decide_eq_false_2 (i <= 0 < i + n)%nat) by lia.
  destruct (bool_decide (i <= k < i + n)%nat); [|done].
  destruct (l !! 0%nat) as [src|]; [|done].
  destruct (l !! k) as [dest|]; [|done].
  by rewrite qcd_copy_idem.
Qed.

Lemma qcd_apply_head n i l : (1 <= i)%nat -> qcd_apply n i l !! 0%nat = l !! 0%nat.
Proof.
  intros Hi. rewrite qcd_apply_lookup by done. by rewrite bool_decide_eq_false_2 by lia.
Qed.

Lemma read_qcd_twice fth numcomps data hs tcp :
  read_qcd NOQNT SIQNT SEQNT MAXBANDS fth numcomps data hs
           (read_qcd NOQNT SIQNT SEQNT MAXBANDS fth numcomps data hs tcp).2
  = read_qcd NOQNT SIQNT SEQNT MAXBANDS fth numcomps data hs tcp.
Proof.
  unfold read_qcd at 2 3.
  destruct (read_SQcd_SQcc _ _ _ _ _ _ _ _ _ tcp) as [[ok hs'] tcp1] eqn:E.
  pose proof (read_SQcd_SQcc_stable _ _ _ _ _ _ _ _ _ E) as Hst.
  destruct ok; simpl negb; cbv iota.
  - destruct (negb (hs' =? 0)) eqn:E0.
    + simpl. unfold read_qcd. rewrite (Hst tcp1 eq_refl). simpl. by rewrite E0.
    + simpl. unfold read_qcd. rewrite Hst.
      * simpl. rewrite E0. simpl. by rewrite qcd_apply_idem by lia.
      * simpl. by apply qcd_apply_head.
  - simpl. unfold read_qcd. by rewrite (Hst tcp1 eq_refl).
Qed.

(** C4: a QCD marker segment of the main header read twice in a row, on
    any coding parameters, leaves exactly what reading it once leaves, with
    the same result: quantization style, numgbits, number of step sizes and
    step sizes of every component, and the main QCD summary. *)
Theorem qcd_twice_is_qcd_once (numcomps : Z) (headerData : list Z) (header_size : Z)
  (tcp : TileCodingParams) :
  let once := read_qcd NOQNT SIQNT SEQNT MAXBANDS false numcomps headerData
                       header_size tcp in
  read_qcd NOQNT SIQNT SEQNT MAXBANDS false numcomps headerData header_size once.2
  = once.
Proof. intros once. apply read_qcd_twice. Qed.

End QCD.


(** ** Validation of a tile header *)

Section TileHeaderFacts.
Import CodeStream.

(** The quantization style codes, the decompressor states and the EOC
    marker; then the coding parameters in use, the loop over the markers of
    the tile part headers, and the results of [merge_ppt] and of the
    initialisation of the tile processor. *)
Variables NOQNT SIQNT : Z.
Variables EOC TPH_SOT DATA MS_EOC : Z.
Variable get_tcp : CodeStreamDecompress -> TileCodingParams.
Variable loop : CodeStreamDecompress -> bool * CodeStreamDecompress.
Variable merge_ppt init : CodeStreamDecompress -> bool.

Lemma lossy_has_quantization_true n : forall k l,
  lossy_has_quantization NOQNT n k l = true ->
  forall j tccp, (k <= j < k + n)%nat -> l !! j = Some tccp ->
    qmfbid tccp = 0 -> qntsty tccp <> NOQNT.
Proof.
  induction n as [|n IH]; intros k l H j tccp Hj Hl Hq; [lia|].
  cbn [lossy_has_quantization] in H.
  destruct (decide (j = k)) as [->|Hne].
  - rewrite Hl in H. rewrite Hq in H. simpl in H.
    destruct (qntsty tccp =? NOQNT) eqn:E; [done|]. by apply Z.eqb_neq.
  - refine (IH (S k) l _ j tccp _ Hl Hq); [|lia].
    destruct (l !! k); [|done]. by destruct (_ && _).
Qed.

Lemma foldr_max_nonneg (l : list Z) : 0 <= foldr Z.max 0 l.
Proof. induction l as [|x l IH]; simpl; lia. Qed.


Abbreviation parse := (parseTileHeaderMarkers NOQNT SIQNT EOC TPH_SOT DATA MS_EOC
                                          get_tcp loop merge_ppt init).

Lemma parse_reaches_validation cs :
  (parse cs).1.1 = true -> state cs <> EOC ->
  (loop cs).1 = true
  /\ is_Some (m_currentTileProcessor (loop cs).2)
  /\ lossy_has_quantization NOQNT (Z.to_nat (numcomps (m_headerImage (loop cs).2))) 0
       (tccps (get_tcp (loop cs).2)) = true
  /\ qcd_step_sizes_ok SIQNT (Z.to_nat (numcomps (m_headerImage (loop cs).2)))
       (get_tcp (loop cs).2) = true.
Proof.
  intros H Hs. unfold parseTileHeaderMarkers in H.
  apply Z.eqb_neq in Hs. rewrite Hs in H.
  destruct (negb (state cs =? TPH_SOT)); [done|].
  destruct (loop cs) as [ok cs1]. destruct ok; [|done]. simpl in *.
  destruct (m_currentTileProcessor cs1); [|done].
  destruct (lossy_has_quantization _ _ _ _); [|done].
  destruct (qcd_step_sizes_ok _ _ _); [|done].
  eauto.
Qed.

Lemma parse_decodable_not_eoc cs :
  (parse cs).1.2 = Some true -> state cs <> EOC.
Proof.
  intros H Hs. unfold parseTileHeaderMarkers in H.
  apply Z.eqb_eq in Hs. by rewrite Hs in H.
Qed.

(** C2: [parseTileHeaderMarkers], entered in another state than EOC, fails
    whenever, once the markers of the tile part headers are read, one of the
    [numcomps] components of the coding parameters given by
    [get_current_decode_tcp()] has qmfbid = 0 together with qntsty = NOQNT;
    and whenever it succeeds and sets [*canDecompress] to true, every
    component with qmfbid = 0 has a qntsty other than NOQNT. *)
Theorem lossy_wavelet_has_quantization (cs : CodeStreamDecompress) :
  let cs1 := (loop cs).2 in
  let tcp := get_tcp cs1 in
  let numComps := Z.to_nat (numcomps (m_headerImage cs1)) in
  (state cs <> EOC ->
   (exists k tccp, (k < numComps)%nat /\ tccps tcp !! k = Some tccp
                   /\ qmfbid tccp = 0 /\ qntsty tccp = NOQNT) ->
   (parse cs).1.1 = false)
  /\ ((parse cs).1.1 = true -> (parse cs).1.2 = Some true ->
      forall k tccp, (k < numComps)%nat -> tccps tcp !! k = Some tccp ->
        qmfbid tccp = 0 -> qntsty tccp <> NOQNT).
Proof.
  intros cs1 tcp numComps. subst cs1 tcp numComps. split.
  - intros Hs (k & tccp & Hk & Hl & Hq & Hn).
    destruct ((parse cs).1.1) eqn:E; [|done].
    destruct (parse_reaches_validation cs E Hs) as (_ & _ & Hv & _).
    assert (0 <= k < 0 + Z.to_nat (numcomps (m_headerImage (loop cs).2)))%nat as Hk'
      by lia.
    by pose proof (lossy_has_quantization_true _ _ _ Hv k tccp Hk' Hl Hq).
  - intros Hr Hc k tccp Hk Hl Hq.
    destruct (parse_reaches_validation cs Hr (parse_decodable_not_eoc cs Hc))
      as (_ & _ & Hv & _).
    assert (0 <= k < 0 + Z.to_nat (numcomps (m_headerImage (loop cs).2)))%nat as Hk'
      by lia.
    by apply (lossy_has_quantization_true _ _ _ Hv k tccp).
Qed.



End TileHeaderFacts.

Lemma lossy_wavelet_has_quantization_witness :
  (CodeStream.parseTileHeaderMarkers 0 1 0x100 0x8 0x80 0xffd9 CodeStream.m_default_tcp
     (fun cs => (true, cs)) (fun _ => true) (fun _ => true)
     (CodeStream.sample_cs 1 0 0 1)).1.1 = false
  /\ (forall k tccp, (k < 1)%nat ->
        CodeStream.tccps (CodeStream.m_default_tcp (CodeStream.sample_cs 1 0 2 1)) !! k
        = Some tccp ->
        CodeStream.qmfbid tccp = 0 -> CodeStream.qntsty tccp <> 0).
Proof.
  split.
  - apply (proj1 (lossy_wavelet_has_quantization 0 1 0x100 0x8 0x80 0xffd9
                    CodeStream.m_default_tcp (fun cs => (true, cs)) (fun _ => true)
                    (fun _ => true) (CodeStream.sample_cs 1 0 0 1))).
    + vm_compute. discriminate.
    + exists 0%nat. eexists. split; [simpl; lia|]. split; [reflexivity|].
      split; reflexivity.
  - apply (proj2 (lossy_wavelet_has_quantization 0 1 0x100 0x8 0x80 0xffd9
                    CodeStream.m_default_tcp (fun cs => (true, cs)) (fun _ => true)
                    (fun _ => true) (CodeStream.sample_cs 1 0 2 1))); reflexivity.
Defined.


(** ** The inverse wavelet transform *)

(** C9: on a tile component with one resolution, [run] returns true and
    leaves the tile component, its sample buffer included, as it is,
    whatever the filter, the number of resolutions asked for and the
    allocator. *)
Theorem inverse_dwt_one_resolution `{dwt : Wavelet.DWT}
  (max_resolution : list Wavelet.grk_tcd_resolution -> Z -> Z)
  (grok_aligned_malloc : Z -> bool)
  (tilec : Wavelet.grk_tcd_tilecomp) (numres : Z) :
  Wavelet.numresolutions tilec = 1 ->
  Wavelet.run max_resolution grok_aligned_malloc tilec numres = (true, tilec)
  /\ Wavelet.buf (Wavelet.run max_resolution grok_aligned_malloc tilec numres).2
     = Wavelet.buf tilec.
Proof.
  intros H. unfold Wavelet.run. rewrite H. done.
Qed.

Lemma inverse_dwt_one_resolution_witness :
  let tilec := Wavelet.mkTilec 0 2 1 [Wavelet.mkRes 0 0 2 2] [1; 2; 3; 4] in
  @Wavelet.run Wavelet.copy_dwt (fun _ _ => 2) (fun _ => true) tilec 1 = (true, tilec)
  /\ Wavelet.buf (@Wavelet.run Wavelet.copy_dwt (fun _ _ => 2) (fun _ => true) tilec 1).2
     = [1; 2; 3; 4].
Proof.
  intros tilec.
  apply (@inverse_dwt_one_resolution Wavelet.copy_dwt (fun _ _ => 2) (fun _ => true)
           tilec 1).
  reflexivity.
Defined.

(** * Further properties of the packet length markers *)

Section PLWrite.
Import PL PLCodec.

Lemma insert_middle {A} (l1 l2 : list A) x y n :
  n = length l1 -> <[n := y]> (l1 ++ x :: l2) = l1 ++ y :: l2.
Proof. intros ->. induction l1 as [|a l1 IH]; simpl; [done|]. by rewrite IH. Qed.

Lemma comma_byte v : 0 <= v ->
  u8 (Z.lor (Z.land v 0x7F) 0x80) = v mod 128 + 128.
Proof.
  intros Hv. rewrite land_0x7f by done.
  assert (0 <= v mod 128 < 128) by (apply Z.mod_pos_bound; lia).
  rewrite Z.lor_comm, lor_low7 by (done || lia).
  unfold u8. rewrite Z.mod_small; lia.
Qed.

Lemma shiftr7_u32 v : 0 <= v < 4294967296 -> u32 (Z.shiftr v 7) = v / 128.
Proof.
  intros Hv. rewrite Z.shiftr_div_pow2 by lia. change (2 ^ 7) with 128.
  unfold u32. apply Z.mod_small.
  split; [apply Z.div_pos; lia|].
  apply Z.div_lt_upper_bound; lia.
Qed.

Lemma write_commas_spec fuel : forall v pre mid post counter,
  0 <= v < 128 ^ Z.of_nat fuel -> v < 4294967296 ->
  length mid = length (commas fuel v) ->
  counter = Z.of_nat (length pre + length mid) - 1 ->
  write_commas fuel v counter (pre ++ mid ++ post)
  = Some (Z.of_nat (length pre) - 1, pre ++ commas fuel v ++ post).
Proof.
  induction fuel as [|fuel IH]; intros v pre mid post counter Hv Hu Hm Hc.
  - assert (v = 0) as -> by (simpl in Hv; lia). simpl in *.
    destruct mid; [|done]. simpl in Hc. subst. do 2 f_equal. lia.
  - cbn [write_commas commas] in *.
    destruct (v =? 0) eqn:E.
    + destruct mid; [|done]. simpl in Hc. subst. do 2 f_equal. lia.
    + apply Z.eqb_neq in E.
      rewrite length_app in Hm. simpl in Hm.
      destruct (decide (mid = [])) as [->|Hne]; [simpl in Hm; lia|].
      destruct (exists_last Hne) as (mid' & x & ->).
      rewrite length_app in Hm, Hc. simpl in Hm, Hc.
      rewrite comma_byte, shiftr7_u32 by lia.
      assert (0 <= v / 128 < 128 ^ Z.of_nat fuel) as Hv'.
      { split; [apply Z.div_pos; lia|]. apply Z.div_lt_upper_bound; [lia|].
        replace (Z.of_nat (S fuel)) with (1 + Z.of_nat fuel) in Hv by lia.
        rewrite Z.pow_add_r in Hv by lia. lia. }
      assert (v / 128 <= v) by (apply Z.div_le_upper_bound; lia).
      unfold store_temp.
      destruct (0 <=? counter) eqn:E0; [|apply Z.leb_gt in E0; lia].
      replace (<[Z.to_nat counter:=v mod 128 + 128]> (pre ++ (mid' ++ [x]) ++ post))
        with (pre ++ mid' ++ (v mod 128 + 128) :: post).
      * rewrite (IH (v / 128) pre mid' ((v mod 128 + 128) :: post)); [|done|lia|lia|lia].
        by rewrite <- !app_assoc.
      * rewrite <- (app_assoc mid' [x] post).
        rewrite (app_assoc pre mid' ([x] ++ post)), (app_assoc pre mid' (_ :: post)).
        simpl. rewrite insert_middle; [done|rewrite length_app; lia].
Qed.

Lemma commas_bound fuel v : 0 <= v < 128 ^ Z.of_nat (S fuel) ->
  0 <= v / 128 < 128 ^ Z.of_nat fuel.
Proof.
  intros Hv. split; [apply Z.div_pos; lia|]. apply Z.div_lt_upper_bound; [lia|].
  replace (Z.of_nat (S fuel)) with (1 + Z.of_nat fuel) in Hv by lia.
  rewrite Z.pow_add_r in Hv by lia. lia.
Qed.

Lemma length_commas fuel : forall v, 0 < v < 128 ^ Z.of_nat fuel ->
  Z.of_nat (length (commas fuel v)) = (Z.log2 v + 7) / 7.
Proof.
  induction fuel as [|fuel IH]; intros v Hv; [simpl in Hv; lia|].
  cbn [commas]. destruct (v =? 0) eqn:E; [apply Z.eqb_eq in E; lia|].
  rewrite length_app. simpl length.
  pose proof (commas_bound fuel v ltac:(lia)) as Hb.
  destruct (decide (v / 128 = 0)) as [Hz|Hz].
  - rewrite Hz. destruct fuel; simpl commas; simpl length.
    + assert (v < 128) by (apply Z.div_small_iff in Hz; lia).
      assert (Z.log2 v < 7) by (apply Z.log2_lt_pow2; lia).
      pose proof (Z.log2_nonneg v).
      simpl Z.of_nat. Z.div_mod_to_equations. lia.
    + assert (v < 128) by (apply Z.div_small_iff in Hz; lia).
      assert (Z.log2 v < 7) by (apply Z.log2_lt_pow2; lia).
      pose proof (Z.log2_nonneg v).
      simpl Z.of_nat. Z.div_mod_to_equations. lia.
  - rewrite Nat2Z.inj_add, IH by lia.
    assert (128 <= v).
    { destruct (decide (v < 128)); [|lia]. rewrite Z.div_small in Hz; lia. }
    assert (7 <= Z.log2 v) by (apply Z.log2_le_pow2; lia).
    replace (v / 128) with (Z.shiftr v 7) by (rewrite Z.shiftr_div_pow2; [done|lia]).
    rewrite Z.log2_shiftr by lia.
    replace (Z.max 0 (Z.log2 v - 7)) with (Z.log2 v - 7) by lia.
    replace (Z.log2 v + 7) with ((Z.log2 v - 7 + 7) + 1 * 7) by lia.
    rewrite Z.div_add by lia. simpl. lia.
Qed.

Lemma varints_commas fuel : forall v rest, 0 <= v < 128 ^ Z.of_nat fuel ->
  varints 0 (commas fuel v ++ rest) = varints v rest.
Proof.
  induction fuel as [|fuel IH]; intros v rest Hv.
  - assert (v = 0) as -> by (simpl in Hv; lia). done.
  - cbn [commas]. destruct (v =? 0) eqn:E; [apply Z.eqb_eq in E; by subst|].
    rewrite <- app_assoc, IH by (by apply commas_bound).
    simpl. unfold continues.
    assert (0 <= v mod 128 < 128) by (apply Z.mod_pos_bound; lia).
    destruct (128 <=? _) eqn:E1; [|apply Z.leb_gt in E1; lia].
    f_equal. replace (v mod 128 + 128) with (v mod 128 + 1 * 128) by lia.
    rewrite Z.mod_add, Z.mod_mod by lia.
    pose proof (Z.div_mod v 128). lia.
Qed.

Lemma commas_ok fuel : forall v, 0 <= v -> bytes_ok (commas fuel v).
Proof.
  induction fuel as [|fuel IH]; intros v Hv; simpl.
  - destruct (v =? 0); constructor.
  - destruct (v =? 0); [constructor|].
    apply Forall_app. split; [apply IH, Z.div_pos; lia|].
    constructor; [|constructor].
    assert (0 <= v mod 128 < 128) by (apply Z.mod_pos_bound; lia). lia.
Qed.

Lemma length_commas_le fuel : forall v k, 0 <= v < 128 ^ Z.of_nat k ->
  (length (commas fuel v) <= k)%nat.
Proof.
  induction fuel as [|fuel IH]; intros v k Hv; simpl.
  - destruct (v =? 0); simpl; lia.
  - destruct (v =? 0) eqn:E; simpl; [lia|]. apply Z.eqb_neq in E.
    rewrite length_app. simpl.
    destruct k as [|k]; [simpl in Hv; lia|].
    specialize (IH (v / 128) k (commas_bound k v Hv)). lia.
Qed.

Section Floorlog2.
Variable floorlog2 : Z -> Z.
Hypothesis floorlog2_spec : forall v, 0 < v -> floorlog2 v = Z.log2 v.

Lemma numBytes_of_length val : 0 < val < 4294967296 ->
  numBytes_of floorlog2 val = Z.of_nat (length (commas 5 (val / 128))) + 1.
Proof.
  intros Hv. unfold numBytes_of. rewrite floorlog2_spec by lia.
  assert (0 <= val / 128 < 128 ^ Z.of_nat 5) as Hb.
  { split; [apply Z.div_pos; lia|]. apply Z.div_lt_upper_bound; [lia|].
    change (128 ^ Z.of_nat 5) with 34359738368. lia. }
  pose proof (Z.log2_nonneg val).
  assert (Z.log2 val < 32) by (apply Z.log2_lt_pow2; lia).
  unfold u32 at 2. rewrite (Z.mod_small (Z.log2 val + 1)) by lia.
  replace (Z.log2 val + 1 + 6) with (Z.log2 val + 7) by lia.
  destruct (decide (val / 128 = 0)) as [Hz|Hz].
  - rewrite Hz. simpl.
    assert (val < 128) by (apply Z.div_small_iff in Hz; lia).
    assert (Z.log2 val < 7) by (apply Z.log2_lt_pow2; lia).
    assert ((Z.log2 val + 7) / 7 = 1) as -> by (Z.div_mod_to_equations; lia). done.
  - assert (128 <= val).
    { destruct (decide (val < 128)); [|lia]. rewrite Z.div_small in Hz; lia. }
    assert (7 <= Z.log2 val) by (apply Z.log2_le_pow2; lia).
    rewrite length_commas by lia.
    replace (val / 128) with (Z.shiftr val 7) by (rewrite Z.shiftr_div_pow2; [done|lia]).
    rewrite Z.log2_shiftr by lia.
    replace (Z.max 0 (Z.log2 val - 7)) with (Z.log2 val - 7) by lia.
    replace (Z.log2 val + 7) with ((Z.log2 val - 7 + 7) + 1 * 7) by lia.
    rewrite Z.div_add by lia.
    assert (0 <= (Z.log2 val - 7 + 7) / 7 < 5).
    { split; [apply Z.div_pos; lia|]. apply Z.div_lt_upper_bound; lia. }
    unfold u32. rewrite Z.mod_small; lia.
Qed.

Lemma numBytes_of_length_bytes val : 0 < val < 4294967296 ->
  numBytes_of floorlog2 val = Z.of_nat (length (length_bytes val)).
Proof.
  intros Hv. rewrite numBytes_of_length by done.
  unfold length_bytes. rewrite length_app. simpl length. lia.
Qed.

Lemma write_length_bytes val : 0 < val < 4294967296 ->
  write_length floorlog2 val = Some (length_bytes val).
Proof.
  intros Hv. unfold write_length, length_bytes.
  rewrite numBytes_of_length by done.
  assert (0 <= val / 128 < 128 ^ Z.of_nat 5) as Hb.
  { split; [apply Z.div_pos; lia|]. apply Z.div_lt_upper_bound; [lia|].
    change (128 ^ Z.of_nat 5) with 34359738368. lia. }
  assert (val / 128 <= val) by (apply Z.div_le_upper_bound; lia).
  assert (length (commas 5 (val / 128)) <= 4)%nat as Hle.
  { apply length_commas_le. split; [lia|]. apply Z.div_lt_upper_bound; [lia|].
    change (128 ^ Z.of_nat 4) with 268435456. lia. }
  set (n := length (commas 5 (val / 128))) in *.
  rewrite shiftr7_u32, land_0x7f by lia.
  unfold store_temp.
  destruct (0 <=? _) eqn:E0; [|apply Z.leb_gt in E0; lia].
  replace (Z.of_nat n + 1 - 1) with (Z.of_nat n) by lia.
  rewrite Nat2Z.id.
  replace (replicate 5 0) with (replicate n 0 ++ 0 :: replicate (4 - n) 0).
  2:{ change (0 :: replicate (4 - n) 0) with (replicate (S (4 - n)) 0).
      rewrite <- replicate_add. f_equal. lia. }
  replace (<[n:=val mod 128]> (replicate n 0 ++ 0 :: replicate (4 - n) 0))
    with ([] ++ replicate n 0 ++ val mod 128 :: replicate (4 - n) 0).
  2:{ simpl. rewrite insert_middle; [done|by rewrite length_replicate]. }
  rewrite (write_commas_spec 5 (val / 128) [] (replicate n 0)); [|done|lia|..].
  - cbn [app]. f_equal.
    replace (Z.to_nat (Z.of_nat n + 1)) with (length (commas 5 (val / 128) ++ [val mod 128]))
      by (rewrite length_app; unfold n; simpl length; lia).
    replace (commas 5 (val / 128) ++ val mod 128 :: replicate (4 - n) 0)
      with ((commas 5 (val / 128) ++ [val mod 128]) ++ replicate (4 - n) 0)
      by (by rewrite <- app_assoc).
    by rewrite take_app_length.
  - by rewrite length_replicate.
  - simpl. rewrite length_replicate. lia.
Qed.

End Floorlog2.

Lemma length_bytes_ok val : 0 <= val -> bytes_ok (length_bytes val).
Proof.
  intros Hv. apply Forall_app. split; [apply commas_ok, Z.div_pos; lia|].
  constructor; [|constructor].
  assert (0 <= val mod 128 < 128) by (apply Z.mod_pos_bound; lia). lia.
Qed.

Lemma varints_length_bytes val rest : 0 <= val < 4294967296 ->
  varints 0 (length_bytes val ++ rest) = val :: varints 0 rest.
Proof.
  intros Hv. unfold length_bytes. rewrite <- app_assoc, varints_commas.
  - simpl. unfold continues.
    assert (0 <= val mod 128 < 128) by (apply Z.mod_pos_bound; lia).
    destruct (128 <=? _) eqn:E1; [apply Z.leb_le in E1; lia|].
    rewrite Z.mod_mod by lia. f_equal. pose proof (Z.div_mod val 128). lia.
  - split; [apply Z.div_pos; lia|]. apply Z.div_lt_upper_bound; [lia|].
    change (128 ^ Z.of_nat 5) with 34359738368. lia.
Qed.
Lemma length_length_bytes val : 0 <= val < 4294967296 ->
  (length (length_bytes val) <= 5)%nat.
Proof.
  intros Hv. unfold length_bytes. rewrite length_app. cbn [length].
  assert (length (commas 5 (val / 128)) <= 4)%nat; [|lia].
  apply length_commas_le. split; [apply Z.div_pos; lia|].
  apply Z.div_lt_upper_bound; [lia|]. change (128 ^ Z.of_nat 4) with 268435456. lia.
Qed.

Lemma lengths_bytes_spec vals :
  Forall (fun v => 0 < v < 4294967296) vals ->
  let bytes := concat (length_bytes <$> vals) in
  bytes_ok bytes /\ terminated bytes = true
  /\ (length bytes <= 5 * length vals)%nat
  /\ u32 <$> varints 0 bytes = vals.
Proof.
  induction 1 as [|v vals Hv _ (IH1 & IH2 & IH3 & IH4)]; [cbv zeta; simpl; repeat split; (by constructor) || lia|].
  rewrite fmap_cons. cbn [concat]. cbv zeta. repeat split.
  - apply Forall_app. split; [apply length_bytes_ok; lia|done].
  - revert IH2. unfold terminated. rewrite last_app.
    destruct (last (concat _)); [done|]. intros _.
    unfold length_bytes. rewrite last_snoc. unfold continues.
    assert (0 <= v mod 128 < 128) by (apply Z.mod_pos_bound; lia).
    destruct (128 <=? _) eqn:E; [apply Z.leb_le in E; lia|done].
  - rewrite length_app. pose proof (length_length_bytes v ltac:(lia)). simpl. lia.
  - rewrite varints_length_bytes by lia. rewrite fmap_cons, IH4.
    f_equal. unfold u32. apply Z.mod_small. lia.
Qed.
End PLWrite.

(** ** The writer of the packet length markers *)

Section PLWriter.
Import PL PLCodec.

Variable floorlog2 : Z -> Z.
Variable J2K_MS_PLT : Z.
Variable tell : list stream_call -> Z.
Hypothesis floorlog2_spec : forall v, 0 < v -> floorlog2 v = Z.log2 v.

Local Abbreviation write_vals := (PLCodec.write_vals floorlog2 J2K_MS_PLT tell).
Local Abbreviation write := (PLCodec.write floorlog2 J2K_MS_PLT tell).
Local Abbreviation tryWriteMarkerHeader := (PLCodec.tryWriteMarkerHeader J2K_MS_PLT tell).

Lemma ordered_markers_singleton k (v : list Z) : ordered_markers {[k := v]} = [(k, v)].
Proof. unfold ordered_markers. by rewrite map_to_list_singleton. Qed.

(** The store of the writer after [pushInit] and the pushes of [vals]. *)
Lemma pushed_store vals : forall w l,
  PL.markers_ (markers w) = {[0 := l]} -> PL.currMarker_ (markers w) = Some 0 ->
  let w' := foldl (fun w v => pushNextPacketLength v w) w vals in
  PL.markers_ (markers w') = {[0 := l ++ vals]}
  /\ markerLength_ w' = markerLength_ w
  /\ markerBytesWritten_ w' = markerBytesWritten_ w
  /\ totalBytesWritten_ w' = totalBytesWritten_ w
  /\ markerLenCache_ w' = markerLenCache_ w
  /\ stream_ w' = stream_ w.
Proof.
  induction vals as [|v vals IH]; intros w l Hm Hc.
  - simpl. by rewrite app_nil_r.
  - cbn [foldl]. cbv zeta.
    destruct (IH (pushNextPacketLength v w) (l ++ [v])) as (H1 & H2 & H3 & H4 & H5 & H6).
    + unfold pushNextPacketLength, push_back. cbn [markers PL.markers_].
      rewrite Hc, Hm. by rewrite alter_singleton_eq.
    + done.
    + rewrite H1, H2, H3, H4, H5, H6. by rewrite <- app_assoc.
Qed.

Lemma pushInit_store w :
  PL.markers_ (markers (pushInit w)) = {[0 := []]}
  /\ PL.currMarker_ (markers (pushInit w)) = Some 0
  /\ markerLength_ (pushInit w) = ∅
  /\ markerBytesWritten_ (pushInit w) = 0
  /\ totalBytesWritten_ (pushInit w) = 0
  /\ markerLenCache_ (pushInit w) = 0
  /\ stream_ (pushInit w) = stream_ w.
Proof.
  unfold pushInit, readInit, msize. cbn [PL.markers_ markers].
  rewrite map_size_empty. simpl andb. cbv iota.
  rewrite bool_decide_eq_true_2 by done.
  unfold selectMarker. cbn [PL.markers_ PL.markerIndex_ snd].
  rewrite lookup_empty. cbn. by rewrite insert_empty.
Qed.

(** Below the threshold the loop over the lengths starts no marker. *)
Lemma write_vals_spec simulate k vals : forall w,
  Forall (fun v => 0 < v < 4294967296) vals ->
  0 < totalBytesWritten_ w -> 0 <= markerBytesWritten_ w ->
  totalBytesWritten_ w + 5 * Z.of_nat (length vals) < 4294967296 ->
  markerBytesWritten_ w + 5 * Z.of_nat (length vals) < 65530 ->
  let n := Z.of_nat (length (concat (length_bytes <$> vals))) in
  write_vals k simulate vals w
  = Some (mkWriter (markers w) (markerLength_ w) (markerBytesWritten_ w + n)
                   (totalBytesWritten_ w + n) (markerLenCache_ w)
                   (stream_ w ++ if simulate then []
                                 else StreamWriteBytes <$> (length_bytes <$> vals))).
Proof.
  induction vals as [|v vals IH]; intros w Hv Ht Hm Htl Hml; cbv zeta.
  - simpl. rewrite !Z.add_0_r. destruct w, simulate; simpl; by rewrite ?app_nil_r.
  - apply Forall_cons in Hv as [Hv Hvs]. cbn [length] in Htl, Hml.
    cbn [PLCodec.write_vals].
    assert (tryWriteMarkerHeader k simulate w = w) as ->.
    { unfold PLCodec.tryWriteMarkerHeader.
      destruct (totalBytesWritten_ w =? 0) eqn:E; [apply Z.eqb_eq in E; lia|].
      change (u32 (available_packet_len_bytes_per_plt - 5)) with 65525.
      destruct (65525 <=? _) eqn:E1; [apply Z.leb_le in E1; lia|]. done. }
    rewrite write_length_bytes, numBytes_of_length_bytes by done.
    pose proof (length_length_bytes v ltac:(lia)) as Hl.
    assert (0 < Z.of_nat (length (length_bytes v))) as Hl0.
    { unfold length_bytes. rewrite length_app. simpl. lia. }
    set (c := Z.of_nat (length (length_bytes v))) in *.
    assert (forall w', stream_ w' = stream_ w ++ (if simulate then []
                                  else [StreamWriteBytes (length_bytes v)]) ->
              markers w' = markers w -> markerLength_ w' = markerLength_ w ->
              markerBytesWritten_ w' = markerBytesWritten_ w ->
              totalBytesWritten_ w' = totalBytesWritten_ w ->
              markerLenCache_ w' = markerLenCache_ w ->
              write_vals k simulate vals (writeIncrement c w')
              = Some (mkWriter (markers w) (markerLength_ w)
                        (markerBytesWritten_ w
                         + Z.of_nat (length (concat (length_bytes <$> v :: vals))))
                        (totalBytesWritten_ w
                         + Z.of_nat (length (concat (length_bytes <$> v :: vals))))
                        (markerLenCache_ w)
                        (stream_ w ++ if simulate then []
                           else StreamWriteBytes <$> (length_bytes <$> v :: vals)))) as Hgo.
    { intros w' Hs H1 H2 H3 H4 H5.
      rewrite IH; [|done|..]; unfold writeIncrement;
        cbn [markers markerLength_ markerBytesWritten_ totalBytesWritten_ markerLenCache_
             stream_]; rewrite ?H3, ?H4; unfold u32; rewrite ?Z.mod_small by lia; try lia.
      rewrite H1, H2, H5, Hs. rewrite !fmap_cons. cbn [concat]. rewrite length_app.
      f_equal. f_equal; [lia|lia|].
      destruct simulate; [by rewrite app_nil_r|]. by rewrite <- app_assoc. }
    destruct simulate; cbn [negb]; cbv iota.
    + apply Hgo; try done. by rewrite app_nil_r.
    + apply Hgo; done.
Qed.

Ltac writer_fields :=
  cbv beta iota delta
      [totalBytesWritten_ markerBytesWritten_ markers markerLength_ markerLenCache_
       stream_ writeIncrement call set_markerLength set_markerBytesWritten
       set_totalBytesWritten set_markerLenCache].

Lemma tryWriteMarkerHeader_first (simulate : bool) (ms : PL.PacketLengthMarkers)
    (ml : gmap Z Z) (c : Z) (st : list stream_call) :
  tryWriteMarkerHeader 0 simulate (mkWriter ms ml 0 0 c st)
  = if simulate then mkWriter ms ml 4 4 c st
    else if negb (default 0 (ml !! 0) =? 0) then
      mkWriter ms ml 4 4 c
               (st ++ [StreamWriteShort J2K_MS_PLT;
                       StreamWriteShort (u16 (default 0 (ml !! 0) - 2))])
    else
      mkWriter ms ml 4 4 (tell (st ++ [StreamWriteShort J2K_MS_PLT]))
               (st ++ [StreamWriteShort J2K_MS_PLT; StreamSkip 2]).
Proof.
  unfold PLCodec.tryWriteMarkerHeader, writeMarkerLength.
  destruct simulate; writer_fields; change (0 =? 0) with true; cbn [orb negb];
    cbv iota; writer_fields; [done|].
  destruct (default 0 (ml !! 0) =? 0); cbn [negb]; cbv iota zeta; writer_fields;
    by rewrite <- ?app_assoc.
Qed.

(** [write] on the store that holds the lengths [vals] under the marker
    index 0, with no marker length cached. *)
Lemma write_single simulate vals w :
  Forall (fun v => 0 < v < 4294967296) vals ->
  5 * Z.of_nat (length vals) < 65525 ->
  PL.markers_ (markers w) = {[0 := vals]} ->
  markerLenCache_ w = 0 ->
  let n := Z.of_nat (length (concat (length_bytes <$> vals))) in
  let m := default 0 (markerLength_ w !! 0) in
  let lengths := StreamWriteBytes <$> (length_bytes <$> vals) in
  let c := tell (stream_ w ++ [StreamWriteShort J2K_MS_PLT]) in
  let written := stream_ w ++ [StreamWriteShort J2K_MS_PLT; StreamSkip 2; StreamWriteByte 0]
                            ++ lengths in
  write simulate w
  = Some (5 + n,
          if simulate then
            mkWriter (markers w) (<[0 := 5 + n]> (markerLength_ w)) (5 + n) (5 + n) 0
                     (stream_ w)
          else if negb (m =? 0) then
            mkWriter (markers w) (markerLength_ w) (5 + n) (5 + n) 0
                     (stream_ w ++ [StreamWriteShort J2K_MS_PLT;
                                    StreamWriteShort (u16 (m - 2)); StreamWriteByte 0]
                               ++ lengths)
          else
            mkWriter (markers w) (markerLength_ w) (5 + n) (5 + n) 0
                     (if negb (c =? 0) then
                        written ++ [StreamSeek c; StreamWriteShort (3 + n);
                                    StreamSeek (tell written)]
                      else written)).
Proof.
  intros Hv Hn Hm Hc. cbv zeta.
  pose proof (lengths_bytes_spec vals Hv) as (_ & _ & Hlen & _). cbv zeta in Hlen.
  set (n := Z.of_nat (length (concat (length_bytes <$> vals)))) in *.
  assert (0 <= n <= 5 * Z.of_nat (length vals)) as Hn' by lia.
  destruct w as [ms ml mbw tot c st].
  cbn [markers markerLength_ markerLenCache_ stream_] in *. subst c.
  unfold PLCodec.write. cbn [markers]. 
  rewrite Hm, ordered_markers_singleton. cbv zeta. writer_fields.
  rewrite tryWriteMarkerHeader_first.
  cbn [PLCodec.write_markers].
  destruct simulate; cbn [negb]; cbv iota.
  - writer_fields. change (u32 (4 + 1)) with 5.
    rewrite write_vals_spec; [|done|writer_fields; lia..].
    writer_fields. fold n.
    unfold writeMarkerLength. writer_fields.
    destruct (5 + n =? 0) eqn:E; [apply Z.eqb_eq in E; lia|].
    by rewrite app_nil_r.
  - destruct (default 0 (ml !! 0) =? 0) eqn:E0; cbn [negb]; cbv iota.
    + writer_fields. change (u32 (4 + 1)) with 5. change (u8 0) with 0.
      rewrite write_vals_spec; [|done|writer_fields; lia..].
      writer_fields. fold n.
      unfold writeMarkerLength. writer_fields.
      destruct (5 + n =? 0) eqn:E; [apply Z.eqb_eq in E; lia|].
      rewrite <- !app_assoc. cbn [app].
      destruct (tell _ =? 0) eqn:Ec; cbn [negb]; cbv iota;
        [apply Z.eqb_eq in Ec; by rewrite Ec|].
      cbv zeta. writer_fields.
      rewrite <- ?app_assoc. cbn [app].
      replace (u16 (5 + n - 2)) with (3 + n); [done|].
      unfold u16. rewrite Z.mod_small; lia.
    + writer_fields. change (u32 (4 + 1)) with 5. change (u8 0) with 0.
      rewrite write_vals_spec; [|done|writer_fields; lia..].
      writer_fields. fold n.
      unfold writeMarkerLength. writer_fields.
      destruct (5 + n =? 0) eqn:E; [apply Z.eqb_eq in E; lia|].
      change (0 =? 0) with true. cbn [negb]. cbv iota.
      by rewrite <- !app_assoc.
Qed.

(** X1. The writer and the reader of PLT markers agree. After [pushInit]
    and the pushes of the packet lengths [vals] (each at least 1 and below
    2^32, few enough for one marker: five bytes per length stay below the
    threshold at which [write] starts a new marker), a simulated [write]
    followed by [write] on the stream makes exactly these calls: the marker
    code, the marker length [3 + n], the index byte 0 and one [writeBytes]
    per length, [n] being the number of length bytes, at most five per
    length; both passes return [5 + n]. Without the simulated pass the marker
    length is skipped and written at the end, at the position that [tell]
    gave, unless that position is 0. And [readPLT], handed the index byte and
    the length bytes with the marker length less 2 as header size, reads
    exactly [vals] back, appended to the marker that [readInit] selects
    ([floorlog2] being the floor of the binary logarithm). *)
Theorem written_lengths_read_back (vals : list Z) (w : PacketLengthWriter) :
  Forall (fun v => 0 < v < 4294967296) vals ->
  5 * Z.of_nat (length vals) < 65525 ->
  let w0 := foldl (fun w v => pushNextPacketLength v w) (pushInit w) vals in
  let bytes := concat (length_bytes <$> vals) in
  let n := Z.of_nat (length bytes) in
  let lengths := StreamWriteBytes <$> (length_bytes <$> vals) in
  let written := stream_ w ++ [StreamWriteShort J2K_MS_PLT; StreamSkip 2; StreamWriteByte 0]
                            ++ lengths in
  let c := tell (stream_ w ++ [StreamWriteShort J2K_MS_PLT]) in
  (length bytes <= 5 * length vals)%nat
  /\ (exists w1 w2,
        write true w0 = Some (5 + n, w1) /\ stream_ w1 = stream_ w
        /\ write false w1 = Some (5 + n, w2)
        /\ stream_ w2 = stream_ w ++ [StreamWriteShort J2K_MS_PLT;
                                      StreamWriteShort (3 + n); StreamWriteByte 0]
                                 ++ lengths)
  /\ (exists w3,
        write false w0 = Some (5 + n, w3)
        /\ stream_ w3 = if c =? 0 then written
                        else written ++ [StreamSeek c; StreamWriteShort (3 + n);
                                         StreamSeek (tell written)])
  /\ (forall s s1,
        readInit 0 GRK_PL_MARKER_PLT s = (true, s1) ->
        exists s', readPLT (0 :: bytes) (3 + n - 2) s = (true, s')
          /\ PL.markers_ s' = alter (fun v => v ++ vals) (PL.markerIndex_ s1)
                                    (PL.markers_ s1)).
Proof.
  intros Hv Hn. cbv zeta.
  destruct (lengths_bytes_spec vals Hv) as (Hb & Ht & Hlen & Hvals). cbv zeta in *.
  set (bytes := concat (length_bytes <$> vals)) in *.
  set (n := Z.of_nat (length bytes)).
  assert (0 <= n <= 5 * Z.of_nat (length vals)) as Hn' by (unfold n; lia).
  destruct (pushInit_store w) as (I1 & I2 & I3 & I4 & I5 & I6 & I7).
  destruct (pushed_store vals (pushInit w) [] I1 I2) as (P1 & P2 & P3 & P4 & P5 & P6).
  cbv zeta in *. cbn [app] in P1.
  set (w0 := foldl (fun w v => pushNextPacketLength v w) (pushInit w) vals) in *.
  rewrite I3 in P2. rewrite I6 in P5. rewrite I7 in P6.
  split; [done|]. split; [|split].
  - pose proof (write_single true vals w0 Hv Hn P1 P5) as H1. cbv zeta in H1.
    cbv iota in H1. fold bytes n in H1.
    eexists. eexists. split; [exact H1|]. split; [done|].
    match type of H1 with _ = Some (_, ?w1) =>
      pose proof (write_single false vals w1 Hv Hn P1 eq_refl) as H2 end.
    cbv zeta in H2. cbn [markerLength_ stream_ markers] in H2. fold bytes n in H2.
    rewrite lookup_insert_eq in H2. cbn [default from_option id] in H2.
    destruct (5 + n =? 0) eqn:E; [apply Z.eqb_eq in E; lia|].
    cbn [negb] in H2. cbv iota in H2.
    replace (u16 (5 + n - 2)) with (3 + n) in H2 by (unfold u16; rewrite Z.mod_small; lia).
    split; [exact H2|]. by rewrite P6.
  - pose proof (write_single false vals w0 Hv Hn P1 P5) as H3. cbv zeta in H3.
    rewrite P2, lookup_empty in H3. cbn [default from_option id] in H3.
    change (0 =? 0) with true in H3. cbn [negb] in H3. cbv iota in H3.
    fold bytes n in H3. rewrite P6 in H3.
    eexists. split; [exact H3|]. cbn [stream_].
    by destruct (tell _ =? 0).
  - intros s s1 Hi.
    destruct (readInit_true _ _ _ _ Hi) as [Hp Hk].
    replace (3 + n - 2) with (Z.of_nat (length (0 :: bytes))) by (unfold n; simpl length; lia).
    rewrite readPLT_unfold; [|by constructor|simpl length; lia].
    rewrite Hi. simpl negb. cbv iota zeta.
    rewrite (foldl_readNext_terminated _ s1) by done. simpl.
    eexists. split; [done|].
    destruct (foldl_readNext_spec _ 0 s1 _ Hb Hk Hp) as (-> & _).
    by rewrite Hvals.
Qed.

End PLWriter.

Lemma written_lengths_read_back_witness :
  let tell := fun calls : list PLCodec.stream_call => 2 + Z.of_nat (length calls) in
  let w := PLCodec.mkWriter PL.init ∅ 0 0 0 [] in
  let w0 := foldl (fun w v => PLCodec.pushNextPacketLength v w) (PLCodec.pushInit w)
                  [1; 300; 70000] in
  let lengths := [PLCodec.StreamWriteBytes [1]; PLCodec.StreamWriteBytes [0x82; 0x2c];
                  PLCodec.StreamWriteBytes [0x84; 0xa2; 0x70]] in
  (6 <= 5 * 3)%nat
  /\ (exists w1 w2,
        PLCodec.write Z.log2 0xff58 tell true w0 = Some (11, w1)
        /\ PLCodec.stream_ w1 = []
        /\ PLCodec.write Z.log2 0xff58 tell false w1 = Some (11, w2)
        /\ PLCodec.stream_ w2
           = [PLCodec.StreamWriteShort 0xff58; PLCodec.StreamWriteShort 9;
              PLCodec.StreamWriteByte 0] ++ lengths)
  /\ (exists w3,
        PLCodec.write Z.log2 0xff58 tell false w0 = Some (11, w3)
        /\ PLCodec.stream_ w3
           = [PLCodec.StreamWriteShort 0xff58; PLCodec.StreamSkip 2;
              PLCodec.StreamWriteByte 0] ++ lengths
             ++ [PLCodec.StreamSeek 3; PLCodec.StreamWriteShort 9; PLCodec.StreamSeek 8])
  /\ (exists s', PL.readPLT [0; 1; 0x82; 0x2c; 0x84; 0xa2; 0x70] 7 PL.init = (true, s')
        /\ PL.markers_ s'
           = alter (fun v => v ++ [1; 300; 70000])
               (PL.markerIndex_ (PL.readInit 0 PL.GRK_PL_MARKER_PLT PL.init).2)
               (PL.markers_ (PL.readInit 0 PL.GRK_PL_MARKER_PLT PL.init).2)).
Proof.
  cbv zeta.
  destruct (written_lengths_read_back Z.log2 0xff58
              (fun calls : list PLCodec.stream_call => 2 + Z.of_nat (length calls))
              (fun v _ => eq_refl) [1; 300; 70000]
              (PLCodec.mkWriter PL.init ∅ 0 0 0 []))
    as (H1 & H2 & H3 & H4).
  - repeat constructor.
  - simpl. lia.
  - split; [exact H1|]. split; [exact H2|]. split; [exact H3|].
    exact (H4 PL.init (PL.readInit 0 PL.GRK_PL_MARKER_PLT PL.init).2 eq_refl).
Defined.

Section PLPop.
Import PL PLCodec.

Lemma pop_exhausted m : forall r,
  currMarker_ (store r) = None -> pop_many m r = Some (replicate m 0).
Proof.
  induction m as [|m IH]; intros r Hc; [done|].
  cbn [pop_many]. unfold popNextPacketLength. rewrite Hc.
  by rewrite IH.
Qed.

Section Walk.
Variable M : gmap Z (list Z).
Variable vs : list (list Z).
Hypothesis M_size : size M = length vs.
Hypothesis M_lookup : forall i v, vs !! i = Some v -> M !! Z.of_nat i = Some v.
Hypothesis vs_nonempty : Forall (fun v => v <> []) vs.
Hypothesis vs_count : Z.of_nat (length vs) < 4294967296.

Lemma pop_many_at m : forall n i j v r,
  (m <= n)%nat -> vs !! i = Some v -> (j <= length v)%nat ->
  markers_ (store r) = M -> currMarker_ (store r) = Some (Z.of_nat i) ->
  markerIndex_ (store r) = Z.of_nat i -> packetIndex_ r = Z.of_nat j ->
  pop_many m r
  = Some (take m (drop j v ++ concat (drop (S i) vs) ++ replicate n 0)).
Proof.
  induction m as [|m IH]; intros n i j v r Hn Hv Hj HM Hc Hi Hp; [done|].
  pose proof (lookup_lt_Some _ _ _ Hv) as Hlt.
  cbn [pop_many]. unfold popNextPacketLength.
  rewrite Hc, HM, (M_lookup _ _ Hv), Hp, Hi.
  destruct (Z.of_nat j =? Z.of_nat (length v)) eqn:E.
  - apply Z.eqb_eq in E. assert (j = length v) as -> by lia.
    rewrite drop_all. cbn [app].
    assert (u32 (Z.of_nat i + 1) = Z.of_nat (S i)) as ->.
    { unfold u32. rewrite Z.mod_small; lia. }
    unfold msize. rewrite HM, M_size.
    destruct (Z.of_nat (S i) <? Z.of_nat (length vs)) eqn:E1.
    + apply Z.ltb_lt in E1.
      destruct (lookup_lt_is_Some_2 vs (S i) ltac:(lia)) as [v' Hv'].
      rewrite (M_lookup _ _ Hv'). cbn [store currMarker_ markers_ packetIndex_].
      rewrite (M_lookup _ _ Hv').
      pose proof (proj1 (Forall_lookup _ _) vs_nonempty _ _ Hv') as Hne.
      destruct v' as [|x v']; [done|].
      change ((x :: v') !! Z.to_nat 0) with (Some x). cbv beta iota.
      erewrite (IH n (S i) 1%nat (x :: v')); [|lia|done|simpl; lia|done..].
      rewrite (drop_S vs (x :: v') (S i)) by done.
      cbn [concat drop]. by rewrite <- app_assoc.
    + apply Z.ltb_ge in E1. cbn [store currMarker_].
      rewrite pop_exhausted by done.
      rewrite drop_ge by lia. cbn [concat app].
      rewrite take_replicate. f_equal.
      replace (S m `min` n)%nat with (S m) by lia. done.
  - apply Z.eqb_neq in E.
    cbv beta iota zeta. rewrite Hc, HM, (M_lookup _ _ Hv), Hp, Nat2Z.id.
    destruct (lookup_lt_is_Some_2 v j ltac:(lia)) as [x Hx].
    rewrite Hx. cbv beta iota.
    erewrite (IH n i (S j) v); [|lia|done|..].
    + rewrite (drop_S v x j) by done. done.
    + apply lookup_lt_Some in Hx. lia.
    + done.
    + done.
    + done.
    + simpl. lia.
Qed.

End Walk.

Lemma pop_many_rewind m s pi (vs : list (list Z)) :
  size (markers_ s) = length vs ->
  (forall i v, vs !! i = Some v -> markers_ s !! Z.of_nat i = Some v) ->
  Forall (fun v => v <> []) vs ->
  Z.of_nat (length vs) < 4294967296 ->
  pop_many m (rewind (mkReader s pi))
  = Some (take m (concat vs ++ replicate m 0)).
Proof.
  intros Hsize Hlook Hne Hcount. destruct vs as [|v0 vs'].
  - simpl in Hsize. apply map_size_empty_inv in Hsize.
    rewrite pop_exhausted.
    + simpl. by rewrite take_replicate, Nat.min_id.
    + unfold rewind. cbn [store currMarker_]. by rewrite Hsize.
  - assert ((v0 :: vs') !! 0%nat = Some v0) as H0 by done.
    rewrite (pop_many_at (markers_ s) (v0 :: vs') Hsize Hlook Hne Hcount m m 0 0 v0);
      try done.
    + simpl. by rewrite drop_0, app_assoc.
    + lia.
    + unfold rewind. cbn [store currMarker_].
      pose proof (Hlook _ _ H0) as H0'. change (Z.of_nat 0) with 0 in H0'.
      by rewrite H0'.
Qed.


(** X2. After [rewind], successive calls of [popNextPacketLength] on a store
    that holds a non-empty vector under each of the indices 0 .. n-1 return
    the lengths of marker 0, then those of marker 1, and so on in the order
    of the stored vectors, and 0 on every call after the last length. *)
Theorem pop_enumerates_markers (s : PL.PacketLengthMarkers) (pi : Z)
    (vs : list (list Z)) (m : nat) :
  size (PL.markers_ s) = length vs ->
  (forall i v, vs !! i = Some v -> PL.markers_ s !! Z.of_nat i = Some v) ->
  Forall (fun v => v <> []) vs ->
  Z.of_nat (length vs) < 4294967296 ->
  PLCodec.pop_many m (PLCodec.rewind (PLCodec.mkReader s pi))
  = Some (take m (concat vs ++ replicate m 0)).
Proof. apply pop_many_rewind. Qed.

Lemma pop_enumerates_markers_witness :
  PLCodec.pop_many 4
    (PLCodec.rewind (PLCodec.mkReader (PL.readPLT_all [[0; 5; 6]; [1; 7]] PL.init) 9))
  = Some [5; 6; 7; 0].
Proof.
  apply (pop_enumerates_markers (PL.readPLT_all [[0; 5; 6]; [1; 7]] PL.init) 9
           [[5; 6]; [7]] 4).
  - reflexivity.
  - intros [|[|i]] v; simpl; intros [= <-]; reflexivity.
  - repeat constructor; done.
  - simpl. lia.
Defined.

(** X3. PLT segments whose signaled indices are sequential mod 256, each
    holding at least one complete packet length, are read into a fresh
    store; after [rewind] the calls of [popNextPacketLength] return the
    packet lengths of all the segments in the order in which they were
    signaled, segment after segment, and then 0. *)
Theorem plt_lengths_popped_in_order (segs : list (list Z)) (pi : Z) (m : nat) :
  PL.sequential_from 0 segs = true ->
  forallb (forallb PL.is_byte) segs = true ->
  Z.of_nat (length segs) < 4294967296 ->
  Forall (fun seg => PL.varints 0 (tail seg) <> []) segs ->
  PLCodec.pop_many m (PLCodec.rewind (PLCodec.mkReader (PL.readPLT_all segs PL.init) pi))
  = Some (take m (concat ((fun seg => u32 <$> PL.varints 0 (tail seg)) <$> segs)
                  ++ replicate m 0)).
Proof.
  intros Hseq Hb Hl Hne.
  destruct (readPLT_all_sequential segs PL.init [] seq_inv_init Hseq Hb ltac:(simpl; lia))
    as (Hsize & Hlook & _).
  simpl in Hsize, Hlook.
  apply pop_many_rewind.
  - rewrite length_fmap. unfold PL.msize in Hsize. lia.
  - intros i v Hv. apply list_lookup_fmap_Some in Hv as (seg & -> & Hseg).
    by apply Hlook.
  - apply Forall_fmap. eapply Forall_impl; [exact Hne|].
    intros seg Hs Hnil. apply Hs. by apply fmap_nil_inv in Hnil.
  - by rewrite length_fmap.
Qed.

Lemma plt_lengths_popped_in_order_witness :
  PLCodec.pop_many 5
    (PLCodec.rewind
       (PLCodec.mkReader (PL.readPLT_all [[0; 5; 0x82; 0x2c]; [1; 7]] PL.init) 0))
  = Some [5; 300; 7; 0; 0].
Proof.
  apply (plt_lengths_popped_in_order [[0; 5; 0x82; 0x2c]; [1; 7]] 0 5).
  - reflexivity.
  - reflexivity.
  - simpl. lia.
  - repeat constructor; done.
Defined.
End PLPop.

Section PLAppend.
Import PL.

Lemma selectMarker_lookup s k v :
  markers_ s !! k = Some v -> markers_ (selectMarker s) !! k = Some v.
Proof.
  intros Hk. unfold selectMarker.
  destruct (markers_ s !! markerIndex_ s) eqn:E; simpl; [done|].
  rewrite lookup_insert_ne; [done|]. intros Heq. rewrite Heq in E. congruence.
Qed.

Lemma readInit_lookup idx t s k v :
  markers_ s !! k = Some v -> markers_ (readInit idx t s).2 !! k = Some v.
Proof.
  intros Hk. unfold readInit.
  repeat (case_match; simpl); try done; by apply selectMarker_lookup.
Qed.

Lemma readNext_lookup b s k v :
  markers_ s !! k = Some v ->
  exists v', markers_ (readNext b s) !! k = Some (v ++ v').
Proof.
  intros Hk. unfold readNext, push_back.
  destruct (negb _); simpl.
  - exists []. by rewrite app_nil_r.
  - destruct (currMarker_ s) as [c|].
    + destruct (decide (c = k)) as [->|Hne].
      * eexists. rewrite lookup_alter_eq, Hk. done.
      * exists []. rewrite lookup_alter_ne, app_nil_r by done. done.
    + exists []. by rewrite app_nil_r.
Qed.

Lemma readBytes_lookup n : forall data pos s k v,
  markers_ s !! k = Some v ->
  exists v', markers_ (readBytes n data pos s) !! k = Some (v ++ v').
Proof.
  induction n as [|n IH]; intros data pos s k v Hk; simpl.
  - exists []. by rewrite app_nil_r.
  - destruct (readNext_lookup (byte_at data pos) s k v Hk) as [v1 H1].
    destruct (IH data (S pos) _ k _ H1) as [v2 H2].
    exists (v1 ++ v2). by rewrite app_assoc.
Qed.

Lemma readPLT_lookup data hs s k v :
  markers_ s !! k = Some v ->
  exists v', markers_ (readPLT data hs s).2 !! k = Some (v ++ v').
Proof.
  intros Hk. unfold readPLT.
  destruct (hs <? 1); simpl; [exists []; by rewrite app_nil_r|].
  pose proof (readInit_lookup (byte_at data 0) GRK_PL_MARKER_PLT s k v Hk) as H1.
  destruct (readInit _ _ _) as [ok s1]. simpl in H1.
  destruct ok; simpl; [|exists []; by rewrite app_nil_r].
  destruct (readBytes_lookup (Z.to_nat (u16 (hs - 1))) data 1 s1 k v H1) as [v' H2].
  exists v'. by destruct (negb _).
Qed.

Lemma readPLM_loop_lookup fuel : forall data pos hs s k v r,
  markers_ s !! k = Some v ->
  readPLM_loop fuel data pos hs s = Some r ->
  exists v', markers_ r.2 !! k = Some (v ++ v').
Proof.
  induction fuel as [|fuel IH]; intros data pos hs s k v r Hk; simpl.
  - destruct (0 <? hs); [done|]. intros [= <-]. exists []. by rewrite app_nil_r.
  - destruct (0 <? hs); [|intros [= <-]; exists []; by rewrite app_nil_r].
    destruct (hs <? _); [intros [= <-]; exists []; by rewrite app_nil_r|].
    destruct (readBytes_lookup (Z.to_nat (byte_at data pos)) data (S pos) s k v Hk)
      as [v1 H1].
    destruct (negb _); [intros [= <-]; by exists v1|].
    intros Hr. destruct (IH _ _ _ _ _ _ _ H1 Hr) as [v2 H2].
    exists (v1 ++ v2). by rewrite app_assoc.
Qed.

(** X4. Reading a PLT or a PLM marker segment, whatever its bytes and
    whether or not the read succeeds, never removes or changes a packet
    length that the store already holds: every vector of the store is
    still there after the read, extended at its end at most. *)
Theorem marker_reads_only_append (data : list Z) (hs : Z) (s : PacketLengthMarkers)
    (k : Z) (v : list Z) :
  markers_ s !! k = Some v ->
  (exists v', markers_ (readPLT data hs s).2 !! k = Some (v ++ v'))
  /\ (exists r v', readPLM data hs s = Some r /\ markers_ r.2 !! k = Some (v ++ v')).
Proof.
  intros Hk. split; [by apply readPLT_lookup|].
  destruct (readPLM_total data hs s) as [r Hr]. exists r.
  revert Hr. unfold readPLM.
  destruct (hs <? 1); [intros [= <-]; exists []; by rewrite app_nil_r|].
  pose proof (readInit_lookup (byte_at data 0) GRK_PL_MARKER_PLM s k v Hk) as H1.
  destruct (readInit _ _ _) as [ok s1]. simpl in H1.
  destruct ok; simpl; [|intros [= <-]; exists []; by rewrite app_nil_r].
  intros Hr. destruct (readPLM_loop_lookup _ _ _ _ _ _ _ _ H1 Hr) as [v' Hv'].
  by exists v'.
Qed.

Lemma marker_reads_only_append_witness :
  (exists v', markers_ (readPLT [0; 1; 9] 3 (readPLT [0; 5; 6] 3 init).2).2 !! 0
              = Some ([5; 6] ++ v'))
  /\ (exists r v', readPLM [0; 1; 9] 3 (readPLT [0; 5; 6] 3 init).2 = Some r
                   /\ markers_ r.2 !! 0 = Some ([5; 6] ++ v')).
Proof.
  apply (marker_reads_only_append [0; 1; 9] 3 (readPLT [0; 5; 6] 3 init).2 0 [5; 6]).
  reflexivity.
Defined.

End PLAppend.

Section PLStandard.
Import PL.

Lemma sequential_selectMarker s : sequential_ (selectMarker s) = sequential_ s.
Proof. unfold selectMarker. by destruct (markers_ s !! markerIndex_ s). Qed.

Lemma sequential_readNext b s : sequential_ (readNext b s) = sequential_ s.
Proof. unfold readNext. by destruct (negb _). Qed.

Lemma sequential_readBytes n : forall data pos s,
  sequential_ (readBytes n data pos s) = sequential_ s.
Proof.
  induction n as [|n IH]; intros; simpl; [done|].
  by rewrite IH, sequential_readNext.
Qed.

Lemma readInit_standard idx s :
  msize s <> 0 -> sequential_ s = false ->
  readInit idx GRK_PL_MARKER_PLT s
  = (true, selectMarker (mkPL (markers_ s) idx (currMarker_ s) false (packet_len_ s))).
Proof.
  intros Hm Hs. unfold readInit. cbn [is_PLM markers_ sequential_ currMarker_ packet_len_].
  rewrite andb_false_r, nonempty_size, Hs by done. done.
Qed.

Lemma readInit_nonseq idx t s :
  msize s <> 0 -> sequential_ s = false ->
  msize (readInit idx t s).2 <> 0 /\ sequential_ (readInit idx t s).2 = false.
Proof.
  intros Hm Hs. split.
  - pose proof (msize_readInit idx t s). unfold msize in *. lia.
  - unfold readInit. cbn [markers_ sequential_ currMarker_ packet_len_].
    rewrite nonempty_size, Hs by done.
    destruct (_ && is_PLM t); simpl; [done|].
    by rewrite sequential_selectMarker.
Qed.

Lemma readPLT_nonseq data hs s :
  msize s <> 0 -> sequential_ s = false ->
  msize (readPLT data hs s).2 <> 0 /\ sequential_ (readPLT data hs s).2 = false.
Proof.
  intros Hm Hs. unfold readPLT. destruct (hs <? 1); [done|].
  destruct (readInit_nonseq (byte_at data 0) GRK_PL_MARKER_PLT s Hm Hs) as [H1 H2].
  destruct (readInit _ _ _) as [ok s1]. simpl in H1, H2.
  destruct ok; simpl; [|done].
  destruct (negb _); simpl; by rewrite msize_readBytes, sequential_readBytes.
Qed.

Lemma readPLM_loop_sequential fuel : forall data pos hs s r,
  readPLM_loop fuel data pos hs s = Some r -> sequential_ r.2 = sequential_ s.
Proof.
  induction fuel as [|fuel IH]; intros data pos hs s r; simpl.
  - destruct (0 <? hs); [done|]. by intros [= <-].
  - destruct (0 <? hs); [|by intros [= <-]].
    destruct (hs <? _); [by intros [= <-]|].
    destruct (negb _); [intros [= <-]; simpl; apply sequential_readBytes|].
    intros Hr. apply IH in Hr. by rewrite Hr, sequential_readBytes.
Qed.

Lemma readPLM_nonseq data hs s r :
  msize s <> 0 -> sequential_ s = false -> readPLM data hs s = Some r ->
  msize r.2 <> 0 /\ sequential_ r.2 = false.
Proof.
  intros Hm Hs. unfold readPLM. destruct (hs <? 1); [by intros [= <-]|].
  destruct (readInit_nonseq (byte_at data 0) GRK_PL_MARKER_PLM s Hm Hs) as [H1 H2].
  destruct (readInit _ _ _) as [ok s1]. simpl in H1, H2.
  destruct ok; simpl; [|by intros [= <-]].
  intros Hr. split.
  - by rewrite (readPLM_loop_msize _ _ _ _ _ _ Hr).
  - by rewrite (readPLM_loop_sequential _ _ _ _ _ _ Hr).
Qed.

Lemma msize_nonempty s : markers_ s <> ∅ <-> msize s <> 0.
Proof.
  unfold msize. split; intros H Hz; apply H.
  - apply map_size_empty_inv. lia.
  - by rewrite Hz.
Qed.

(** X5. Once the store holds a marker and has left sequential mode, no run
    of PLT reads and no run of PLM reads brings it back into sequential
    mode, whatever the bytes of the segments and whether or not the reads
    succeed. *)
Theorem sequential_never_returns (plts : list (list Z)) (plms : list (list Z * Z))
    (s : PacketLengthMarkers) :
  markers_ s <> ∅ -> sequential_ s = false ->
  sequential_ (readPLT_all plts s) = false
  /\ sequential_ (readPLM_all plms s) = false.
Proof.
  intros Hm%msize_nonempty Hs. split.
  - revert s Hm Hs. induction plts as [|seg plts IH]; intros s Hm Hs; [done|].
    change (readPLT_all (seg :: plts) s)
      with (readPLT_all plts (readPLT seg (Z.of_nat (length seg)) s).2).
    destruct (readPLT_nonseq seg (Z.of_nat (length seg)) s Hm Hs). by apply IH.
  - revert s Hm Hs. induction plms as [|seg plms IH]; intros s Hm Hs; [done|].
    change (readPLM_all (seg :: plms) s)
      with (readPLM_all plms (match readPLM seg.1 seg.2 s with
                              | Some r => r.2 | None => s end)).
    destruct (readPLM seg.1 seg.2 s) as [r|] eqn:Hr; [|by apply IH].
    destruct (readPLM_nonseq _ _ _ _ Hm Hs Hr). by apply IH.
Qed.

Lemma sequential_never_returns_witness :
  sequential_ (readPLT_all [[1; 5]; [2; 6]] (readPLT [3; 4] 2 init).2) = false
  /\ sequential_ (readPLM_all [([0; 1; 9], 3)] (readPLT [3; 4] 2 init).2) = false.
Proof.
  apply (sequential_never_returns [[1; 5]; [2; 6]] [([0; 1; 9], 3)]
           (readPLT [3; 4] 2 init).2).
  - intros H. apply (f_equal (fun m => m !! 3)) in H. vm_compute in H. discriminate.
  - reflexivity.
Defined.


Lemma readPLT_standard s Zplt bytes :
  msize s <> 0 -> sequential_ s = false ->
  bytes_ok (Zplt :: bytes) -> Z.of_nat (length (Zplt :: bytes)) <= 65535 ->
  terminated bytes = true ->
  exists s', readPLT (Zplt :: bytes) (Z.of_nat (length (Zplt :: bytes))) s = (true, s')
    /\ markers_ s'
       = <[Zplt := default [] (markers_ s !! Zplt) ++ (u32 <$> varints 0 bytes)]>
           (markers_ s).
Proof.
  intros Hm Hs Hb Hl Ht. rewrite readPLT_unfold by done.
  rewrite readInit_standard by done. simpl negb. cbv iota zeta.
  set (s1 := selectMarker _).
  inversion Hb; subst.
  assert (packet_len_ s1 = 0 /\ currMarker_ s1 = Some Zplt) as [Hp Hk].
  { unfold s1, selectMarker. by case_match. }
  rewrite (foldl_readNext_terminated bytes s1) by done. simpl.
  eexists. split; [done|].
  destruct (foldl_readNext_spec bytes 0 s1 _ ltac:(done) Hk Hp) as (-> & _).
  unfold s1, selectMarker. cbn [markers_ markerIndex_].
  destruct (markers_ s !! Zplt) as [v|] eqn:E; cbn [markers_ default].
  - apply map_eq. intros k. destruct (decide (k = Zplt)) as [->|Hne].
    + by rewrite lookup_alter_eq, lookup_insert_eq, E.
    + by rewrite lookup_alter_ne, lookup_insert_ne.
  - apply map_eq. intros k. destruct (decide (k = Zplt)) as [->|Hne].
    + by rewrite lookup_alter_eq, !lookup_insert_eq.
    + by rewrite lookup_alter_ne, !lookup_insert_ne.
Qed.

(** X6. In standard mode (the store holds a marker and is not in sequential
    mode) a run of PLT segments, each with its index byte and complete
    packet lengths, leaves under every marker index the lengths that the
    store held under it followed by the lengths of all the segments of the
    run that signal this index, in the order of the run: segments with the
    same index are concatenated. *)
Theorem plt_same_index_concatenated (segs : list (list Z)) (s : PacketLengthMarkers)
    (k : Z) :
  markers_ s <> ∅ -> sequential_ s = false ->
  Forall (fun seg => 1 <= Z.of_nat (length seg) <= 65535 /\ bytes_ok seg
                     /\ terminated (tail seg) = true) segs ->
  default [] (markers_ (readPLT_all segs s) !! k)
  = default [] (markers_ s !! k)
    ++ concat ((fun seg => u32 <$> varints 0 (tail seg))
                 <$> filter (fun seg => byte_at seg 0 = k) segs).
Proof.
  intros Hm%msize_nonempty Hs Hwf. revert s Hm Hs.
  induction Hwf as [|seg segs (Hl & Hb & Ht) _ IH]; intros s Hm Hs.
  - simpl. by rewrite app_nil_r.
  - change (readPLT_all (seg :: segs) s)
      with (readPLT_all segs (readPLT seg (Z.of_nat (length seg)) s).2).
    destruct (readPLT_nonseq seg (Z.of_nat (length seg)) s Hm Hs) as [Hm1 Hs1].
    rewrite IH by done.
    destruct seg as [|Zplt bytes]; [simpl in Hl; lia|].
    destruct (readPLT_standard s Zplt bytes Hm Hs Hb ltac:(lia) Ht) as (s' & Hr & Hm').
    rewrite Hr. cbn [snd]. rewrite Hm'.
    inversion Hb; subst.
    pose proof (byte_at_drop (Zplt :: bytes) 0 Zplt bytes eq_refl ltac:(done)) as Hz.
    cbn [tail].
    destruct (decide (Zplt = k)) as [->|Hne].
    + rewrite filter_cons_True by done.
      rewrite lookup_insert_eq, fmap_cons. cbn [default concat tail].
      by rewrite app_assoc.
    + rewrite filter_cons_False by (by rewrite Hz).
      by rewrite lookup_insert_ne.
Qed.

Lemma plt_same_index_concatenated_witness :
  default [] (markers_ (readPLT_all [[3; 5]; [1; 6]; [3; 0x82; 0x2c; 7]]
                                    (readPLT [3; 4] 2 init).2) !! 3)
  = default [] (markers_ (readPLT [3; 4] 2 init).2 !! 3)
    ++ concat ((fun seg => u32 <$> varints 0 (tail seg))
                 <$> filter (fun seg => byte_at seg 0 = 3)
                       [[3; 5]; [1; 6]; [3; 0x82; 0x2c; 7]]).
Proof.
  apply (plt_same_index_concatenated [[3; 5]; [1; 6]; [3; 0x82; 0x2c; 7]]
           (readPLT [3; 4] 2 init).2 3).
  - intros H. apply (f_equal (fun m => m !! 3)) in H. vm_compute in H. discriminate.
  - reflexivity.
  - repeat constructor; simpl; lia.
Defined.

End PLStandard.

(** * Further properties of the tile length markers *)

Section TLMRead.
Import TLM.

Lemma push_lookup i info (m : gmap Z (list TilePartLengthInfo)) k :
  push i info m !! k
  = if decide (k = i) then Some (default [] (m !! i) ++ [info]) else m !! k.
Proof.
  unfold push. destruct (m !! i) as [vec|] eqn:E; destruct (decide (k = i)) as [->|Hne];
    by rewrite ?lookup_insert_eq, ?lookup_insert_ne.
Qed.

Section Entries.
Variables (data : list Z) (L_iT bpl i_TLM : Z).

Abbreviation entry := (TLMWalk.entry_at data L_iT bpl).

Lemma read_entries_spec n : forall pos T s,
  0 <= L_iT -> 0 <= tileCount_ s < 65536 ->
  let s' := read_entries n data pos L_iT bpl i_TLM T s in
  (forall k, markers_ s' !! k
     = if decide (k = i_TLM /\ n <> 0%nat)
       then Some (default [] (markers_ s !! k)
                  ++ (entry (hasTileIndices_ s) pos T (tileCount_ s) <$> seq 0 n))
       else markers_ s !! k)
  /\ hasTileIndices_ s' = hasTileIndices_ s /\ valid_ s' = valid_ s
  /\ tileCount_ s'
     = if hasTileIndices_ s then tileCount_ s else u16 (tileCount_ s + Z.of_nat n).
Proof.
  induction n as [|n IH]; intros pos T s HL Htc; cbv zeta.
  - simpl. repeat split.
    + intros k. destruct (decide _) as [[_ ?]|]; done.
    + destruct (hasTileIndices_ s); [done|].
      unfold u16. rewrite Z.add_0_r, Z.mod_small; lia.
  - cbn [read_entries].
    set (T' := if negb (L_iT =? 0) then grk_read data pos (Z.to_nat L_iT) 0 else T).
    set (pos1 := if negb (L_iT =? 0) then (pos + Z.to_nat L_iT)%nat else pos).
    assert (pos1 = (pos + Z.to_nat L_iT)%nat) as Hpos1.
    { unfold pos1. destruct (L_iT =? 0) eqn:E; simpl; [|done].
      apply Z.eqb_eq in E. rewrite E. simpl. lia. }
    set (info := if hasTileIndices_ s then _ else _).
    set (s1 := mkTLM _ _ _ _ _ _ _).
    assert (0 <= tileCount_ s1 < 65536) as Htc1.
    { unfold s1. cbn [tileCount_]. destruct (hasTileIndices_ s); [done|].
      unfold u16. apply Z.mod_pos_bound. lia. }
    destruct (IH (pos1 + Z.to_nat bpl)%nat T' s1 HL Htc1) as (H1 & H2 & H3 & H4).
    assert (info = entry (hasTileIndices_ s) pos T (tileCount_ s) 0) as Hinfo.
    { unfold info, TLMWalk.entry_at. rewrite Hpos1. simpl Nat.mul. rewrite !Nat.add_0_r, Z.add_0_r.
      destruct (hasTileIndices_ s); [done|].
      f_equal. unfold u16. rewrite Z.mod_small; lia. }
    assert (forall j, entry (hasTileIndices_ s1) (pos1 + Z.to_nat bpl) T' (tileCount_ s1) j
                      = entry (hasTileIndices_ s) pos T (tileCount_ s) (S j)) as Hent.
    { intros j. unfold TLMWalk.entry_at, s1. cbn [hasTileIndices_ tileCount_]. rewrite Hpos1.
      replace (pos + Z.to_nat L_iT + Z.to_nat bpl + j * (Z.to_nat L_iT + Z.to_nat bpl))%nat
        with (pos + S j * (Z.to_nat L_iT + Z.to_nat bpl))%nat by lia.
      f_equal. destruct (hasTileIndices_ s).
      - unfold T'. destruct (negb (L_iT =? 0)) eqn:E; [done|].
        done.
      - unfold u16. rewrite Zplus_mod_idemp_l. f_equal. lia. }
    repeat split.
    + intros k. rewrite H1.
      rewrite (list_fmap_ext _ (entry (hasTileIndices_ s) pos T (tileCount_ s) ∘ S)
                 (seq 0 n) (fun _ j _ => Hent j)).
      rewrite list_fmap_compose, fmap_S_seq.
      unfold s1. cbn [markers_]. rewrite !push_lookup.
      cbn [seq]. rewrite fmap_cons, <- Hinfo.
      destruct (decide (k = i_TLM)) as [->|Hne].
      * rewrite (decide_True (P := i_TLM = i_TLM /\ S n <> 0%nat)) by done.
        destruct (decide (i_TLM = i_TLM /\ n <> 0%nat)) as [_|Hn].
        -- cbn [from_option id]. by rewrite <- app_assoc.
        -- assert (n = 0%nat) as -> by (destruct n; [done|exfalso; apply Hn; done]).
           done.
      * rewrite !decide_False by (intros [? _]; done). done.
    + by rewrite H2.
    + by rewrite H3.
    + rewrite H4. unfold s1. cbn [hasTileIndices_ tileCount_].
      destruct (hasTileIndices_ s); [done|].
      unfold u16. rewrite Zplus_mod_idemp_l. f_equal. lia.
Qed.

End Entries.

Lemma read_unfold data hs s :
  6 <= hs < 65536 ->
  Z.land (byte_at data 1) (Z.lnot 0x70) = 0 ->
  let L := byte_at data 1 in
  let bpl := if negb (Z.land (Z.shiftr L 6) 0x1 =? 0) then 4 else 2 in
  let L_iT := Z.land (Z.shiftr L 4) 0x3 in
  let s1 :=
    if bool_decide (markers_ s = ∅) then
      mkTLM (markers_ s) (markerIndex_ s) (markerTilePartIndex_ s) (curr_vec_ s)
            (valid_ s) (negb (L_iT =? 0)) (tileCount_ s)
    else if (hasTileIndices_ s && (L_iT =? 0))
            || (negb (hasTileIndices_ s) && negb (L_iT =? 0)) then
      mkTLM (markers_ s) (markerIndex_ s) (markerTilePartIndex_ s) (curr_vec_ s)
            false (hasTileIndices_ s) (tileCount_ s)
    else s in
  read data hs s
  = if negb ((hs - 2) mod (bpl + L_iT) =? 0) then (false, s1)
    else (true, read_entries (Z.to_nat (u8 ((hs - 2) / (bpl + L_iT)))) data 2 L_iT
                             bpl (byte_at data 0) 0 s1).
Proof.
  intros Hhs HL. cbv zeta. unfold read, tlm_marker_start_bytes.
  destruct (hs <? 6) eqn:E; [apply Z.ltb_lt in E; lia|].
  rewrite HL. simpl (negb (0 =? 0)). cbv iota.
  rewrite (u16_small (hs - 2)) by lia. done.
Qed.

Lemma L_iT_range L : 0 <= Z.land (Z.shiftr L 4) 0x3 < 4.
Proof.
  change 3 with (Z.ones 2). rewrite Z.land_ones by lia.
  apply Z.mod_pos_bound. lia.
Qed.

Lemma tlm_read_entries_lookup (data : list Z) (hs : Z) (s : TileLengthMarkers)
    (k : Z) :
  6 <= hs < 65536 ->
  0 <= tileCount_ s < 65536 ->
  Z.land (byte_at data 1) (Z.lnot 0x70) = 0 ->
  let L := byte_at data 1 in
  let bpl := if negb (Z.land (Z.shiftr L 6) 0x1 =? 0) then 4 else 2 in
  let L_iT := Z.land (Z.shiftr L 4) 0x3 in
  let has := if bool_decide (markers_ s = ∅) then negb (L_iT =? 0)
             else hasTileIndices_ s in
  let n := Z.to_nat (u8 ((hs - 2) / (bpl + L_iT))) in
  (hs - 2) mod (bpl + L_iT) = 0 ->
  (read data hs s).1 = true
  /\ markers_ (read data hs s).2 !! k
     = if decide (k = byte_at data 0 /\ n <> 0%nat)
       then Some (default [] (markers_ s !! k)
                  ++ (TLMWalk.entry_at data L_iT bpl has 2 0 (tileCount_ s) <$> seq 0 n))
       else markers_ s !! k.
Proof.
  intros Hhs Htc HL. cbv zeta. intros Hq.
  rewrite (read_unfold data hs s Hhs HL). cbv zeta.
  rewrite Hq. simpl (negb (0 =? 0)). cbv iota. split; [done|].
  set (s1 := if bool_decide _ then _ else _).
  assert (markers_ s1 = markers_ s /\ tileCount_ s1 = tileCount_ s
          /\ hasTileIndices_ s1
             = if bool_decide (markers_ s = ∅)
               then negb (Z.land (Z.shiftr (byte_at data 1) 4) 3 =? 0)
               else hasTileIndices_ s) as (Hm & Ht & Hh).
  { unfold s1. destruct (bool_decide _); [done|]. by destruct (_ || _). }
  pose proof (L_iT_range (byte_at data 1)) as HLr.
  destruct (read_entries_spec data (Z.land (Z.shiftr (byte_at data 1) 4) 3)
              (if negb (Z.land (Z.shiftr (byte_at data 1) 6) 1 =? 0) then 4 else 2)
              (byte_at data 0)
              (Z.to_nat (u8 ((hs - 2) / ((if negb (Z.land (Z.shiftr (byte_at data 1) 6) 1 =? 0) then 4 else 2) + Z.land (Z.shiftr (byte_at data 1) 4) 3)))) 2 0 s1
              ltac:(lia) ltac:(lia)) as (H1 & _).
  rewrite H1, Hm, Ht, Hh. done.
Qed.

(** X7. A TLM segment of admissible size whose L byte has no bit outside
    0x70 set, and whose payload is a whole number of entries, is accepted;
    the store then holds, under the signaled index Ztlm, what it held there
    followed by the entries of the segment in their order, entry [j] with
    the big-endian length found at its offset and with the signaled tile
    index, or with the running tile count where the store carries no tile
    indices; every other marker of the store is as it was. The number of
    entries taken is the quotient of payload and entry size reduced to
    8 bits. *)
Theorem tlm_read_appends_entries (data : list Z) (hs : Z) (s : TileLengthMarkers)
    (k : Z) :
  6 <= hs < 65536 ->
  0 <= tileCount_ s < 65536 ->
  Z.land (byte_at data 1) (Z.lnot 0x70) = 0 ->
  let L := byte_at data 1 in
  let bpl := if negb (Z.land (Z.shiftr L 6) 0x1 =? 0) then 4 else 2 in
  let L_iT := Z.land (Z.shiftr L 4) 0x3 in
  let has := if bool_decide (markers_ s = ∅) then negb (L_iT =? 0)
             else hasTileIndices_ s in
  let n := Z.to_nat (u8 ((hs - 2) / (bpl + L_iT))) in
  (hs - 2) mod (bpl + L_iT) = 0 ->
  (read data hs s).1 = true
  /\ markers_ (read data hs s).2 !! k
     = if decide (k = byte_at data 0 /\ n <> 0%nat)
       then Some (default [] (markers_ s !! k)
                  ++ (TLMWalk.entry_at data L_iT bpl has 2 0 (tileCount_ s) <$> seq 0 n))
       else markers_ s !! k.
Proof. apply tlm_read_entries_lookup. Qed.

Lemma tlm_read_appends_entries_witness :
  (read [0; 0x10; 0; 0; 9; 1; 0; 7] 8 init).1 = true
  /\ markers_ (read [0; 0x10; 0; 0; 9; 1; 0; 7] 8 init).2 !! 0
     = Some [mkInfo 0 9; mkInfo 1 7].
Proof.
  apply (tlm_read_appends_entries [0; 0x10; 0; 0; 9; 1; 0; 7] 8 init 0).
  - lia.
  - simpl. lia.
  - reflexivity.
  - reflexivity.
Defined.

Lemma read_entries_flags n : forall data pos L_iT bpl i_TLM T s,
  let s' := read_entries n data pos L_iT bpl i_TLM T s in
  hasTileIndices_ s' = hasTileIndices_ s /\ valid_ s' = valid_ s.
Proof.
  induction n as [|n IH]; intros data pos L_iT bpl i_TLM T s; cbv zeta; [done|].
  cbn [read_entries].
  match goal with |- context [read_entries n ?d ?p ?l ?b ?i ?t ?s1] =>
    destruct (IH d p l b i t s1) as [-> ->] end.
  done.
Qed.

(** X8. A TLM segment that carries tile indices, read into a store that
    holds markers without tile indices, or the other way round, switches
    the store to invalid and leaves its choice about tile indices as it
    was; the segment is not rejected for that: when its payload is a whole
    number of entries the read still succeeds. *)
Theorem tlm_read_mixed_indices (data : list Z) (hs : Z) (s : TileLengthMarkers) :
  markers_ s <> ∅ ->
  6 <= hs < 65536 ->
  Z.land (byte_at data 1) (Z.lnot 0x70) = 0 ->
  let L := byte_at data 1 in
  let bpl := if negb (Z.land (Z.shiftr L 6) 0x1 =? 0) then 4 else 2 in
  let L_iT := Z.land (Z.shiftr L 4) 0x3 in
  hasTileIndices_ s = (L_iT =? 0) ->
  valid_ (read data hs s).2 = false
  /\ hasTileIndices_ (read data hs s).2 = hasTileIndices_ s
  /\ (read data hs s).1 = ((hs - 2) mod (bpl + L_iT) =? 0).
Proof.
  intros Hne Hhs HL. cbv zeta. intros Hmix.
  rewrite (read_unfold data hs s Hhs HL). cbv zeta.
  rewrite bool_decide_eq_false_2 by done.
  rewrite Hmix.
  pose proof (L_iT_range (byte_at data 1)) as HLr.
  set (bpl := if negb (Z.land (Z.shiftr (byte_at data 1) 6) 1 =? 0) then 4 else 2).
  set (L_iT := Z.land (Z.shiftr (byte_at data 1) 4) 3) in *.
  assert ((L_iT =? 0) && (L_iT =? 0) || negb (L_iT =? 0) && negb (L_iT =? 0) = true)
    as -> by (by destruct (L_iT =? 0)).
  destruct ((hs - 2) mod (bpl + L_iT) =? 0) eqn:E; simpl; [|done].
  destruct (read_entries_flags (Z.to_nat (u8 ((hs - 2) / (bpl + L_iT)))) data 2 L_iT bpl
              (byte_at data 0) 0
              (mkTLM (markers_ s) (markerIndex_ s) (markerTilePartIndex_ s) (curr_vec_ s)
                     false (L_iT =? 0) (tileCount_ s)))
    as [-> ->].
  done.
Qed.

Lemma tlm_read_mixed_indices_witness :
  valid_ (read [1; 0x10; 0; 0; 5; 1; 0; 9] 8 (read [0; 0; 0; 7; 0; 0] 6 init).2).2 = false
  /\ hasTileIndices_ (read [1; 0x10; 0; 0; 5; 1; 0; 9] 8
                           (read [0; 0; 0; 7; 0; 0] 6 init).2).2 = false
  /\ (read [1; 0x10; 0; 0; 5; 1; 0; 9] 8 (read [0; 0; 0; 7; 0; 0] 6 init).2).1 = true.
Proof.
  apply (tlm_read_mixed_indices [1; 0x10; 0; 0; 5; 1; 0; 9] 8
           (read [0; 0; 0; 7; 0; 0] 6 init).2).
  - intros H. apply (f_equal (fun m => m !! 0)) in H. vm_compute in H. discriminate.
  - lia.
  - reflexivity.
  - reflexivity.
Defined.

(** X9. A TLM segment that [read] rejects leaves every marker of the store
    and the running tile count as they were. *)
Theorem tlm_read_rejected_keeps_store (data : list Z) (hs : Z) (s : TileLengthMarkers) :
  (read data hs s).1 = false ->
  markers_ (read data hs s).2 = markers_ s
  /\ tileCount_ (read data hs s).2 = tileCount_ s.
Proof.
  unfold read. destruct (hs <? _); [done|].
  destruct (negb (Z.land _ _ =? 0)); [done|].
  destruct (negb (_ mod _ =? 0)); [|done]. intros _. simpl.
  destruct (bool_decide _); [done|]. by destruct (_ || _).
Qed.

Lemma tlm_read_rejected_keeps_store_witness :
  let s := (read [0; 0x10; 0; 0; 7; 1; 0; 9] 8 init).2 in
  markers_ s !! 0 = Some [mkInfo 0 7; mkInfo 1 9]
  /\ (read [1; 0x10; 0; 5; 0; 9; 0] 7 s).1 = false
  /\ markers_ (read [1; 0x10; 0; 5; 0; 9; 0] 7 s).2 = markers_ s
  /\ tileCount_ (read [1; 0x10; 0; 5; 0; 9; 0] 7 s).2 = tileCount_ s.
Proof.
  cbv zeta. split; [vm_compute; reflexivity|]. split; [vm_compute; reflexivity|].
  apply (tlm_read_rejected_keeps_store [1; 0x10; 0; 5; 0; 9; 0] 7
           (read [0; 0x10; 0; 0; 7; 1; 0; 9] 8 init).2).
  vm_compute. reflexivity.
Defined.

Lemma steps_from_seq n : forall a,
  steps_from (Z.of_nat a) (Z.of_nat <$> seq a n) = true
  /\ steps_from (Z.of_nat a) (Z.of_nat <$> seq (S a) n) = true.
Proof.
  induction n as [|n IH]; intros a; [done|].
  destruct (IH a) as [_ H2]. destruct (IH (S a)) as [_ H3].
  cbn [seq]. rewrite !fmap_cons. cbn [steps_from]. rewrite H2, H3.
  split; [by rewrite Z.eqb_refl|].
  assert ((Z.of_nat (S a) =? Z.of_nat a + 1) = true) as -> by (apply Z.eqb_eq; lia).
  by rewrite orb_true_r.
Qed.

(** X10. A single TLM segment without tile indices, holding between 1 and
    255 entries and read into a fresh store, numbers its entries with the
    tile indices 0, 1, 2, ... in their order; [validate] then accepts the
    store for exactly one number of tiles, the number of entries. *)
Theorem tlm_without_indices_validates (data : list Z) (hs numTiles : Z) :
  6 <= hs < 65536 ->
  Z.land (byte_at data 1) (Z.lnot 0x70) = 0 ->
  let L := byte_at data 1 in
  let bpl := if negb (Z.land (Z.shiftr L 6) 0x1 =? 0) then 4 else 2 in
  Z.land (Z.shiftr L 4) 0x3 = 0 ->
  (hs - 2) mod bpl = 0 ->
  let n := u8 ((hs - 2) / bpl) in
  1 <= n ->
  (forall j v, markers_ (read data hs init).2 !! byte_at data 0 = Some v ->
               (j < List.length v)%nat -> tileIndex <$> v !! j = Some (Z.of_nat j))
  /\ (validate numTiles (read data hs init).2).1 = (numTiles =? n).
Proof.
  intros Hhs HL. cbv zeta. intros HiT Hq Hn.
  set (bpl := if negb (Z.land (Z.shiftr (byte_at data 1) 6) 1 =? 0) then 4 else 2) in *.
  set (n := Z.to_nat (u8 ((hs - 2) / bpl))).
  assert (0 <= u8 ((hs - 2) / bpl) < 256) as Hu by (apply Z.mod_pos_bound; lia).
  set (ents := TLMWalk.entry_at data 0 bpl false 2 0 0 <$> seq 0 n).
  assert (markers_ (read data hs init).2 = {[ byte_at data 0 := ents ]}) as Hm.
  { apply map_eq. intros k.
    destruct (tlm_read_entries_lookup data hs init k Hhs ltac:(simpl; lia) HL) as (_ & ->).
    - rewrite HiT, Z.add_0_r. by fold bpl.
    - rewrite HiT, Z.add_0_r. fold bpl. fold n. change (bool_decide _) with true.
      cbv iota. change (negb (0 =? 0)) with false.
      destruct (decide _) as [[-> _]|Hk].
      + by rewrite lookup_singleton_eq.
      + destruct (decide (k = byte_at data 0)) as [->|Hne].
        * exfalso. apply Hk. split; [done|]. unfold n. lia.
        * by rewrite lookup_singleton_ne. }
  assert (tileIndex <$> ents = Z.of_nat <$> seq 0 n) as Hidx.
  { unfold ents. rewrite <- list_fmap_compose. apply list_fmap_ext.
    intros i j Hj. simpl. unfold u16. apply Z.mod_small.
    apply lookup_seq in Hj as [-> Hlt]. unfold n in Hlt. lia. }
  split.
  - intros j v. rewrite Hm, lookup_singleton_eq. intros [= <-] Hj.
    rewrite <- list_lookup_fmap, Hidx, list_lookup_fmap, lookup_seq_lt; [done|].
    unfold ents in Hj. by rewrite length_fmap, length_seq in Hj.
  - rewrite validate_indices. cbv zeta. cbn [fst]. rewrite Hm.
    unfold ordered_vectors. rewrite map_to_list_singleton.
    change (concat _) with (ents ++ []). rewrite app_nil_r.
    rewrite (validate_vec_steps ents 0).
    + cbn [fst snd andb]. rewrite Hidx.
      destruct n as [|n'] eqn:En; [unfold n in En; lia|].
      rewrite seq_S, fmap_app. cbn [fmap list_fmap]. rewrite last_snoc. cbn [from_option id].
      destruct (numTiles =? _) eqn:E.
      * apply Z.eqb_eq in E. apply Z.eqb_eq. unfold n in En. lia.
      * apply Z.eqb_neq in E. apply Z.eqb_neq. unfold n in En. lia.
    + rewrite Hidx. apply forallb_forall. intros x Hx.
      apply in_map_iff in Hx as (j & <- & Hj%in_seq).
      unfold is_u16, n in *. apply andb_true_iff. split; [apply Z.leb_le|apply Z.ltb_lt]; lia.
    + rewrite Hidx. apply (steps_from_seq n 0).
Qed.

Lemma tlm_without_indices_validates_witness :
  (forall j v, markers_ (read [0; 0; 0; 7; 0; 9; 0; 4] 8 init).2 !! 0 = Some v ->
               (j < List.length v)%nat -> tileIndex <$> v !! j = Some (Z.of_nat j))
  /\ (validate 3 (read [0; 0; 0; 7; 0; 9; 0; 4] 8 init).2).1 = true.
Proof.
  apply (tlm_without_indices_validates [0; 0; 0; 7; 0; 9; 0; 4] 8 3).
  - lia.
  - reflexivity.
  - reflexivity.
  - reflexivity.
  - vm_compute. discriminate.
Defined.
End TLMRead.

Section TLMSkip.
Import TLM TLMWalk.

(** The widths of the counters [markerIndex_] and [markerTilePartIndex_]. *)
Variables ib pb : Z.

Local Abbreviation getNext := (TLMWalk.getNext ib pb).
Local Abbreviation skipTo_loop := (TLMWalk.skipTo_loop ib pb).
Local Abbreviation skipTo := (TLMWalk.skipTo ib pb).

Section Walk.
Variable M : gmap Z (list TilePartLengthInfo).
Variable vs : list (list TilePartLengthInfo).
Hypothesis M_size : size M = List.length vs.
Hypothesis M_lookup : forall i v, vs !! i = Some v -> M !! Z.of_nat i = Some v.
Hypothesis vs_nonempty : Forall (fun v => v <> []) vs.
Hypothesis vs_count : Z.of_nat (List.length vs) < 2 ^ ib.
Hypothesis vs_lengths : Forall (fun v => Z.of_nat (List.length v) < 2 ^ pb) vs.

(** The store stands before the entries [l]: its cursor is at entry [j] of
    vector [i], or it is past the last vector. *)
Local Abbreviation walk s l :=
  (valid_ s = true /\ markers_ s = M
   /\ ((exists i j v, vs !! i = Some v /\ (j <= List.length v)%nat
          /\ curr_vec_ s = Some (Z.of_nat i) /\ markerIndex_ s = Z.of_nat i
          /\ markerTilePartIndex_ s = Z.of_nat j
          /\ l = drop j v ++ concat (drop (S i) vs))
       \/ (curr_vec_ s = None /\ l = []))).

Lemma getNext_walk s l :
  walk s l ->
  exists s', getNext s = Some (head l, s') /\ walk s' (tail l).
Proof.
  intros (Hv & HM & [(i & j & v & Hi & Hj & Hc & Hmi & Hp & ->)|[Hc ->]]).
  2:{ exists s. unfold TLMWalk.getNext. rewrite Hv, Hc. simpl. eauto 10. }
  pose proof (lookup_lt_Some _ _ _ Hi) as Hlt.
  pose proof (proj1 (Forall_lookup _ _) vs_lengths _ _ Hi) as Hlen. cbv beta in Hlen.
  unfold TLMWalk.getNext. rewrite Hv, Hc, HM, (M_lookup _ _ Hi), Hp, Hmi. cbn [negb].
  rewrite (Z.mod_small (Z.of_nat i + 1)) by lia.
  destruct (Z.of_nat j =? Z.of_nat (List.length v)) eqn:E.
  - apply Z.eqb_eq in E. assert (j = List.length v) as -> by lia.
    rewrite drop_all. cbn [app].
    rewrite M_size.
    destruct (Z.of_nat i + 1 <? Z.of_nat (List.length vs)) eqn:E1.
    + apply Z.ltb_lt in E1.
      destruct (lookup_lt_is_Some_2 vs (S i) ltac:(lia)) as [v' Hv'].
      pose proof (M_lookup _ _ Hv') as Hl.
      replace (Z.of_nat (S i)) with (Z.of_nat i + 1) in Hl by lia.
      rewrite Hl. cbn [curr_vec_ markers_ markerTilePartIndex_]. rewrite Hl.
      pose proof (proj1 (Forall_lookup _ _) vs_nonempty _ _ Hv') as Hne.
      destruct v' as [|x v']; [done|].
      change ((x :: v') !! Z.to_nat 0) with (Some x). cbv beta iota.
      rewrite (drop_S vs (x :: v') (S i)) by done. cbn [concat app head tail].
      pose proof (proj1 (Forall_lookup _ _) vs_lengths _ _ Hv') as Hlen'.
      cbv beta in Hlen'. cbn [List.length] in Hlen'.
      rewrite (Z.mod_small (0 + 1)) by lia.
      eexists. split; [done|]. cbn [valid_ markers_ curr_vec_ markerIndex_
                                    markerTilePartIndex_].
      split; [done|]. split; [done|]. left.
      exists (S i), 1%nat, (x :: v'). repeat split; try done.
      * simpl. lia.
      * f_equal. lia.
      * lia.
    + apply Z.ltb_ge in E1. cbn [curr_vec_].
      rewrite drop_ge by lia. cbn [concat head tail].
      eexists. split; [done|]. cbn [valid_ markers_ curr_vec_]. eauto 10.
  - apply Z.eqb_neq in E. cbv beta iota zeta.
    rewrite Hc, HM, (M_lookup _ _ Hi), Hp, Nat2Z.id.
    destruct (lookup_lt_is_Some_2 v j ltac:(lia)) as [x Hx].
    rewrite Hx. rewrite (drop_S v x j) by done. cbn [app head tail].
    rewrite (Z.mod_small (Z.of_nat j + 1)) by lia.
    eexists. split; [done|]. cbn [valid_ markers_ curr_vec_ markerIndex_
                                  markerTilePartIndex_].
    split; [done|]. split; [done|]. left.
    exists i, (S j), v. apply lookup_lt_Some in Hx. repeat split; try done; lia.
Qed.

Lemma rewind_walk s :
  valid_ s = true -> markers_ s = M -> walk (rewind s) (concat vs).
Proof.
  intros Hv HM. unfold rewind. cbn [valid_ markers_ curr_vec_ markerIndex_
                                    markerTilePartIndex_].
  split; [done|]. split; [done|]. rewrite HM.
  destruct (vs !! 0%nat) as [v0|] eqn:E0.
  - pose proof (M_lookup _ _ E0) as Hl. change (Z.of_nat 0) with 0 in Hl. rewrite Hl.
    left. exists 0%nat, 0%nat, v0. repeat split; try done; [lia|].
    transitivity (concat (drop 0 vs)); [by rewrite drop_0|].
    rewrite (drop_S vs v0 0 E0). by rewrite drop_0.
  - right. apply lookup_ge_None in E0.
    assert (size M = 0%nat) as Hz by lia.
    apply map_size_empty_inv in Hz. rewrite Hz.
    split; [done|]. assert (vs = []) as Hnil by (apply nil_length_inv; lia).
    by rewrite Hnil.
Qed.


Variable t : Z.

Lemma skipTo_loop_found pre : forall fuel e0 rest skip s e post,
  walk s rest -> e0 :: rest = pre ++ e :: post ->
  Forall (fun x => tileIndex x <> t /\ TLM.length x <> 0) pre ->
  tileIndex e = t -> (List.length pre <= fuel)%nat ->
  exists s', skipTo_loop fuel t (Some e0) skip s
             = Some (Some (foldl (fun a x => u64 (a + TLM.length x)) skip pre), s').
Proof.
  induction pre as [|x pre IH]; intros fuel e0 rest skip s e post Hw Heq Hpre He Hf.
  - simpl in Heq. injection Heq as -> _.
    exists s. destruct fuel; simpl; by rewrite He, Z.eqb_refl.
  - simpl in Heq. injection Heq as -> ->.
    apply Forall_cons in Hpre as [[Hx1 Hx2] Hpre'].
    destruct fuel as [|fuel]; [simpl in Hf; lia|].
    cbn [skipTo_loop].
    destruct (tileIndex x =? t) eqn:E; [apply Z.eqb_eq in E; done|]. cbn [negb].
    destruct (TLM.length x =? 0) eqn:E0; [apply Z.eqb_eq in E0; done|].
    destruct (getNext_walk s _ Hw) as (s1 & -> & Hw1).
    destruct pre as [|y pre]; cbn [app head tail] in *.
    + apply (IH fuel e post _ s1 e post Hw1 eq_refl Hpre' He). simpl. lia.
    + apply (IH fuel y (pre ++ e :: post) _ s1 e post Hw1 eq_refl Hpre' He).
      simpl in *. lia.
Qed.

Lemma skipTo_loop_zero pre : forall fuel e0 rest skip s z post,
  walk s rest -> e0 :: rest = pre ++ z :: post ->
  Forall (fun x => tileIndex x <> t /\ TLM.length x <> 0) pre ->
  tileIndex z <> t -> TLM.length z = 0 -> (List.length pre < fuel)%nat ->
  exists s', skipTo_loop fuel t (Some e0) skip s = Some (None, s').
Proof.
  induction pre as [|x pre IH]; intros fuel e0 rest skip s z post Hw Heq Hpre Hz Hl Hf.
  - simpl in Heq. injection Heq as -> _.
    destruct fuel as [|fuel]; [lia|]. exists s. cbn [skipTo_loop].
    destruct (tileIndex z =? t) eqn:E; [apply Z.eqb_eq in E; done|]. cbn [negb].
    by rewrite Hl.
  - simpl in Heq. injection Heq as -> ->.
    apply Forall_cons in Hpre as [[Hx1 Hx2] Hpre'].
    destruct fuel as [|fuel]; [simpl in Hf; lia|].
    cbn [skipTo_loop].
    destruct (tileIndex x =? t) eqn:E; [apply Z.eqb_eq in E; done|]. cbn [negb].
    destruct (TLM.length x =? 0) eqn:E0; [apply Z.eqb_eq in E0; done|].
    destruct (getNext_walk s _ Hw) as (s1 & -> & Hw1).
    destruct pre as [|y pre]; cbn [app head tail] in *.
    + apply (IH fuel z post _ s1 z post Hw1 eq_refl Hpre' Hz Hl). simpl in *. lia.
    + apply (IH fuel y (pre ++ z :: post) _ s1 z post Hw1 eq_refl Hpre' Hz Hl).
      simpl in *. lia.
Qed.

Lemma skipTo_loop_missing rest : forall fuel e0 skip s,
  walk s rest -> Forall (fun x => tileIndex x <> t) (e0 :: rest) ->
  (List.length rest < fuel)%nat ->
  exists s', skipTo_loop fuel t (Some e0) skip s = Some (None, s').
Proof.
  induction rest as [|e1 rest IH]; intros fuel e0 skip s Hw Hall Hf;
    apply Forall_cons in Hall as [H0 Hall'];
    (destruct fuel as [|fuel]; [simpl in Hf; lia|]); cbn [skipTo_loop];
    (destruct (tileIndex e0 =? t) eqn:E; [apply Z.eqb_eq in E; done|]); cbn [negb];
    (destruct (TLM.length e0 =? 0); [by eexists|]);
    destruct (getNext_walk s _ Hw) as (s1 & -> & Hw1); cbn [head tail] in *.
  - destruct fuel; by eexists.
  - apply IH; [done|done|simpl in Hf; lia].
Qed.

Lemma u64_fold (pre : list TilePartLengthInfo) : forall c a,
  u64 (c + foldl (fun a x => u64 (a + TLM.length x)) a pre)
  = u64 (c + a + foldr Z.add 0 (TLM.length <$> pre)).
Proof.
  induction pre as [|x pre IH]; intros c a.
  - simpl. f_equal. lia.
  - rewrite fmap_cons. cbn [foldl foldr]. rewrite IH. unfold u64.
    set (S' := foldr Z.add 0 (TLM.length <$> pre)).
    replace (c + (a + TLM.length x) mod 18446744073709551616 + S')
      with ((a + TLM.length x) mod 18446744073709551616 + (c + S')) by lia.
    rewrite Zplus_mod_idemp_l. f_equal. lia.
Qed.

Lemma skipTo_spec fuel firstSotPos s :
  valid_ s = true -> markers_ s = M ->
  (forall pre e post,
      concat vs = pre ++ e :: post ->
      Forall (fun x => tileIndex x <> t /\ TLM.length x <> 0) pre ->
      tileIndex e = t -> (List.length pre <= fuel)%nat ->
      exists s', skipTo fuel t firstSotPos s
                 = Some (Some (u64 (firstSotPos + foldr Z.add 0 (TLM.length <$> pre))), s'))
  /\ (forall pre z post,
      concat vs = pre ++ z :: post ->
      Forall (fun x => tileIndex x <> t /\ TLM.length x <> 0) pre ->
      tileIndex z <> t -> TLM.length z = 0 -> (List.length pre < fuel)%nat ->
      exists s', skipTo fuel t firstSotPos s = Some (None, s'))
  /\ (Forall (fun x => tileIndex x <> t) (concat vs) ->
      (List.length (concat vs) <= fuel)%nat ->
      exists s', skipTo fuel t firstSotPos s = Some (None, s')).
Proof.
  intros Hv HM. pose proof (rewind_walk s Hv HM) as Hw.
  destruct (getNext_walk _ _ Hw) as (s1 & Hg & Hw1).
  unfold skipTo. rewrite Hg. clear Hg Hw.
  split; [|split].
  - intros pre e post Heq Hpre He Hf. rewrite Heq in *.
    destruct pre as [|x pre]; cbn [app head tail] in *.
    + destruct (skipTo_loop_found [] fuel e post 0 s1 e post Hw1 eq_refl Hpre He Hf)
        as (s' & ->). eexists. simpl. done.
    + destruct (skipTo_loop_found (x :: pre) fuel x (pre ++ e :: post) 0 s1 e post
                  Hw1 eq_refl Hpre He Hf) as (s' & ->).
      eexists. rewrite u64_fold. by rewrite Z.add_0_r.
  - intros pre z post Heq Hpre Hz Hl Hf. rewrite Heq in *.
    destruct pre as [|x pre]; cbn [app head tail] in *.
    + destruct (skipTo_loop_zero [] fuel z post 0 s1 z post Hw1 eq_refl Hpre Hz Hl Hf)
        as (s' & ->). by eexists.
    + destruct (skipTo_loop_zero (x :: pre) fuel x (pre ++ z :: post) 0 s1 z post
                  Hw1 eq_refl Hpre Hz Hl Hf) as (s' & ->). by eexists.
  - intros Hall Hf. destruct (concat vs) as [|e0 rest]; cbn [head tail] in *.
    + destruct fuel; by eexists.
    + destruct (skipTo_loop_missing rest fuel e0 0 s1 Hw1 Hall ltac:(simpl in Hf; lia))
        as (s' & ->). by eexists.
Qed.

End Walk.

(** X11. On a validated store that holds a non-empty vector under each of
    the indices 0 .. n-1, with fewer vectors than the counter [markerIndex_]
    can count and in every vector fewer entries than the counter
    [markerTilePartIndex_] can count, [skipTo] walks the entries in the order
    of the store up to the first entry of the tile asked for. When every
    entry before it has a non-zero length, it seeks to the position of the
    first SOT plus the sum of these lengths (in 64 bit arithmetic). It
    returns false without a seek when an entry of length zero comes first,
    and when the store has no entry of the tile. *)
Theorem tlm_skipTo_offset (s : TileLengthMarkers) (vs : list (list TilePartLengthInfo))
    (t firstSotPos : Z) (fuel : nat) :
  valid_ s = true ->
  size (markers_ s) = List.length vs ->
  (forall i v, vs !! i = Some v -> markers_ s !! Z.of_nat i = Some v) ->
  Forall (fun v => v <> []) vs ->
  Z.of_nat (List.length vs) < 2 ^ ib ->
  Forall (fun v => Z.of_nat (List.length v) < 2 ^ pb) vs ->
  (forall pre e post,
      concat vs = pre ++ e :: post ->
      Forall (fun x => tileIndex x <> t /\ TLM.length x <> 0) pre ->
      tileIndex e = t -> (List.length pre <= fuel)%nat ->
      exists s', skipTo fuel t firstSotPos s
                 = Some (Some (u64 (firstSotPos + foldr Z.add 0 (TLM.length <$> pre))), s'))
  /\ (forall pre z post,
      concat vs = pre ++ z :: post ->
      Forall (fun x => tileIndex x <> t /\ TLM.length x <> 0) pre ->
      tileIndex z <> t -> TLM.length z = 0 -> (List.length pre < fuel)%nat ->
      exists s', skipTo fuel t firstSotPos s = Some (None, s'))
  /\ (Forall (fun x => tileIndex x <> t) (concat vs) ->
      (List.length (concat vs) <= fuel)%nat ->
      exists s', skipTo fuel t firstSotPos s = Some (None, s')).
Proof.
  intros Hv Hsize Hlook Hne Hcount Hlens.
  by apply (skipTo_spec (markers_ s) vs Hsize Hlook Hne Hcount Hlens t fuel firstSotPos s).
Qed.

Lemma valid_read data hs s : valid_ (read data hs s).2 = true -> valid_ s = true.
Proof.
  unfold read. destruct (hs <? _); [done|].
  destruct (negb (Z.land _ _ =? 0)); [done|].
  set (s1 := if bool_decide _ then _ else _).
  assert (valid_ s1 = true -> valid_ s = true) as H1.
  { unfold s1. destruct (bool_decide _); [done|]. by destruct (_ || _). }
  destruct (negb (_ mod _ =? 0)); [done|]. cbn [snd].
  match goal with |- context [read_entries ?n ?d ?p ?l ?b ?i ?t ?s1] =>
    destruct (read_entries_flags n d p l b i t s1) as [_ ->] end.
  done.
Qed.

(** X12. TLM segments read into a fresh store, however many and whatever
    their bytes, leave the store not valid as long as [validate] has not
    accepted it; [getNext] then returns no entry and [skipTo] returns false
    without a seek. *)
Theorem tlm_unvalidated_not_used (segs : list (list Z * Z)) (t firstSotPos : Z)
    (fuel : nat) :
  let s := foldl (fun s seg => (read seg.1 seg.2 s).2) init segs in
  valid_ s = false
  /\ getNext s = Some (None, s)
  /\ skipTo fuel t firstSotPos s = Some (None, rewind s).
Proof.
  cbv zeta.
  assert (forall s, valid_ s = false ->
            valid_ (foldl (fun s seg => (read seg.1 seg.2 s).2) s segs) = false) as Hf.
  { induction segs as [|seg segs IH]; intros s Hs; [done|]. simpl. apply IH.
    destruct (valid_ (read seg.1 seg.2 s).2) eqn:E; [|done].
    apply valid_read in E. congruence. }
  specialize (Hf init eq_refl).
  set (s := foldl _ init segs) in *.
  split; [done|]. split.
  - unfold getNext. by rewrite Hf.
  - unfold skipTo, getNext, rewind. cbn [valid_]. rewrite Hf. simpl.
    by destruct fuel.
Qed.

End TLMSkip.

Lemma tlm_skipTo_offset_witness :
  let s := (TLM.validate 3 (TLM.read [0; 0; 0; 7; 0; 9; 0; 4] 8
                               (TLM.read [0; 0; 0; 5] 4 TLM.init).2).2).2 in
  let s2 := (TLM.validate 3 (TLM.read [1; 0x50; 2; 0; 0; 0; 4] 7
                                (TLM.read [0; 0x10; 0; 0; 7; 1; 0; 9] 8 TLM.init).2).2).2 in
  (exists s', TLMWalk.skipTo 8 8 3 2 100 s = Some (Some 116, s'))
  /\ (exists s', TLMWalk.skipTo 8 8 3 2 100 s2 = Some (Some 116, s')).
Proof.
  cbv zeta. split.
  - destruct (tlm_skipTo_offset 8 8
                (TLM.validate 3 (TLM.read [0; 0; 0; 7; 0; 9; 0; 4] 8
                                   (TLM.read [0; 0; 0; 5] 4 TLM.init).2).2).2
                [[TLM.mkInfo 0 7; TLM.mkInfo 1 9; TLM.mkInfo 2 4]] 2 100 3) as (Ha & _).
    + vm_compute. reflexivity.
    + vm_compute. reflexivity.
    + intros [|i] v H; simpl in H; [injection H as <-; vm_compute; reflexivity|done].
    + repeat constructor; done.
    + vm_compute. reflexivity.
    + repeat constructor.
    + apply (Ha [TLM.mkInfo 0 7; TLM.mkInfo 1 9] (TLM.mkInfo 2 4) []).
      * reflexivity.
      * repeat constructor; simpl; lia.
      * reflexivity.
      * simpl. lia.
  - destruct (tlm_skipTo_offset 8 8
                (TLM.validate 3 (TLM.read [1; 0x50; 2; 0; 0; 0; 4] 7
                                   (TLM.read [0; 0x10; 0; 0; 7; 1; 0; 9] 8 TLM.init).2).2).2
                [[TLM.mkInfo 0 7; TLM.mkInfo 1 9]; [TLM.mkInfo 2 4]] 2 100 3) as (Ha & _).
    + vm_compute. reflexivity.
    + vm_compute. reflexivity.
    + intros [|[|i]] v H; simpl in H; [injection H as <-; vm_compute; reflexivity..|done].
    + repeat constructor; done.
    + vm_compute. reflexivity.
    + repeat constructor.
    + apply (Ha [TLM.mkInfo 0 7; TLM.mkInfo 1 9] (TLM.mkInfo 2 4) []).
      * reflexivity.
      * repeat constructor; simpl; lia.
      * reflexivity.
      * simpl. lia.
Defined.

(** * Further properties of the quantization markers *)

Section TileQCD.
Import CodeStream TileScope.

Variables NOQNT SIQNT : Z.
Variables EOC TPH_SOT DATA MS_EOC : Z.
Variable get_tcp : CodeStreamDecompress -> TileCodingParams.
Variable loop : CodeStreamDecompress -> bool * CodeStreamDecompress.
Variable merge_ppt init : CodeStreamDecompress -> bool.

Lemma maxTileDecompositions_loop_spec n : forall k l m,
  forallb (fun tccp => is_u8 (numresolutions tccp)) (take n (drop k l)) = true ->
  0 <= m ->
  maxTileDecompositions_loop n k l m
  = Z.max m (foldr Z.max 0 ((fun tccp => numresolutions tccp - 1)
                              <$> List.filter in_tile_qcd_scope (take n (drop k l)))).
Proof.
  induction n as [|n IH]; intros k l m Hr Hm; cbn [maxTileDecompositions_loop].
  - simpl. lia.
  - destruct (l !! k) as [tccp|] eqn:E.
    + assert (drop k l = tccp :: drop (S k) l) as Hd by (by apply drop_S).
      rewrite Hd in Hr |- *. cbn [take forallb List.filter] in Hr |- *.
      apply andb_true_iff in Hr as [Hr1 Hr2].
      unfold is_u8 in Hr1. unfold in_tile_qcd_scope at 1.
      destruct (numresolutions tccp =? 0) eqn:E0.
      * apply Z.eqb_eq in E0. rewrite IH by done.
        destruct (negb (fromQCC tccp && fromTileHeader tccp)); [|done].
        rewrite fmap_cons. cbn [foldr]. rewrite E0. lia.
      * apply Z.eqb_neq in E0.
        destruct (fromQCC tccp && fromTileHeader tccp); simpl negb; cbv iota;
          [by rewrite IH by done|].
        rewrite fmap_cons. cbn [foldr].
        unfold u8. rewrite Z.mod_small by lia.
        destruct (m <? numresolutions tccp - 1) eqn:Em.
        -- apply Z.ltb_lt in Em. rewrite IH by (done || lia). lia.
        -- apply Z.ltb_ge in Em. rewrite IH by (done || lia). lia.
    + apply lookup_ge_None in E. rewrite drop_ge by lia.
      rewrite IH.
      * rewrite drop_ge by lia. by rewrite !take_nil.
      * rewrite drop_ge by lia. by rewrite take_nil.
      * done.
Qed.

Lemma find_qcd_comp_first n : forall k l j q,
  (k <= j < k + n)%nat -> l !! j = Some q -> bound_by_tile_qcd q = true ->
  (forall i q', (k <= i < j)%nat -> l !! i = Some q' -> bound_by_tile_qcd q' = false) ->
  find_qcd_comp n k l = Some q.
Proof.
  induction n as [|n IH]; intros k l j q Hj Hl Hb Hfirst; [lia|].
  cbn [find_qcd_comp].
  destruct (decide (j = k)) as [->|Hne].
  - rewrite Hl. unfold bound_by_tile_qcd in Hb. by rewrite Hb.
  - assert (find_qcd_comp n (S k) l = Some q) as Hrec.
    { apply (IH (S k) l j q); [lia|done|done|]. intros i q' Hi. apply Hfirst. lia. }
    destruct (l !! k) as [q'|] eqn:E; [|done].
    pose proof (Hfirst k q' ltac:(lia) E) as Hq'. unfold bound_by_tile_qcd in Hq'.
    by rewrite Hq'.
Qed.

Abbreviation parse := (parseTileHeaderMarkers NOQNT SIQNT EOC TPH_SOT DATA MS_EOC
                                          get_tcp loop merge_ppt init).

(** X13. [parseTileHeaderMarkers], entered in another state than EOC, fails
    when, once the markers of the tile part headers are read, the
    quantization style of the main QCD is not SIQNT, the first component
    bound by the QCD of a tile header has a quantization style other than
    SIQNT, and the number of step sizes of this component is less than
    [3 * maxTileDecomps + 1], [maxTileDecomps] being the maximum of
    [numresolutions - 1] over the components that are not bound by the QCC
    of a tile header ([numresolutions] being an 8 bit value). *)
Theorem tile_qcd_step_sizes_checked (cs : CodeStreamDecompress) (k : nat)
    (q : TileComponentCodingParams) :
  let cs1 := (loop cs).2 in
  let tcp := get_tcp cs1 in
  let numComps := Z.to_nat (numcomps (m_headerImage cs1)) in
  state cs <> EOC ->
  forallb (fun tccp => is_u8 (numresolutions tccp)) (take numComps (tccps tcp)) = true ->
  main_qcd_qntsty tcp <> SIQNT ->
  (k < numComps)%nat -> tccps tcp !! k = Some q -> bound_by_tile_qcd q = true ->
  (forall i q', (i < k)%nat -> tccps tcp !! i = Some q' -> bound_by_tile_qcd q' = false) ->
  qntsty q <> SIQNT ->
  numStepSizes q < 3 * max_tile_qcd_decomps numComps (tccps tcp) + 1 ->
  (parse cs).1.1 = false.
Proof.
  intros cs1 tcp numComps Hs Hr Hq Hk Hl Hb Hfirst Hqs Hn.
  destruct ((parse cs).1.1) eqn:E; [|done].
  destruct (parse_reaches_validation NOQNT SIQNT EOC TPH_SOT DATA MS_EOC get_tcp loop
              merge_ppt init cs E Hs) as (_ & _ & _ & Hv).
  subst cs1 tcp numComps.
  set (tcp := get_tcp (loop cs).2) in *.
  set (numComps := Z.to_nat (numcomps (m_headerImage (loop cs).2))) in *.
  unfold qcd_step_sizes_ok in Hv.
  apply Z.eqb_neq in Hq. rewrite Hq in Hv. simpl negb in Hv. cbv iota zeta in Hv.
  destruct (_ <? _) in Hv; [done|].
  rewrite (find_qcd_comp_first numComps 0 (tccps tcp) k q) in Hv;
    [|lia|done|done|intros i q' Hi; apply Hfirst; lia].
  apply Z.eqb_neq in Hqs. rewrite Hqs in Hv. simpl negb in Hv. cbv iota in Hv.
  rewrite maxTileDecompositions_loop_spec in Hv by (by rewrite ?drop_0).
  rewrite drop_0, Z.max_r in Hv by apply foldr_max_nonneg.
  fold (max_tile_qcd_decomps numComps (tccps tcp)) in Hv.
  apply Z.ltb_lt in Hn. by rewrite Hn in Hv.
Qed.

End TileQCD.

Lemma tile_qcd_step_sizes_checked_witness :
  (CodeStream.parseTileHeaderMarkers 0 1 0x100 0x8 0x80 0xffd9 CodeStream.m_default_tcp
     (fun cs => (true, cs)) (fun _ => true) (fun _ => true)
     (TileScope.sample_tile_cs 3 2 7 4)).1.1 = false.
Proof.
  apply (tile_qcd_step_sizes_checked 0 1 0x100 0x8 0x80 0xffd9 CodeStream.m_default_tcp
           (fun cs => (true, cs)) (fun _ => true) (fun _ => true)
           (TileScope.sample_tile_cs 3 2 7 4) 1
           (CodeStream.mkTccp 3 1 2 2 4 [] true false true)).
  - vm_compute. discriminate.
  - reflexivity.
  - vm_compute. discriminate.
  - simpl. lia.
  - reflexivity.
  - reflexivity.
  - intros [|i] q' Hi; [intros [= <-]; reflexivity|lia].
  - vm_compute. discriminate.
  - vm_compute. reflexivity.
Defined.

Section Scoping.
Import CodeStream.

Variables NOQNT SIQNT SEQNT MAXBANDS : Z.

Abbreviation SQcd_SQcc := (read_SQcd_SQcc NOQNT SIQNT SEQNT MAXBANDS).

Lemma tccps_set_tccp_ne i j t tcp :
  i <> j -> tccps (set_tccp i t tcp) !! j = tccps tcp !! j.
Proof. intros H. unfold set_tccp. simpl. by rewrite list_lookup_insert_ne. Qed.

Lemma read_SQcd_SQcc_frame fq c fth data hs tcp :
  let r := SQcd_SQcc fq c fth data hs tcp in
  (forall i, i <> c -> tccps r.2 !! i = tccps tcp !! i)
  /\ (fq = true -> main_qcd_qntsty r.2 = main_qcd_qntsty tcp
                   /\ main_qcd_numStepSizes r.2 = main_qcd_numStepSizes tcp)
  /\ m_compressedTileData r.2 = m_compressedTileData tcp.
Proof.
  cbv zeta. unfold read_SQcd_SQcc.
  destruct (tccps tcp !! c) as [t|]; [|done].
  destruct (hs <? 1); [done|].
  destruct (SEQNT <? _); [done|].
  set (ig := scoping_ignore fq fth t).
  split; [|split].
  - intros i Hi. repeat case_match; cbn [snd]; rewrite ?tccps_set_tccp_ne by done; done.
  - intros ->. simpl andb. rewrite !andb_false_r.
    repeat case_match; cbn [snd]; done.
  - repeat case_match; cbn [snd]; done.
Qed.

(** After [read_SQcd_SQcc] got past the check of the quantization style,
    the component is bound by a marker of the header being read. *)
Lemma read_SQcd_SQcc_origin fq c fth data hs tcp t' :
  (SQcd_SQcc fq c fth data hs tcp).1.1 = true ->
  tccps (SQcd_SQcc fq c fth data hs tcp).2 !! c = Some t' ->
  fromTileHeader t' = fth /\ quantizationMarkerSet t' = true.
Proof.
  unfold read_SQcd_SQcc.
  destruct (tccps tcp !! c) as [t|] eqn:Et; [|done].
  destruct (hs <? 1); [done|].
  destruct (SEQNT <? _); [done|].
  destruct (scoping_ignore fq fth t) eqn:Ei.
  - simpl negb. cbv iota zeta. simpl andb. cbv iota.
    rewrite read_steps_noqnt_ignored, read_steps_qnt_ignored, set_stepsizes_id.
    rewrite (set_tccp_id _ _ _ Et).
    assert (fromTileHeader t = fth /\ quantizationMarkerSet t = true) as Ht.
    { revert Ei. unfold scoping_ignore.
      destruct (quantizationMarkerSet t); [|done].
      destruct fq, fth, (fromQCC t), (fromTileHeader t); done. }
    repeat case_match; cbn [fst snd]; try done; rewrite Et; by intros _ [= <-].
  - simpl negb. cbv iota zeta.
    repeat case_match; cbn [fst snd]; try done; intros _;
      (erewrite set_tccp_lookup; [|destruct (true && _); simpl; exact Et]);
      by intros [= <-].
Qed.


(** X14. The scoping of a QCD against the QCCs: when [read_qcd] succeeds,
    a component other than component 0 that is bound by a QCC is left as it
    was if the QCD comes from the main header, or if the QCC came from a
    tile header; every other component takes the quantization style, the
    number of guard bits and the step sizes of component 0 and keeps its
    other fields. So a QCD of the main header never overrides a QCC, and a
    QCD of a tile header overrides the QCCs of the main header only. *)
Theorem qcd_respects_qcc (fth : bool) (numcomps : Z) (headerData : list Z)
    (header_size : Z) (tcp tcp' : TileCodingParams) (i : nat)
    (src d : TileComponentCodingParams) :
  read_qcd NOQNT SIQNT SEQNT MAXBANDS fth numcomps headerData header_size tcp
  = (true, tcp') ->
  (1 <= i)%nat -> Z.of_nat i < numcomps ->
  tccps tcp !! i = Some d ->
  tccps tcp' !! 0%nat = Some src ->
  tccps tcp' !! i
  = Some (if fromQCC d && (negb fth || fromTileHeader d) then d
          else mkTccp (numresolutions d) (qmfbid d) (qntsty src) (numgbits src)
                      (numStepSizes d) (stepsizes src) (quantizationMarkerSet d)
                      (fromQCC d) (fromTileHeader d)).
Proof.
  unfold read_qcd. intros Hr Hi Hn Hd Hsrc.
  pose proof (read_SQcd_SQcc_frame false 0 fth headerData header_size tcp) as (Hf & _).
  pose proof (read_SQcd_SQcc_origin false 0 fth headerData header_size tcp) as Ho.
  destruct (SQcd_SQcc false 0 fth headerData header_size tcp) as [[ok hs'] tcp1].
  cbn [fst snd] in *.
  destruct ok; [|done]. destruct (negb (hs' =? 0)); [done|].
  simpl in Hr. injection Hr as <-. cbn [tccps] in *.
  rewrite qcd_apply_head in Hsrc by lia.
  destruct (Ho src eq_refl Hsrc) as [Hfth _].
  rewrite qcd_apply_lookup by lia.
  rewrite bool_decide_eq_true_2 by lia.
  rewrite Hsrc, (Hf i) by lia. rewrite Hd.
  unfold qcd_copy. rewrite Hfth.
  destruct (fromQCC d); simpl; [|done].
  by destruct (negb fth || fromTileHeader d).
Qed.

End Scoping.

Lemma qcd_respects_qcc_witness :
  CodeStream.tccps
    (CodeStream.read_qcd 0 1 2 97 false 2 [0x40; 0x48] 2 (QCC.sample_tcp false)).2 !! 1%nat
  = Some (CodeStream.mkTccp 1 1 2 1 1 (replicate 4 (CodeStream.mkStep 0 0))
                            true true false).
Proof.
  eapply (qcd_respects_qcc 0 1 2 97 false 2 [0x40; 0x48] 2 (QCC.sample_tcp false) _ 1 _
            (CodeStream.mkTccp 1 1 2 1 1 (replicate 4 (CodeStream.mkStep 0 0))
                               true true false)).
  - reflexivity.
  - lia.
  - lia.
  - reflexivity.
  - reflexivity.
Defined.

Section QCCFrame.
Import CodeStream.

Variables NOQNT SIQNT SEQNT MAXBANDS : Z.

Lemma grk_read_nonneg data nb : forall pos acc, 0 <= acc -> 0 <= grk_read data pos nb acc.
Proof.
  induction nb as [|nb IH]; intros pos acc Ha; simpl; [done|].
  apply IH. pose proof (byte_at_range data pos). lia.
Qed.

(** X15. The summary of the main QCD is never changed by a QCC, whatever
    the segment and whether the read succeeded or not, and whether or not a
    component changed. A QCC changes at most the component that it signals,
    and only if this component exists: when a component differs after
    [read_qcc] from what it was, its number is the signaled one and is below
    the number of components. *)
Theorem qcc_changes_only_its_component (fth : bool) (numcomps : Z) (headerData : list Z)
    (header_size : Z) (tcp : TileCodingParams) :
  let comp_no := if u16 numcomps <=? 256 then grk_read headerData 0 1 0
                 else grk_read headerData 0 2 0 in
  let r := QCC.read_qcc NOQNT SIQNT SEQNT MAXBANDS fth numcomps headerData header_size
                        tcp in
  main_qcd_qntsty r.2 = main_qcd_qntsty tcp
  /\ main_qcd_numStepSizes r.2 = main_qcd_numStepSizes tcp
  /\ forall i : nat, tccps r.2 !! i <> tccps tcp !! i ->
       Z.of_nat i = comp_no /\ comp_no < numcomps.
Proof.
  cbv zeta. unfold QCC.read_qcc.
  assert (forall c data hs,
    0 <= c ->
    let r := if numcomps <=? c then (false, tcp)
             else let '(ok, hs', tcp1) :=
                    read_SQcd_SQcc NOQNT SIQNT SEQNT MAXBANDS true (Z.to_nat c) fth
                                   data hs tcp in
                  if negb ok then (false, tcp1)
                  else if negb (hs' =? 0) then (false, tcp1) else (true, tcp1) in
    main_qcd_qntsty r.2 = main_qcd_qntsty tcp
    /\ main_qcd_numStepSizes r.2 = main_qcd_numStepSizes tcp
    /\ forall i : nat, tccps r.2 !! i <> tccps tcp !! i ->
         Z.of_nat i = c /\ c < numcomps) as Hrest.
  { intros c data hs Hc. cbv zeta.
    destruct (numcomps <=? c) eqn:E; [done|]. apply Z.leb_gt in E.
    pose proof (read_SQcd_SQcc_frame NOQNT SIQNT SEQNT MAXBANDS true (Z.to_nat c) fth
                  data hs tcp) as (Hf & Hm & _).
    destruct (read_SQcd_SQcc _ _ _ _ _ _ _ _ _ _) as [[ok hs'] tcp1].
    cbn [snd] in Hf, Hm. destruct (Hm eq_refl) as [Hm1 Hm2].
    assert (main_qcd_qntsty tcp1 = main_qcd_qntsty tcp
            /\ main_qcd_numStepSizes tcp1 = main_qcd_numStepSizes tcp
            /\ forall i : nat, tccps tcp1 !! i <> tccps tcp !! i ->
                 Z.of_nat i = c /\ c < numcomps) as Hgoal.
    { split; [done|]. split; [done|]. intros i Hne. split; [|done].
      destruct (decide (i = Z.to_nat c)) as [->|Hi]; [lia|].
      by specialize (Hf i Hi). }
    destruct ok; simpl negb; cbv iota; [|done].
    by destruct (negb (hs' =? 0)). }
  destruct (u16 numcomps <=? 256).
  - destruct (header_size <? 1); [done|].
    apply Hrest. by apply grk_read_nonneg.
  - destruct (header_size <? 2); [done|].
    apply Hrest. by apply grk_read_nonneg.
Qed.

End QCCFrame.

Lemma qcc_changes_only_its_component_witness :
  let r := QCC.read_qcc 0 1 2 97 false 2 [1; 0x40; 0x48] 3 (QCC.sample_tcp true) in
  let r0 := QCC.read_qcc 0 1 2 97 false 2 [1; 0x40; 0x48] 3 (QCC.sample_tcp false) in
  CodeStream.tccps r.2 !! 1%nat <> CodeStream.tccps (QCC.sample_tcp true) !! 1%nat
  /\ CodeStream.tccps r0.2 = CodeStream.tccps (QCC.sample_tcp false)
  /\ CodeStream.main_qcd_qntsty r.2 = CodeStream.main_qcd_qntsty (QCC.sample_tcp true)
  /\ CodeStream.main_qcd_numStepSizes r.2
     = CodeStream.main_qcd_numStepSizes (QCC.sample_tcp true)
  /\ CodeStream.main_qcd_qntsty r0.2 = CodeStream.main_qcd_qntsty (QCC.sample_tcp false)
  /\ CodeStream.main_qcd_numStepSizes r0.2
     = CodeStream.main_qcd_numStepSizes (QCC.sample_tcp false)
  /\ (1 = grk_read [1; 0x40; 0x48] 0 1 0 /\ grk_read [1; 0x40; 0x48] 0 1 0 < 2).
Proof.
  cbv zeta.
  pose proof (qcc_changes_only_its_component 0 1 2 97 false 2 [1; 0x40; 0x48] 3
                (QCC.sample_tcp true)) as (H1 & H2 & H3).
  pose proof (qcc_changes_only_its_component 0 1 2 97 false 2 [1; 0x40; 0x48] 3
                (QCC.sample_tcp false)) as (H4 & H5 & _).
  split; [vm_compute; discriminate|]. split; [vm_compute; reflexivity|].
  split; [exact H1|]. split; [exact H2|]. split; [exact H4|]. split; [exact H5|].
  apply (H3 1%nat). vm_compute. discriminate.
Defined.

(** * Properties of the packed packet headers of a tile part *)

Section PPTMerge.
Import PPT.

(** The marker that holds the payload [o], or no data. *)
Local Abbreviation entry_of o := (mkPpx o (Z.of_nat (length (default [] o)))).

Section Loops.
Variable P : nat -> option (list Z).

Local Abbreviation payloads i n := (concat ((fun z => default [] (P z)) <$> seq i n)).

Lemma sum_sizes_spec n : forall i ms acc,
  (forall z, (i <= z < i + n)%nat -> ms !! z = Some (entry_of (P z))) ->
  0 <= acc -> acc + Z.of_nat (length (payloads i n)) < 4294967296 ->
  sum_sizes n i ms acc = acc + Z.of_nat (length (payloads i n)).
Proof.
  induction n as [|n IH]; intros i ms acc Hms Ha Hb; cbn [sum_sizes].
  - simpl. lia.
  - cbn [seq] in *. rewrite fmap_cons in *. cbn [concat] in *.
    rewrite length_app in *.
    rewrite (Hms i) by lia. cbn [fmap option_fmap option_map m_data_size from_option id].
    unfold u32. rewrite Z.mod_small by lia.
    rewrite IH; [lia|intros z Hz; apply Hms; lia|lia|lia].
Qed.

Lemma copy_markers_spec n : forall i ms done rest off,
  (forall z, (i <= z < i + n)%nat -> ms !! z = Some (entry_of (P z))) ->
  off = Z.of_nat (length done) ->
  off + Z.of_nat (length (payloads i n)) < 4294967296 ->
  (length (payloads i n) <= length rest)%nat ->
  (copy_markers n i ms (done ++ rest) off).1.2
  = done ++ payloads i n ++ drop (length (payloads i n)) rest.
Proof.
  induction n as [|n IH]; intros i ms done rest off Hms Hoff Hb Hr; cbn [copy_markers].
  - simpl. by rewrite drop_0.
  - cbn [seq] in *. rewrite fmap_cons in *. cbn [concat] in *.
    rewrite length_app in *.
    rewrite (Hms i) by lia.
    destruct (P i) as [data|] eqn:EP; cbn [from_option id] in *.
    + rewrite Nat2Z.id.
      assert (memcpy_at (done ++ rest) (Z.to_nat off) data (length data)
              = (done ++ data) ++ drop (length data) rest) as ->.
      { unfold memcpy_at. subst off. rewrite Nat2Z.id.
        rewrite take_app_length, firstn_all, drop_app_add'; [|done].
        by rewrite <- app_assoc. }
      unfold u32. rewrite Z.mod_small by lia.
      rewrite IH.
      * rewrite <- !app_assoc. do 2 f_equal. by rewrite drop_drop.
      * intros z Hz. rewrite list_lookup_insert_ne by lia. apply Hms. lia.
      * rewrite length_app. lia.
      * lia.
      * rewrite length_drop. lia.
    + cbn [app length] in *. rewrite IH; [done|intros z Hz; apply Hms; lia|lia..].
Qed.

End Loops.

Lemma bytes_from_payload Zppt payload :
  PL.bytes_ok payload -> bytes_from (Zppt :: payload) 1 (length payload) = payload.
Proof.
  intros Hb. unfold bytes_from. apply list_eq. intros j.
  rewrite list_lookup_fmap.
  destruct (payload !! j) as [b|] eqn:E.
  - rewrite lookup_seq_lt by (by eapply lookup_lt_Some). simpl.
    unfold byte_at, u8. rewrite nth_lookup.
    replace ((Zppt :: payload) !! (1 + j)%nat) with (payload !! j) by done.
    rewrite E. simpl.
    pose proof (proj1 (Forall_lookup _ _) Hb _ _ E) as Hr. simpl in Hr.
    f_equal. apply Z.mod_small. lia.
  - apply lookup_ge_None in E. by rewrite lookup_seq_ge by lia.
Qed.

(** The coding parameters hold the payloads [M] read so far, each under its
    Zppt. *)
Local Abbreviation stored tcp M :=
  (ppt_buffer tcp = None
   /\ match ppt_markers tcp with
      | None => M = ∅ /\ ppt_markers_count tcp = 0
      | Some ms =>
          ppt_markers_count tcp = Z.of_nat (length ms) /\ (length ms <= 256)%nat
          /\ (forall z, (z < length ms)%nat -> ms !! z = Some (entry_of (M !! Z.of_nat z)))
          /\ (forall k, is_Some (M !! k) -> 0 <= k < Z.of_nat (length ms))
      end).

Lemma read_ppt_stored (tcp : TileCodingParams) (M : gmap Z (list Z)) Zppt payload :
  stored tcp M -> M !! Zppt = None -> 0 <= Zppt < 256 ->
  PL.bytes_ok payload -> 1 <= Z.of_nat (length payload) <= 65534 ->
  exists tcp',
    read_ppt (fun _ => true) (fun _ => true) (fun _ => true) false (Zppt :: payload)
             (Z.of_nat (length (Zppt :: payload))) tcp = (true, tcp')
    /\ ppt tcp' = true /\ stored tcp' (<[Zppt := payload]> M).
Proof.
  intros (Hbuf & Hms) HM Hz Hb Hl. unfold read_ppt.
  cbn [length]. 
  destruct (Z.of_nat (S (length payload)) <? 2) eqn:E; [apply Z.ltb_lt in E; lia|].
  cbn [ppt_markers ppt_markers_count negb].
  assert (grk_read (Zppt :: payload) 0 1 0 = Zppt) as ->.
  { simpl. unfold byte_at, u8. simpl. apply Z.mod_small. lia. }
  rewrite u16_small by lia.
  replace (Z.of_nat (S (length payload)) - 1) with (Z.of_nat (length payload)) by lia.
  rewrite Nat2Z.id, bytes_from_payload by done.
  assert (u32 (Zppt + 1) = Zppt + 1) as Hu by (unfold u32; apply Z.mod_small; lia).
  rewrite Hu.
  assert (forall ms : list grk_ppx,
            (Z.to_nat Zppt < length ms)%nat -> (length ms <= 256)%nat ->
            (forall z, (z < length ms)%nat -> ms !! z = Some (entry_of (M !! Z.of_nat z))) ->
            (forall k, is_Some (M !! k) -> 0 <= k < Z.of_nat (length ms)) ->
            forall c tcp0, ppt_buffer tcp0 = None -> c = Z.of_nat (length ms) ->
            exists tcp',
              match ms !! Z.to_nat Zppt with
              | Some m =>
                  match m_data m with
                  | Some _ => (false, set_markers (Some ms) c tcp0)
                  | None =>
                      (true, set_markers
                               (Some (<[Z.to_nat Zppt :=
                                          mkPpx (Some payload) (Z.of_nat (length payload))]> ms))
                               c tcp0)
                  end
              | None => (false, set_markers (Some ms) c tcp0)
              end = (true, tcp')
              /\ ppt tcp' = ppt tcp0 /\ stored tcp' (<[Zppt := payload]> M)) as Hstore.
  { intros ms Hlt Hlen Hent Hkeys c tcp0 Hb0 ->.
    rewrite (Hent (Z.to_nat Zppt) Hlt), Z2Nat.id, HM by lia. cbn [m_data].
    eexists. split; [done|]. split; [done|].
    cbn [set_markers ppt_buffer ppt_markers ppt_markers_count].
    rewrite length_insert. split; [done|]. split; [done|]. split; [done|]. split.
    - intros z Hzl. destruct (decide (z = Z.to_nat Zppt)) as [->|Hne].
      + rewrite list_lookup_insert_eq by lia.
        rewrite Z2Nat.id, lookup_insert_eq by lia. done.
      + rewrite list_lookup_insert_ne by lia.
        rewrite lookup_insert_ne by lia. by apply Hent.
    - intros k Hk. destruct (decide (k = Zppt)) as [->|Hne]; [lia|].
      rewrite lookup_insert_ne in Hk by done. by apply Hkeys in Hk. }
  destruct (ppt_markers tcp) as [ms|] eqn:Em.
  - destruct Hms as (Hc & Hlen & Hent & Hkeys).
    destruct (ppt_markers_count tcp <=? Zppt) eqn:Ec.
    + apply Z.leb_le in Ec.
      cbn [set_markers ppt_markers ppt_markers_count ppt ppt_buffer ppt_len ppt_data
           ppt_data_size].
      rewrite Hc, Nat2Z.id, firstn_all.
      set (ms' := ms ++ replicate _ _).
      assert (length ms' = Z.to_nat (Zppt + 1)) as Hl'.
      { unfold ms'. rewrite length_app, length_replicate. lia. }
      destruct (Hstore ms' ltac:(lia) ltac:(lia)) with (c := Zppt + 1)
        (tcp0 := mkTcp true (Some ms) (Z.of_nat (length ms)) (ppt_buffer tcp) (ppt_len tcp)
                       (ppt_data tcp) (ppt_data_size tcp)) as (tcp' & Hr & Hp & Hs);
        [| |done|lia|].
      * intros z Hzl. unfold ms'. destruct (decide (z < length ms)%nat).
        -- rewrite lookup_app_l by done. by apply Hent.
        -- rewrite lookup_app_r by lia. rewrite lookup_replicate_2 by lia.
           destruct (M !! Z.of_nat z) eqn:EM; [|done].
           assert (is_Some (M !! Z.of_nat z)) as Hs by done. apply Hkeys in Hs. lia.
      * intros k Hk. apply Hkeys in Hk. lia.
      * exists tcp'. split; [|done]. exact Hr.
    + apply Z.leb_gt in Ec. cbn [ppt_markers].
      destruct (Hstore ms ltac:(lia) Hlen Hent Hkeys (ppt_markers_count tcp)
                  (mkTcp true (Some ms) (ppt_markers_count tcp) (ppt_buffer tcp)
                         (ppt_len tcp) (ppt_data tcp) (ppt_data_size tcp)) Hbuf Hc)
        as (tcp' & Hr & Hp & Hs).
      exists tcp'. split; [|done]. exact Hr.
  - destruct Hms as [-> Hc].
    cbn [set_markers ppt_markers ppt_markers_count ppt ppt_buffer ppt_len ppt_data
         ppt_data_size].
    set (ms' := replicate _ _).
    assert (length ms' = Z.to_nat (Zppt + 1)) as Hl' by (unfold ms'; by rewrite length_replicate).
    destruct (Hstore ms' ltac:(lia) ltac:(lia)) with (c := Zppt + 1)
      (tcp0 := mkTcp true None (ppt_markers_count tcp) (ppt_buffer tcp) (ppt_len tcp)
                     (ppt_data tcp) (ppt_data_size tcp)) as (tcp' & Hr & Hp & Hs);
      [| |done|lia|].
    + intros z Hzl. unfold ms'. rewrite lookup_replicate_2 by lia.
      by rewrite lookup_empty.
    + intros k [v Hk]. by rewrite lookup_empty in Hk.
    + exists tcp'. split; [|done]. exact Hr.
Qed.

Local Abbreviation segment_ok :=
  (fun p : Z * list Z => 0 <= p.1 < 256 /\ PL.bytes_ok p.2
                         /\ 1 <= Z.of_nat (length p.2) <= 65534).

Local Abbreviation read_all :=
  (read_ppt_all (fun _ => true) (fun _ => true) (fun _ => true)).

Lemma read_ppt_all_stored (segs : list (Z * list Z)) :
  forall (tcp : TileCodingParams) (M : gmap Z (list Z)),
  stored tcp M -> NoDup segs.*1 -> (forall k, k ∈ segs.*1 -> M !! k = None) ->
  Forall segment_ok segs ->
  exists tcp',
    read_all ((fun p => p.1 :: p.2) <$> segs) tcp = (true, tcp')
    /\ (segs <> [] -> ppt tcp' = true)
    /\ stored tcp' (list_to_map segs ∪ M).
Proof.
  induction segs as [|[k v] segs IH]; intros tcp M Hst Hnd HM Hwf.
  - exists tcp. split; [done|]. split; [done|].
    by rewrite list_to_map_nil, (left_id_L ∅ (∪)).
  - rewrite fmap_cons in Hnd. apply NoDup_cons in Hnd as [Hk Hnd].
    apply Forall_cons in Hwf as [(Hz & Hb & Hl) Hwf]. cbn [fst snd] in *.
    destruct (read_ppt_stored tcp M k v Hst (HM k ltac:(rewrite fmap_cons; left)) Hz Hb Hl)
      as (tcp1 & Hr & Hp & Hst1).
    rewrite fmap_cons. cbn [read_ppt_all fst snd]. rewrite Hr.
    destruct (IH tcp1 (<[k := v]> M) Hst1 Hnd) as (tcp' & Hr' & Hp' & Hst'); [|done|].
    { intros k' Hk'. rewrite lookup_insert_ne by (intros ->; done).
      apply HM. rewrite fmap_cons. by right. }
    exists tcp'. split; [done|]. split.
    + intros _. destruct segs as [|p segs]; [|by apply Hp'].
      simpl in Hr'. by injection Hr' as <-.
    + assert (list_to_map ((k, v) :: segs) ∪ M
              = (list_to_map segs : gmap Z (list Z)) ∪ <[k := v]> M) as ->; [|done].
      rewrite list_to_map_cons. cbn [fst snd].
      rewrite <- insert_union_l.
      rewrite <- insert_union_r; [done|].
      by apply not_elem_of_list_to_map_1.
Qed.

Lemma concat_empty_tail (P : nat -> option (list Z)) n m :
  (forall z, (n <= z)%nat -> P z = None) ->
  concat ((fun z => default [] (P z)) <$> seq 0 (n + m))
  = concat ((fun z => default [] (P z)) <$> seq 0 n).
Proof.
  intros HP. rewrite seq_app, fmap_app, concat_app.
  assert (forall i, (n <= i)%nat ->
            concat ((fun z => default [] (P z)) <$> seq i m) = []) as Hall.
  { induction m as [|m IH]; intros i Hi; [done|].
    cbn [seq]. rewrite fmap_cons. cbn [concat]. rewrite HP by done.
    rewrite IH by lia. done. }
  rewrite Hall by lia. by rewrite app_nil_r.
Qed.

Lemma length_payloads (P : nat -> option (list Z)) n : forall i,
  (forall z v, P z = Some v -> Z.of_nat (length v) <= 65534) ->
  Z.of_nat (length (concat ((fun z => default [] (P z)) <$> seq i n)))
  <= 65534 * Z.of_nat n.
Proof.
  induction n as [|n IH]; intros i HP; [simpl; lia|].
  cbn [seq]. rewrite fmap_cons. cbn [concat]. rewrite length_app.
  specialize (IH (S i) HP).
  destruct (P i) as [v|] eqn:E; cbn [from_option id length].
  - apply HP in E. lia.
  - lia.
Qed.

(** X16. PPT marker segments with pairwise different Zppt, each with at
    least one byte of data, are all accepted when no PPM marker was read and
    the allocations succeed; [merge_ppt] then succeeds, releases the
    markers, and leaves as packed packet headers of the tile the data of the
    segments in the order of their Zppt, whatever the order in which the
    segments came, with their total length. *)
Theorem ppt_merged_in_Zppt_order (segs : list (Z * list Z)) :
  segs <> [] ->
  NoDup segs.*1 ->
  Forall (fun p => 0 <= p.1 < 256 /\ PL.bytes_ok p.2
                   /\ 1 <= Z.of_nat (length p.2) <= 65534) segs ->
  let merged :=
    concat ((fun z => default [] ((list_to_map segs : gmap Z (list Z)) !! Z.of_nat z))
              <$> seq 0 256) in
  exists tcp1 tcp2,
    read_ppt_all (fun _ => true) (fun _ => true) (fun _ => true)
                 ((fun p => p.1 :: p.2) <$> segs) init = (true, tcp1)
    /\ merge_ppt tcp1 = (true, tcp2)
    /\ ppt_data tcp2 = Some merged
    /\ ppt_data_size tcp2 = Z.of_nat (length merged)
    /\ ppt_markers tcp2 = None.
Proof.
  intros Hne Hnd Hwf. cbv zeta.
  destruct (read_ppt_all_stored segs init ∅) as (tcp1 & Hr & Hp & Hbuf & Hms); try done.
  rewrite (right_id_L ∅ (∪)) in Hms.
  set (M := list_to_map segs : gmap Z (list Z)) in *.
  exists tcp1.
  assert (exists tcp2, merge_ppt tcp1 = (true, tcp2)
            /\ ppt_data tcp2
               = Some (concat ((fun z => default [] (M !! Z.of_nat z)) <$> seq 0 256))
            /\ ppt_data_size tcp2
               = Z.of_nat (length (concat ((fun z => default [] (M !! Z.of_nat z))
                                             <$> seq 0 256)))
            /\ ppt_markers tcp2 = None) as (tcp2 & H2); [|by exists tcp2].
  unfold merge_ppt. rewrite (Hp Hne), Hbuf. cbn [negb].
  destruct (ppt_markers tcp1) as [ms|] eqn:Em.
  2:{ destruct Hms as [HM _]. destruct segs as [|[k v] segs]; [done|].
      exfalso. unfold M in HM. rewrite list_to_map_cons in HM.
      by apply insert_non_empty in HM. }
  destruct Hms as (Hc & Hlen & Hent & Hkeys). cbn [from_option id].
  rewrite Hc, Nat2Z.id.
  set (P := fun z : nat => M !! Z.of_nat z).
  assert (forall z v, P z = Some v -> Z.of_nat (length v) <= 65534) as HP.
  { intros z v Hz. unfold P, M in Hz. apply elem_of_list_to_map_2 in Hz.
    apply (proj1 (Forall_forall _ _) Hwf) in Hz. simpl in Hz. lia. }
  pose proof (length_payloads P (length ms) 0 HP) as Hlp.
  rewrite (sum_sizes_spec P (length ms) 0 ms 0); [|intros z Hz; apply Hent; lia|done|lia].
  rewrite Z.add_0_l, Nat2Z.id.
  pose proof (copy_markers_spec P (length ms) 0 ms []
                (replicate (length (concat ((fun z => default [] (P z))
                                              <$> seq 0 (length ms)))) 0) 0) as Hcopy.
  cbn [app] in Hcopy.
  destruct (copy_markers _ _ _ _ _) as [[ms' buf] off]. cbn [fst snd] in Hcopy.
  rewrite Hcopy; [|intros z Hz; apply Hent; lia|done|lia|by rewrite length_replicate].
  rewrite drop_ge by (by rewrite length_replicate). rewrite app_nil_r.
  assert (concat ((fun z => default [] (M !! Z.of_nat z)) <$> seq 0 256)
          = concat ((fun z => default [] (P z)) <$> seq 0 (length ms))) as ->.
  { replace 256%nat with (length ms + (256 - length ms))%nat by lia.
    apply (concat_empty_tail P). intros z Hz. unfold P.
    destruct (M !! Z.of_nat z) eqn:E; [|done].
    assert (is_Some (M !! Z.of_nat z)) as Hs by done. apply Hkeys in Hs. lia. }
  eexists. split; [reflexivity|]. by cbn [ppt_data ppt_data_size ppt_markers].
Qed.

Lemma ppt_merged_in_Zppt_order_witness :
  exists tcp1 tcp2,
    read_ppt_all (fun _ => true) (fun _ => true) (fun _ => true)
                 [[2; 7; 8]; [0; 5]] init = (true, tcp1)
    /\ merge_ppt tcp1 = (true, tcp2)
    /\ ppt_data tcp2 = Some [5; 7; 8]
    /\ ppt_data_size tcp2 = 3
    /\ ppt_markers tcp2 = None.
Proof.
  apply (ppt_merged_in_Zppt_order [(2, [7; 8]); (0, [5])]).
  - done.
  - apply (bool_decide_unpack _). reflexivity.
  - repeat constructor; simpl; lia.
Defined.

(** X17. Once PPT marker segments with pairwise different Zppt have been
    read, a further segment that repeats one of their Zppt is rejected,
    whatever its data and whatever the allocator does. *)
Theorem ppt_repeated_Zppt_rejected (segs : list (Z * list Z)) (p : Z * list Z)
    (data : list Z) (hs : Z) (calloc_ok realloc_ok malloc_ok : Z -> bool) :
  NoDup segs.*1 ->
  Forall (fun p => 0 <= p.1 < 256 /\ PL.bytes_ok p.2
                   /\ 1 <= Z.of_nat (length p.2) <= 65534) segs ->
  p ∈ segs -> byte_at data 0 = p.1 ->
  let tcp1 := (read_ppt_all (fun _ => true) (fun _ => true) (fun _ => true)
                            ((fun p => p.1 :: p.2) <$> segs) init).2 in
  (read_ppt calloc_ok realloc_ok malloc_ok false data hs tcp1).1 = false.
Proof.
  intros Hnd Hwf Hp Hz. cbv zeta.
  destruct (read_ppt_all_stored segs init ∅) as (tcp1 & -> & _ & Hbuf & Hms); try done.
  rewrite (right_id_L ∅ (∪)) in Hms. cbn [snd].
  assert ((list_to_map segs : gmap Z (list Z)) !! p.1 = Some p.2) as HM.
  { apply elem_of_list_to_map_1; [done|]. by destruct p. }
  unfold read_ppt. destruct (hs <? 2); [done|]. cbn [negb ppt_markers ppt_markers_count].
  assert (grk_read data 0 1 0 = p.1) as -> by (by rewrite grk_read_1).
  destruct (ppt_markers tcp1) as [ms|] eqn:Em.
  2:{ destruct Hms as [HM0 _]. by rewrite HM0, lookup_empty in HM. }
  destruct Hms as (Hc & Hlen & Hent & Hkeys).
  pose proof (Hkeys p.1 ltac:(by rewrite HM)) as Hk.
  destruct (ppt_markers_count tcp1 <=? p.1) eqn:Ec; [apply Z.leb_le in Ec; lia|].
  cbn [ppt_markers]. rewrite (Hent (Z.to_nat p.1)) by lia.
  rewrite Z2Nat.id, HM by lia. done.
Qed.

Lemma ppt_repeated_Zppt_rejected_witness :
  (read_ppt (fun _ => true) (fun _ => true) (fun _ => true) false [0; 9; 9] 3
            (read_ppt_all (fun _ => true) (fun _ => true) (fun _ => true)
                          [[2; 7; 8]; [0; 5]] init).2).1 = false.
Proof.
  apply (ppt_repeated_Zppt_rejected [(2, [7; 8]); (0, [5])] (0, [5]) [0; 9; 9] 3).
  - apply (bool_decide_unpack _). reflexivity.
  - repeat constructor; simpl; lia.
  - apply (bool_decide_unpack _). reflexivity.
  - reflexivity.
Defined.
End PPTMerge.

(** * Properties of the coding style markers *)

Section Style.
Import CodingStyle.

Context {Rest : Type}.
Variables SPCod_SPCoc_len cod_coc_len : Z.
Variables MAX_DECOMP_LVLS CBLKSTY_HT NUM_PROGRESSION_ORDERS : Z.
Variables CCP_CSTY_PRT CP_CSTY_PRT CP_CSTY_SOP CP_CSTY_EPH : Z.
Variable isHT : TileCodingParams Rest -> bool.
Variable setIsHT : bool -> bool -> Z -> TileCodingParams Rest -> TileCodingParams Rest.
Variables pcap m_reduce m_layer : Z.

(** [setIsHT] leaves the components alone. *)
Hypothesis setIsHT_tccps : forall ht reversible guardBits tcp,
  tccps (setIsHT ht reversible guardBits tcp) = tccps tcp.

Abbreviation SPCod_SPCoc :=
  (read_SPCod_SPCoc SPCod_SPCoc_len MAX_DECOMP_LVLS CBLKSTY_HT CCP_CSTY_PRT
                    isHT setIsHT pcap m_reduce).

Lemma tccps_update c f (tcp : TileCodingParams Rest) :
  tccps (update c f tcp) = alter f c (tccps tcp).
Proof. done. Qed.

Lemma tccp_at_update c f (tcp : TileCodingParams Rest) :
  is_Some (tccps tcp !! c) -> tccp_at c (update c f tcp) = f (tccp_at c tcp).
Proof.
  intros [t Ht]. unfold tccp_at. rewrite tccps_update, list_lookup_alter_eq, Ht. done.
Qed.

Lemma is_Some_update c f (tcp : TileCodingParams Rest) :
  is_Some (tccps tcp !! c) -> is_Some (tccps (update c f tcp) !! c).
Proof.
  intros [t Ht]. rewrite tccps_update, list_lookup_alter_eq, Ht. by eexists.
Qed.

Lemma lookup_update_ne c i f (tcp : TileCodingParams Rest) :
  i <> c -> tccps (update c f tcp) !! i = tccps tcp !! i.
Proof. intros H. rewrite tccps_update. by rewrite list_lookup_alter_ne. Qed.

Lemma tccps_ht (b : bool) x y z (tcp : TileCodingParams Rest) :
  tccps (if b then setIsHT x y z tcp else tcp) = tccps tcp.
Proof. destruct b; [apply setIsHT_tccps|done]. Qed.

Lemma tccp_at_ht c (b : bool) x y z (tcp : TileCodingParams Rest) :
  tccp_at c (if b then setIsHT x y z tcp else tcp) = tccp_at c tcp.
Proof. unfold tccp_at. by rewrite tccps_ht. Qed.

Lemma is_Some_ht c (b : bool) x y z (tcp : TileCodingParams Rest) :
  is_Some (tccps tcp !! c) ->
  is_Some (tccps (if b then setIsHT x y z tcp else tcp) !! c).
Proof. by rewrite tccps_ht. Qed.

Lemma tccp_at_lookup c (tcp : TileCodingParams Rest) t :
  tccps tcp !! c = Some t -> tccp_at c tcp = t.
Proof. intros H. unfold tccp_at. by rewrite H. Qed.


Ltac solve_some :=
  repeat first [apply is_Some_update | apply is_Some_ht]; eauto.

Ltac norm_in H :=
  repeat first [rewrite tccp_at_ht in H
               | rewrite tccp_at_update in H by solve_some].

Ltac norm :=
  repeat first [rewrite tccp_at_ht
               | rewrite tccp_at_update by solve_some].

Lemma read_precincts_lookup n : forall i data pos w h w' h' k,
  read_precincts n i data pos w h = (true, w', h') ->
  length w' = length w /\ length h' = length h
  /\ ((i <= k < i + n)%nat ->
      (k < length w)%nat -> (k < length h)%nat ->
      w' !! k = Some (Z.land (byte_at data (pos + (k - i))) 0xf)
      /\ h' !! k = Some (Z.shiftr (byte_at data (pos + (k - i))) 4)
      /\ (k <> 0%nat -> Z.land (byte_at data (pos + (k - i))) 0xf <> 0
                        /\ Z.shiftr (byte_at data (pos + (k - i))) 4 <> 0))
  /\ ((k < i)%nat -> w' !! k = w !! k /\ h' !! k = h !! k).
Proof.
  induction n as [|n IH]; intros i data pos w h w' h' k; cbn [read_precincts].
  - intros [= <- <-]. split; [done|]. split; [done|]. split; [intros; lia|done].
  - destruct (negb (i =? 0)%nat && _) eqn:E; [done|]. intros Hr.
    destruct (IH _ _ _ _ _ _ _ k Hr) as (Hlw & Hlh & Hin & Hout).
    rewrite length_insert in Hlw, Hlh.
    split; [done|]. split; [done|]. split.
    + intros Hk Hkw Hkh. destruct (decide (k = i)) as [->|Hne].
      * destruct Hout as [-> ->]; [lia|].
        rewrite !list_lookup_insert_eq by done.
        replace (pos + (i - i))%nat with pos by lia. split; [done|]. split; [done|].
        intros Hi. apply Nat.eqb_neq in Hi. rewrite Hi in E. simpl in E.
        apply orb_false_iff in E as [E1 E2].
        by apply Z.eqb_neq in E1, E2.
      * destruct Hin as (H1 & H2 & H3); [lia|by rewrite length_insert..|].
        replace (S pos + (k - S i))%nat with (pos + (k - i))%nat in * by lia.
        done.
    + intros Hk. destruct Hout as [-> ->]; [lia|].
      by rewrite !list_lookup_insert_ne by lia.
Qed.

Lemma default_precincts_lookup n : forall i w h k,
  let r := default_precincts n i w h in
  length r.1 = length w /\ length r.2 = length h
  /\ ((i <= k < i + n)%nat -> (k < length w)%nat -> (k < length h)%nat ->
      r.1 !! k = Some 15 /\ r.2 !! k = Some 15)
  /\ ((k < i)%nat -> r.1 !! k = w !! k /\ r.2 !! k = h !! k).
Proof.
  induction n as [|n IH]; intros i w h k; cbn [default_precincts]; cbv zeta.
  - split; [done|]. split; [done|]. split; [intros; lia|done].
  - destruct (IH (S i) (<[i := 15]> w) (<[i := 15]> h) k) as (Hlw & Hlh & Hin & Hout).
    rewrite length_insert in Hlw, Hlh.
    split; [done|]. split; [done|]. split.
    + intros Hk Hkw Hkh. destruct (decide (k = i)) as [->|Hne].
      * destruct Hout as [-> ->]; [lia|]. by rewrite !list_lookup_insert_eq.
      * apply Hin; [lia|by rewrite length_insert..].
    + intros Hk. destruct Hout as [-> ->]; [lia|].
      by rewrite !list_lookup_insert_ne by lia.
Qed.

Lemma spcod_accepted numcomps c data hs (tcp tcp' : TileCodingParams Rest) hs' t0 :
  tccps tcp !! c = Some t0 -> 0 <= m_reduce ->
  SPCod_SPCoc numcomps c data hs tcp = (true, hs', tcp') ->
  exists t,
    tccps tcp' !! c = Some t
    /\ (forall i, i <> c -> tccps tcp' !! i = tccps tcp !! i)
    /\ Z.of_nat c < numcomps
    /\ numresolutions t = byte_at data 0 + 1
    /\ byte_at data 0 <= MAX_DECOMP_LVLS /\ m_reduce < numresolutions t
    /\ cblkw t = byte_at data 1 + 2 /\ cblkh t = byte_at data 2 + 2
    /\ byte_at data 1 + byte_at data 2 <= 8
    /\ cblk_sty t = byte_at data 3
    /\ qmfbid t = byte_at data 4 /\ byte_at data 4 <= 1
    /\ csty t = csty t0 /\ numgbits t = numgbits t0
    /\ (if negb (Z.land (csty t0) CCP_CSTY_PRT =? 0)
        then read_precincts (Z.to_nat (byte_at data 0 + 1)) 0 data 5
                            (precinctWidthExp t0) (precinctHeightExp t0)
             = (true, precinctWidthExp t, precinctHeightExp t)
        else default_precincts (Z.to_nat (byte_at data 0 + 1)) 0
                               (precinctWidthExp t0) (precinctHeightExp t0)
             = (precinctWidthExp t, precinctHeightExp t)).
Proof.
  intros Ht0 Hred. unfold read_SPCod_SPCoc. cbv zeta.
  pose proof (byte_at_range data 0) as Hb0.
  pose proof (byte_at_range data 1) as Hb1.
  pose proof (byte_at_range data 2) as Hb2.
  destruct (numcomps <=? Z.of_nat c) eqn:Ec; [done|].
  destruct (hs <? SPCod_SPCoc_len) eqn:Ehs; [done|].
  destruct (MAX_DECOMP_LVLS <? _) eqn:Emax; [done|].
  destruct (_ <=? m_reduce) eqn:Ered; [done|].
  destruct (_ || _) eqn:Ecb; [done|].
  destruct (negb (Z.land _ _ =? 0) && _) eqn:Esty; [done|].
  destruct (u8 _ =? 2) eqn:Ehigh; [done|].
  destruct (1 <? _) eqn:Eq; [done|].
  norm_in Emax. norm_in Ered. norm_in Ecb. norm_in Esty. norm_in Ehigh. norm_in Eq.
  rewrite (tccp_at_lookup c tcp t0 Ht0) in *.
  cbn [set_numresolutions set_cblk set_cblk_sty set_qmfbid numresolutions cblkw cblkh
       cblk_sty qmfbid csty numgbits precinctWidthExp precinctHeightExp] in *.
  apply Z.leb_gt in Ec. apply Z.ltb_ge in Emax, Eq. apply Z.leb_gt in Ered.
  apply orb_false_iff in Ecb as [Ecb E3]. apply orb_false_iff in Ecb as [E1 E2].
  apply Z.ltb_ge in E1, E2, E3.
  assert (byte_at data 0 <> 255) as Hn255.
  { intros Heq. rewrite Heq in Ered. change (u8 (255 + 1)) with 0 in Ered. lia. }
  assert (u8 (byte_at data 0 + 1) = byte_at data 0 + 1) as Hu0
    by (unfold u8; apply Z.mod_small; lia).
  assert (u8 (byte_at data 1 + 2) = byte_at data 1 + 2) as Hu1
    by (unfold u8; apply Z.mod_small; lia).
  assert (u8 (byte_at data 2 + 2) = byte_at data 2 + 2) as Hu2
    by (unfold u8; apply Z.mod_small; lia).
  rewrite Hu0 in *.
  set (tfinal := mkTccp (csty t0) (byte_at data 0 + 1) (byte_at data 1 + 2)
                        (byte_at data 2 + 2) (byte_at data 3) (byte_at data 4)
                        (numgbits t0) (precinctWidthExp t0) (precinctHeightExp t0)).
  match goal with |- context [Z.land (csty (tccp_at c ?X)) _] => set (tcp5 := X) end.
  assert (tccps tcp5 !! c = Some tfinal /\
          forall i, i <> c -> tccps tcp5 !! i = tccps tcp !! i) as [H5 H5'].
  { unfold tcp5. split.
    - rewrite !tccps_update, !list_lookup_alter_eq, tccps_ht, !tccps_update,
        !list_lookup_alter_eq, Ht0. cbn. unfold tfinal. by rewrite Hu0, Hu1, Hu2.
    - intros i Hi. rewrite !tccps_update, !list_lookup_alter_ne by done.
      rewrite tccps_ht, !tccps_update, !list_lookup_alter_ne by done. done. }
  rewrite (tccp_at_lookup c tcp5 tfinal H5).
  assert (forall w h hs1,
    (if negb (Z.land (csty t0) CCP_CSTY_PRT =? 0)
     then read_precincts (Z.to_nat (byte_at data 0 + 1)) 0 data 5
                         (precinctWidthExp t0) (precinctHeightExp t0) = (true, w, h)
     else default_precincts (Z.to_nat (byte_at data 0 + 1)) 0
                            (precinctWidthExp t0) (precinctHeightExp t0) = (w, h)) ->
    (true, hs1, update c (set_precincts w h) tcp5) = (true, hs', tcp') ->
    exists t, tccps tcp' !! c = Some t
    /\ (forall i, i <> c -> tccps tcp' !! i = tccps tcp !! i)
    /\ Z.of_nat c < numcomps
    /\ numresolutions t = byte_at data 0 + 1
    /\ byte_at data 0 <= MAX_DECOMP_LVLS /\ m_reduce < numresolutions t
    /\ cblkw t = byte_at data 1 + 2 /\ cblkh t = byte_at data 2 + 2
    /\ byte_at data 1 + byte_at data 2 <= 8
    /\ cblk_sty t = byte_at data 3
    /\ qmfbid t = byte_at data 4 /\ byte_at data 4 <= 1
    /\ csty t = csty t0 /\ numgbits t = numgbits t0
    /\ (if negb (Z.land (csty t0) CCP_CSTY_PRT =? 0)
        then read_precincts (Z.to_nat (byte_at data 0 + 1)) 0 data 5
                            (precinctWidthExp t0) (precinctHeightExp t0)
             = (true, precinctWidthExp t, precinctHeightExp t)
        else default_precincts (Z.to_nat (byte_at data 0 + 1)) 0
                               (precinctWidthExp t0) (precinctHeightExp t0)
             = (precinctWidthExp t, precinctHeightExp t))) as Hfin.
  { intros w h hs1 Hprec [= _ <-]. exists (set_precincts w h tfinal). split.
    - by rewrite tccps_update, list_lookup_alter_eq, H5.
    - split.
      + intros i Hi. rewrite lookup_update_ne by done. by apply H5'.
      + cbn. repeat split; try lia. exact Hprec. }
  cbn [csty numresolutions precinctWidthExp precinctHeightExp tfinal].
  destruct (negb (Z.land (csty t0) CCP_CSTY_PRT =? 0)).
  - destruct (_ <? byte_at data 0 + 1); [done|].
    destruct (read_precincts _ _ _ _ _ _) as [[ok w] h] eqn:Ep.
    destruct ok; [|done]. by apply Hfin.
  - destruct (default_precincts _ _ _ _) as [w h] eqn:Ep. by apply Hfin.
Qed.

(** X18. What [read_SPCod_SPCoc] accepts: when it succeeds on a component,
    the component holds between 1 and [GRK_J2K_MAX_DECOMP_LVLS + 1]
    resolutions and more than the decoder is asked to remove, code block
    exponents between 2 and 10 whose sum is at most 12, and a wavelet
    identifier of 0 or 1; its [csty] is as it was, and every other component
    is as it was ([setIsHT] being taken to leave the components alone). *)
Theorem spcod_spcoc_accepted_ranges (numcomps : Z) (c : nat) (data : list Z)
    (hs hs' : Z) (tcp tcp' : TileCodingParams Rest) (t0 : TileComponentCodingParams) :
  tccps tcp !! c = Some t0 -> 0 <= m_reduce ->
  SPCod_SPCoc numcomps c data hs tcp = (true, hs', tcp') ->
  exists t,
    tccps tcp' !! c = Some t
    /\ 1 <= numresolutions t <= MAX_DECOMP_LVLS + 1 /\ m_reduce < numresolutions t
    /\ 2 <= cblkw t <= 10 /\ 2 <= cblkh t <= 10 /\ cblkw t + cblkh t <= 12
    /\ 0 <= qmfbid t <= 1
    /\ csty t = csty t0
    /\ (forall i, i <> c -> tccps tcp' !! i = tccps tcp !! i).
Proof.
  intros Ht0 Hred Hr.
  destruct (spcod_accepted _ _ _ _ _ _ _ _ Ht0 Hred Hr)
    as (t & Ht & Hframe & _ & Hn & Hmax & Hm & Hw & Hh & Hsum & _ & Hq & Hq1 & Hc & _).
  pose proof (byte_at_range data 0). pose proof (byte_at_range data 1).
  pose proof (byte_at_range data 2). pose proof (byte_at_range data 4).
  exists t. repeat split; try done; lia.
Qed.

(** X19. The precinct exponents that [read_SPCod_SPCoc] leaves when it
    succeeds on a component, for every resolution of the component that
    the arrays hold: 15 and 15 when the coding style of the component does
    not signal precinct sizes; otherwise the two 4 bit halves of the byte of
    the resolution, neither of which is 0 above the lowest resolution. *)
Theorem spcod_spcoc_precincts (numcomps : Z) (c : nat) (data : list Z)
    (hs hs' : Z) (tcp tcp' : TileCodingParams Rest) (t0 : TileComponentCodingParams)
    (k : nat) :
  tccps tcp !! c = Some t0 -> 0 <= m_reduce ->
  SPCod_SPCoc numcomps c data hs tcp = (true, hs', tcp') ->
  (k < length (precinctWidthExp t0))%nat -> (k < length (precinctHeightExp t0))%nat ->
  exists t w h,
    tccps tcp' !! c = Some t
    /\ (Z.of_nat k < numresolutions t ->
        precinctWidthExp t !! k = Some w /\ precinctHeightExp t !! k = Some h
        /\ if Z.land (csty t0) CCP_CSTY_PRT =? 0 then w = 15 /\ h = 15
           else w = Z.land (byte_at data (5 + k)) 0xf
                /\ h = Z.shiftr (byte_at data (5 + k)) 4
                /\ (k <> 0%nat -> 1 <= w <= 15 /\ 1 <= h <= 15)).
Proof.
  intros Ht0 Hred Hr Hkw Hkh.
  destruct (spcod_accepted _ _ _ _ _ _ _ _ Ht0 Hred Hr)
    as (t & Ht & _ & _ & Hn & _ & _ & _ & _ & _ & _ & _ & _ & _ & _ & Hprec).
  pose proof (byte_at_range data 0) as Hb0.
  pose proof (byte_at_range data (5 + k)) as Hbk.
  destruct (Z.land (csty t0) CCP_CSTY_PRT =? 0); cbn [negb] in Hprec.
  - pose proof (default_precincts_lookup (Z.to_nat (byte_at data 0 + 1)) 0
                  (precinctWidthExp t0) (precinctHeightExp t0) k) as Hd.
    cbv zeta in Hd. rewrite Hprec in Hd. cbn [fst snd] in Hd.
    destruct Hd as (_ & _ & Hin & _).
    exists t, 15, 15. split; [done|]. intros Hk.
    destruct Hin as [-> ->]; [lia|done..].
  - destruct (read_precincts_lookup _ _ _ _ _ _ _ _ k Hprec) as (_ & _ & Hin & _).
    exists t, (Z.land (byte_at data (5 + k)) 0xf), (Z.shiftr (byte_at data (5 + k)) 4).
    split; [done|]. intros Hk.
    destruct Hin as (Hw & Hh & Hnz); [lia|done..|].
    replace (5 + (k - 0))%nat with (5 + k)%nat in * by lia.
    split; [done|]. split; [done|]. split; [done|]. split; [done|].
    intros Hk0. destruct (Hnz Hk0) as [Hw0 Hh0].
    assert (0 <= Z.land (byte_at data (5 + k)) 15 < 16) as Hwr.
    { change 15 with (Z.ones 4). rewrite Z.land_ones by lia.
      apply Z.mod_pos_bound. lia. }
    assert (0 <= Z.shiftr (byte_at data (5 + k)) 4 < 16) as Hhr.
    { rewrite Z.shiftr_div_pow2 by lia. change (2 ^ 4) with 16.
      split; [apply Z.div_pos; lia|apply Z.div_lt_upper_bound; lia]. }
    lia.
Qed.

Lemma cod_apply_lookup n : forall i l k, (1 <= i)%nat ->
  cod_apply n i l !! k
  = if bool_decide (i <= k < i + n)%nat
    then match l !! 0%nat with
         | Some ref_tccp => cod_copy ref_tccp <$> l !! k
         | None => l !! k
         end
    else l !! k.
Proof.
  induction n as [|n IH]; intros i l k Hi; cbn [cod_apply].
  - by rewrite bool_decide_eq_false_2 by lia.
  - rewrite IH by lia.
    destruct (l !! 0%nat) as [r|] eqn:E0.
    + rewrite list_lookup_alter_ne by lia. rewrite E0.
      destruct (decide (k = i)) as [->|Hne].
      * rewrite bool_decide_eq_false_2 by lia. rewrite bool_decide_eq_true_2 by lia.
        by rewrite list_lookup_alter_eq.
      * rewrite list_lookup_alter_ne by done.
        destruct (decide (S i <= k < S i + n)%nat).
        -- by rewrite !bool_decide_eq_true_2 by lia.
        -- by rewrite !bool_decide_eq_false_2 by lia.
    + rewrite E0. destruct (decide (S i <= k < S i + n)%nat).
      * by rewrite !bool_decide_eq_true_2 by lia.
      * rewrite bool_decide_eq_false_2 by lia.
        destruct (bool_decide (i <= k < i + S n)%nat); done.
Qed.

Lemma cod_csty_lookup n : forall i v l k,
  cod_csty n i v l !! k
  = if bool_decide (i <= k < i + n)%nat then set_csty v <$> l !! k else l !! k.
Proof.
  induction n as [|n IH]; intros i v l k; cbn [cod_csty].
  - by rewrite bool_decide_eq_false_2 by lia.
  - rewrite IH. destruct (decide (k = i)) as [->|Hne].
    + rewrite bool_decide_eq_false_2 by lia. rewrite bool_decide_eq_true_2 by lia.
      by rewrite list_lookup_alter_eq.
    + rewrite list_lookup_alter_ne by done.
      destruct (decide (S i <= k < S i + n)%nat).
      * by rewrite !bool_decide_eq_true_2 by lia.
      * by rewrite !bool_decide_eq_false_2 by lia.
Qed.

Abbreviation COD :=
  (read_cod SPCod_SPCoc_len cod_coc_len MAX_DECOMP_LVLS CBLKSTY_HT NUM_PROGRESSION_ORDERS
            CCP_CSTY_PRT CP_CSTY_PRT CP_CSTY_SOP CP_CSTY_EPH isHT setIsHT pcap m_reduce
            m_layer).

(** X20. When [read_cod] succeeds, every component below the number of
    components holds the number of resolutions, the code block exponents,
    the code block style and the wavelet identifier of component 0, the
    precinct exponents of component 0 for the resolutions of component 0,
    and as [csty] the precinct bit of Scod, whatever it held before: the
    values that an earlier COC gave to a component are overwritten
    ([setIsHT] being taken to leave the components alone). *)
Theorem cod_overwrites_every_component (numcomps : Z) (data : list Z) (hs : Z)
    (tcp tcp' : TileCodingParams Rest) (i : nat) (d0 d : TileComponentCodingParams) :
  0 <= m_reduce ->
  tccps tcp !! 0%nat = Some d0 -> tccps tcp !! i = Some d -> Z.of_nat i < numcomps ->
  COD numcomps data hs tcp = (true, tcp') ->
  exists ref_tccp t,
    tccps tcp' !! 0%nat = Some ref_tccp /\ tccps tcp' !! i = Some t
    /\ numresolutions t = numresolutions ref_tccp
    /\ cblkw t = cblkw ref_tccp /\ cblkh t = cblkh ref_tccp
    /\ cblk_sty t = cblk_sty ref_tccp /\ qmfbid t = qmfbid ref_tccp
    /\ csty t = Z.land (byte_at data 0) CCP_CSTY_PRT
    /\ (forall k, Z.of_nat k < numresolutions ref_tccp ->
          (k < length (precinctWidthExp ref_tccp))%nat ->
          precinctWidthExp t !! k = precinctWidthExp ref_tccp !! k)
    /\ (forall k, Z.of_nat k < numresolutions ref_tccp ->
          (k < length (precinctHeightExp ref_tccp))%nat ->
          precinctHeightExp t !! k = precinctHeightExp ref_tccp !! k).
Proof.
  intros Hred Hd0 Hd Hi. unfold read_cod. cbv zeta.
  cbn [cod tcp_csty prg numlayers numLayersToDecompress mct tccps rest].
  destruct (hs <? cod_coc_len); [done|].
  destruct (negb (Z.land _ _ =? 0)); [done|].
  destruct (NUM_PROGRESSION_ORDERS <=? _); [done|].
  destruct (grk_read data 2 2 0 =? 0); [done|].
  destruct (1 <? _); [done|].
  set (v := Z.land (byte_at data 0) CCP_CSTY_PRT).
  set (tcp1 := set_tccps _ _).
  assert (forall k dk, tccps tcp !! k = Some dk -> Z.of_nat k < numcomps ->
                       tccps tcp1 !! k = Some (set_csty v dk)) as H1.
  { intros k dk Hk Hkn. unfold tcp1. cbn [set_tccps tccps].
    rewrite cod_csty_lookup, bool_decide_eq_true_2 by lia. by rewrite Hk. }
  destruct (SPCod_SPCoc numcomps 0 (drop 5 data) _ tcp1) as [[ok hs1] tcp2] eqn:Er.
  destruct ok; [|done]. cbn [negb]. destruct (negb (hs1 =? 0)); [done|].
  intros [= <-]. cbn [set_tccps tccps].
  destruct (spcod_accepted _ _ _ _ _ _ _ _ (H1 0%nat d0 Hd0 ltac:(lia)) Hred Er)
    as (r & Hr & Hframe & _ & _ & _ & _ & _ & _ & _ & _ & _ & _ & Hc & _).
  cbn [set_csty csty] in Hc.
  exists r. rewrite !cod_apply_lookup by lia.
  rewrite bool_decide_eq_false_2 by lia. rewrite Hr.
  destruct (decide (i = 0%nat)) as [->|Hne].
  - rewrite bool_decide_eq_false_2 by lia. rewrite Hr.
    exists r. repeat split; done.
  - rewrite bool_decide_eq_true_2 by lia.
    rewrite (Hframe i Hne), (H1 i d Hd Hi). cbn [fmap option_fmap option_map].
    eexists. split; [done|]. split; [done|].
    cbn [cod_copy set_csty numresolutions cblkw cblkh cblk_sty qmfbid csty
         precinctWidthExp precinctHeightExp].
    repeat split; try done.
    + intros k Hk Hkl. rewrite lookup_app_l by (rewrite length_take; lia).
      rewrite lookup_take_lt by lia. done.
    + intros k Hk Hkl. rewrite lookup_app_l by (rewrite length_take; lia).
      rewrite lookup_take_lt by lia. done.
Qed.

Abbreviation COC :=
  (read_coc SPCod_SPCoc_len MAX_DECOMP_LVLS CBLKSTY_HT CCP_CSTY_PRT isHT setIsHT pcap
            m_reduce).

(** X21. When [read_coc] succeeds, the component that it signals is below
    the number of components; it holds Scoc as [csty] and code block
    exponents between 2 and 10 whose sum is at most 12, and every other
    component is as it was ([setIsHT] being taken to leave the components
    alone). *)
Theorem coc_sets_its_component (numcomps : Z) (data : list Z) (hs : Z)
    (tcp tcp' : TileCodingParams Rest) (t0 : TileComponentCodingParams) :
  let comp_room := if numcomps <=? 256 then 1 else 2 in
  let comp_no := grk_read data 0 (Z.to_nat comp_room) 0 in
  0 <= m_reduce ->
  tccps tcp !! Z.to_nat comp_no = Some t0 ->
  COC numcomps data hs tcp = (true, tcp') ->
  comp_no < numcomps
  /\ (exists t, tccps tcp' !! Z.to_nat comp_no = Some t
        /\ csty t = byte_at data (Z.to_nat comp_room)
        /\ 2 <= cblkw t <= 10 /\ 2 <= cblkh t <= 10 /\ cblkw t + cblkh t <= 12)
  /\ (forall i, i <> Z.to_nat comp_no -> tccps tcp' !! i = tccps tcp !! i).
Proof.
  cbv zeta. intros Hred Ht0. unfold read_coc. cbv zeta.
  set (comp_room := if numcomps <=? 256 then 1 else 2) in *.
  set (comp_no := grk_read data 0 (Z.to_nat comp_room) 0) in *.
  destruct (hs <? comp_room + 1); [done|].
  destruct (numcomps <=? comp_no) eqn:Ec; [done|]. apply Z.leb_gt in Ec.
  set (tcp1 := update _ _ tcp).
  assert (tccps tcp1 !! Z.to_nat comp_no
          = Some (set_csty (byte_at data (Z.to_nat comp_room)) t0)) as H1.
  { unfold tcp1. by rewrite tccps_update, list_lookup_alter_eq, Ht0. }
  destruct (SPCod_SPCoc numcomps _ _ _ tcp1) as [[ok hs1] tcp2] eqn:Er.
  destruct ok; [|done]. cbn [negb]. destruct (negb (hs1 =? 0)); [done|].
  intros [= <-].
  destruct (spcod_accepted _ _ _ _ _ _ _ _ H1 Hred Er)
    as (t & Ht & Hframe & _ & _ & _ & _ & Hw & Hh & Hsum & _ & _ & _ & Hc & _).
  pose proof (byte_at_range (drop (Z.to_nat comp_room + 1) data) 1).
  pose proof (byte_at_range (drop (Z.to_nat comp_room + 1) data) 2).
  split; [done|]. split.
  - exists t. cbn [set_csty csty] in Hc. repeat split; try done; lia.
  - intros i Hi. rewrite (Hframe i Hi). unfold tcp1. by rewrite lookup_update_ne.
Qed.

End Style.

Lemma spcod_spcoc_accepted_ranges_witness :
  exists t,
    CodingStyle.tccps
      (CodingStyle.read_SPCod_SPCoc_part1 2 0 [5; 4; 3; 0; 1] 5 CodingStyle.sample_tcp).2
      !! 0%nat = Some t
    /\ 1 <= CodingStyle.numresolutions t <= 32 + 1 /\ 0 < CodingStyle.numresolutions t
    /\ 2 <= CodingStyle.cblkw t <= 10 /\ 2 <= CodingStyle.cblkh t <= 10
    /\ CodingStyle.cblkw t + CodingStyle.cblkh t <= 12
    /\ 0 <= CodingStyle.qmfbid t <= 1
    /\ CodingStyle.csty t = CodingStyle.csty CodingStyle.sample_tccp
    /\ (forall i, i <> 0%nat ->
          CodingStyle.tccps
            (CodingStyle.read_SPCod_SPCoc_part1 2 0 [5; 4; 3; 0; 1] 5
                                                CodingStyle.sample_tcp).2 !! i
          = CodingStyle.tccps CodingStyle.sample_tcp !! i).
Proof.
  apply (spcod_spcoc_accepted_ranges 5 32 0x40 1 (fun _ => false) (fun _ _ _ tcp => tcp)
           0 0 ltac:(done) 2 0 [5; 4; 3; 0; 1] 5 0 CodingStyle.sample_tcp
           (CodingStyle.read_SPCod_SPCoc_part1 2 0 [5; 4; 3; 0; 1] 5
                                               CodingStyle.sample_tcp).2
           CodingStyle.sample_tccp).
  - vm_compute. reflexivity.
  - lia.
  - vm_compute. reflexivity.
Defined.

Lemma spcod_spcoc_precincts_witness :
  exists t w h,
    CodingStyle.tccps
      (CodingStyle.read_SPCod_SPCoc_part1 2 0 [1; 4; 3; 0; 1; 0x54; 0x76] 7
         (CodingStyle.update 0 (CodingStyle.set_csty 1) CodingStyle.sample_tcp)).2
      !! 0%nat = Some t
    /\ (Z.of_nat 1 < CodingStyle.numresolutions t ->
        CodingStyle.precinctWidthExp t !! 1%nat = Some w
        /\ CodingStyle.precinctHeightExp t !! 1%nat = Some h
        /\ w = 6 /\ h = 7 /\ (1%nat <> 0%nat -> 1 <= w <= 15 /\ 1 <= h <= 15)).
Proof.
  apply (spcod_spcoc_precincts 5 32 0x40 1 (fun _ => false) (fun _ _ _ tcp => tcp)
           0 0 ltac:(done) 2 0 [1; 4; 3; 0; 1; 0x54; 0x76] 7 0
           (CodingStyle.update 0 (CodingStyle.set_csty 1) CodingStyle.sample_tcp)
           (CodingStyle.read_SPCod_SPCoc_part1 2 0 [1; 4; 3; 0; 1; 0x54; 0x76] 7
              (CodingStyle.update 0 (CodingStyle.set_csty 1) CodingStyle.sample_tcp)).2
           (CodingStyle.set_csty 1 CodingStyle.sample_tccp) 1).
  - vm_compute. reflexivity.
  - lia.
  - vm_compute. reflexivity.
  - simpl. lia.
  - simpl. lia.
Defined.

Lemma cod_overwrites_every_component_witness :
  exists ref_tccp t,
    CodingStyle.tccps
      (CodingStyle.read_cod_part1 2 [0; 0; 0; 1; 0; 5; 4; 3; 0; 1] 10
         (CodingStyle.read_coc_part1 2 [1; 0; 3; 2; 2; 0; 0] 7 CodingStyle.sample_tcp).2).2
      !! 0%nat = Some ref_tccp
    /\ CodingStyle.tccps
         (CodingStyle.read_cod_part1 2 [0; 0; 0; 1; 0; 5; 4; 3; 0; 1] 10
            (CodingStyle.read_coc_part1 2 [1; 0; 3; 2; 2; 0; 0] 7
                                        CodingStyle.sample_tcp).2).2
         !! 1%nat = Some t
    /\ CodingStyle.numresolutions t = CodingStyle.numresolutions ref_tccp
    /\ CodingStyle.cblkw t = CodingStyle.cblkw ref_tccp
    /\ CodingStyle.cblkh t = CodingStyle.cblkh ref_tccp
    /\ CodingStyle.cblk_sty t = CodingStyle.cblk_sty ref_tccp
    /\ CodingStyle.qmfbid t = CodingStyle.qmfbid ref_tccp
    /\ CodingStyle.csty t = Z.land 0 1
    /\ (forall k, Z.of_nat k < CodingStyle.numresolutions ref_tccp ->
          (k < length (CodingStyle.precinctWidthExp ref_tccp))%nat ->
          CodingStyle.precinctWidthExp t !! k = CodingStyle.precinctWidthExp ref_tccp !! k)
    /\ (forall k, Z.of_nat k < CodingStyle.numresolutions ref_tccp ->
          (k < length (CodingStyle.precinctHeightExp ref_tccp))%nat ->
          CodingStyle.precinctHeightExp t !! k
          = CodingStyle.precinctHeightExp ref_tccp !! k).
Proof.
  apply (cod_overwrites_every_component 5 5 32 0x40 5 1 1 2 4 (fun _ => false)
            (fun _ _ _ tcp => tcp) 0 0 0 ltac:(done) 2 [0; 0; 0; 1; 0; 5; 4; 3; 0; 1] 10
            (CodingStyle.read_coc_part1 2 [1; 0; 3; 2; 2; 0; 0] 7 CodingStyle.sample_tcp).2
            (CodingStyle.read_cod_part1 2 [0; 0; 0; 1; 0; 5; 4; 3; 0; 1] 10
               (CodingStyle.read_coc_part1 2 [1; 0; 3; 2; 2; 0; 0] 7
                                           CodingStyle.sample_tcp).2).2
            1 CodingStyle.sample_tccp
            (CodingStyle.tccp_at 1
               (CodingStyle.read_coc_part1 2 [1; 0; 3; 2; 2; 0; 0] 7
                                           CodingStyle.sample_tcp).2)).
  - lia.
  - vm_compute. reflexivity.
  - vm_compute. reflexivity.
  - lia.
  - vm_compute. reflexivity.
Defined.

Lemma coc_sets_its_component_witness :
  1 < 2
  /\ (exists t,
        CodingStyle.tccps
          (CodingStyle.read_coc_part1 2 [1; 0; 3; 2; 2; 0; 0] 7 CodingStyle.sample_tcp).2
          !! 1%nat = Some t
        /\ CodingStyle.csty t = 0
        /\ 2 <= CodingStyle.cblkw t <= 10 /\ 2 <= CodingStyle.cblkh t <= 10
        /\ CodingStyle.cblkw t + CodingStyle.cblkh t <= 12)
  /\ (forall i, i <> 1%nat ->
        CodingStyle.tccps
          (CodingStyle.read_coc_part1 2 [1; 0; 3; 2; 2; 0; 0] 7 CodingStyle.sample_tcp).2
          !! i
        = CodingStyle.tccps CodingStyle.sample_tcp !! i).
Proof.
  apply (coc_sets_its_component 5 32 0x40 1 (fun _ => false) (fun _ _ _ tcp => tcp)
            0 0 ltac:(done) 2 [1; 0; 3; 2; 2; 0; 0] 7 CodingStyle.sample_tcp
            (CodingStyle.read_coc_part1 2 [1; 0; 3; 2; 2; 0; 0] 7 CodingStyle.sample_tcp).2
            CodingStyle.sample_tccp).
  - lia.
  - vm_compute. reflexivity.
  - vm_compute. reflexivity.
Defined.

(** * Properties of the band windows *)

Section BandWindows.
Import ResWindow.

Variable cdp : Z -> Z -> Z.
Hypothesis cdp_spec : forall a b, 0 <= a < 4294967296 -> 0 <= b ->
  cdp a b = (a + 2 ^ b - 1) / 2 ^ b.

Lemma ceil_half (y : Z) : 0 <= y -> (y + 1) / 2 + y / 2 = y.
Proof. intros Hy. Z.div_mod_to_equations. lia. Qed.

Lemma ceil_ceil (x p : Z) : 0 <= x -> 0 < p ->
  ((x + p - 1) / p + 1) / 2 = (x + 2 * p - 1) / (2 * p).
Proof.
  intros Hx Hp.
  replace ((x + p - 1) / p + 1) with ((x + p - 1 + 1 * p) / p)
    by (rewrite Z.div_add by lia; lia).
  replace (2 * p) with (p * 2) by lia.
  rewrite <- Z.div_div by lia. do 2 f_equal. lia.
Qed.

Lemma pow2_pos b : 0 <= b -> 0 < 2 ^ b.
Proof. intros. apply Z.pow_pos_nonneg; lia. Qed.

Lemma shift_u32 n : 1 <= n <= 32 -> u32 (Z.shiftl 1 (n - 1)) = 2 ^ (n - 1).
Proof.
  intros Hn. rewrite Z.shiftl_1_l. unfold u32. apply Z.mod_small.
  split; [apply Z.lt_le_incl, pow2_pos; lia|].
  change 4294967296 with (2 ^ 32). apply Z.pow_lt_mono_r; lia.
Qed.


(** The quotient of [x] by [2 ^ k], rounded up. *)
Local Abbreviation C k x := ((x + 2 ^ k - 1) / 2 ^ k).

Lemma C_range k x : 0 <= k -> 0 <= x -> 0 <= C k x <= x.
Proof.
  intros Hk Hx. pose proof (pow2_pos k Hk) as Hp. split.
  - apply Z.div_pos; lia.
  - destruct (decide (x = 0)) as [->|Hne].
    + rewrite Z.div_small; lia.
    + apply Z.div_le_upper_bound; [lia|]. nia.
Qed.

Lemma C_mono k x x' : 0 <= k -> x <= x' -> C k x <= C k x'.
Proof.
  intros Hk Hx. pose proof (pow2_pos k Hk). apply Z.div_le_mono; lia.
Qed.

Lemma C_step n x : 1 <= n -> 0 <= x -> C n x = (C (n - 1) x + 1) / 2.
Proof.
  intros Hn Hx. pose proof (pow2_pos (n - 1) ltac:(lia)) as Hp.
  replace (2 ^ n) with (2 * 2 ^ (n - 1))
    by (rewrite <- Z.pow_succ_r by lia; f_equal; lia).
  by rewrite ceil_ceil by lia.
Qed.

Lemma band_coord_low n x : 0 <= n -> 0 <= x < 4294967296 ->
  band_coord cdp x 0 n = C n x.
Proof.
  intros Hn Hx. unfold band_coord.
  destruct (x <=? 0) eqn:E.
  - apply Z.leb_le in E. assert (x = 0) as -> by lia.
    pose proof (pow2_pos n Hn). rewrite Z.div_small; lia.
  - apply Z.leb_gt in E. rewrite Z.sub_0_r.
    unfold u32. rewrite Z.mod_small by lia. by apply cdp_spec.
Qed.

Lemma band_coord_high n x : 1 <= n -> 0 <= x < 4294967296 ->
  band_coord cdp x (2 ^ (n - 1)) n = C (n - 1) x / 2.
Proof.
  intros Hn Hx. unfold band_coord.
  pose proof (pow2_pos (n - 1) ltac:(lia)) as Hp.
  assert (2 ^ n = 2 ^ (n - 1) * 2) as Hpow
    by (rewrite Z.mul_comm, <- Z.pow_succ_r by lia; f_equal; lia).
  destruct (x <=? 2 ^ (n - 1)) eqn:E.
  - apply Z.leb_le in E. symmetry. apply Z.div_small.
    split; [apply Z.div_pos; lia|].
    apply Z.div_lt_upper_bound; lia.
  - apply Z.leb_gt in E.
    unfold u32. rewrite Z.mod_small by lia.
    rewrite cdp_spec by lia. rewrite Hpow, <- Z.div_div by lia.
    do 2 f_equal. lia.
Qed.


Lemma getBandWindow_coords n o (bx by_ : Z) w :
  1 <= n <= 32 -> Z.land o 1 = bx -> u32 (Z.shiftr o 1) = by_ ->
  (bx = 0 \/ bx = 1) -> (by_ = 0 \/ by_ = 1) ->
  getBandWindow cdp n o w
  = mkRect (band_coord cdp (x0 w) (2 ^ (n - 1) * bx) n)
           (band_coord cdp (y0 w) (2 ^ (n - 1) * by_) n)
           (band_coord cdp (x1 w) (2 ^ (n - 1) * bx) n)
           (band_coord cdp (y1 w) (2 ^ (n - 1) * by_) n).
Proof.
  intros Hn Hbx Hby Hx Hy. unfold getBandWindow.
  destruct (n =? 0) eqn:E; [apply Z.eqb_eq in E; lia|].
  rewrite Hbx, Hby, shift_u32 by done.
  assert (forall b, b = 0 \/ b = 1 -> u32 (2 ^ (n - 1) * b) = 2 ^ (n - 1) * b) as Hu.
  { intros b Hb. unfold u32. apply Z.mod_small.
    pose proof (pow2_pos (n - 1) ltac:(lia)).
    assert (2 ^ (n - 1) < 4294967296)
      by (change 4294967296 with (2 ^ 32); apply Z.pow_lt_mono_r; lia).
    destruct Hb as [-> | ->]; lia. }
  by rewrite !Hu.
Qed.

Lemma band_low n w : 1 <= n <= 32 -> valid w ->
  getBandWindow cdp n 0 w
  = mkRect (C n (x0 w)) (C n (y0 w)) (C n (x1 w)) (C n (y1 w)).
Proof.
  intros Hn (Hx & Hx1 & Hy & Hy1).
  rewrite (getBandWindow_coords n 0 0 0) by (done || lia || by left).
  rewrite Z.mul_0_r, !band_coord_low by lia. done.
Qed.

(** X22. The four bands of a decomposition tile the window of the next
    higher resolution: for a window with its corners in order and 1 to 32
    decompositions, every x coordinate of the LL band window plus the same
    coordinate of the HL band window is this coordinate of the LL band
    window of one decomposition less, and so for the y coordinates of the
    LL and LH band windows; the HH band window has the x coordinates of HL
    and the y coordinates of LH ([ceildivpow2] being the quotient by a
    power of two rounded up). *)
Theorem band_windows_tile_the_resolution (n : Z) (w : grk_rect32) :
  1 <= n <= 32 -> valid w ->
  let LL := getBandWindow cdp n 0 w in
  let HL := getBandWindow cdp n 1 w in
  let LH := getBandWindow cdp n 2 w in
  let HH := getBandWindow cdp n 3 w in
  let lower := getBandWindow cdp (n - 1) 0 w in
  (x0 LL + x0 HL = x0 lower /\ x1 LL + x1 HL = x1 lower)
  /\ (y0 LL + y0 LH = y0 lower /\ y1 LL + y1 LH = y1 lower)
  /\ (x0 LH = x0 LL /\ x1 LH = x1 LL /\ y0 HL = y0 LL /\ y1 HL = y1 LL)
  /\ (x0 HH = x0 HL /\ x1 HH = x1 HL /\ y0 HH = y0 LH /\ y1 HH = y1 LH).
Proof.
  intros Hn Hv. cbv zeta. pose proof Hv as (Hx & Hx1 & Hy & Hy1).
  rewrite (band_low n w Hn Hv).
  rewrite (getBandWindow_coords n 1 1 0), (getBandWindow_coords n 2 0 1),
    (getBandWindow_coords n 3 1 1) by (done || lia || by right || by left).
  rewrite !Z.mul_0_r, !Z.mul_1_r.
  rewrite !band_coord_low, !band_coord_high by lia.
  cbn [x0 x1 y0 y1].
  assert (forall c, 0 <= c < 4294967296 ->
            C n c + C (n - 1) c / 2
            = match n - 1 with 0 => c | _ => C (n - 1) c end) as Hsum.
  { intros c Hc. rewrite C_step by lia.
    pose proof (C_range (n - 1) c ltac:(lia) ltac:(lia)).
    rewrite ceil_half by lia.
    destruct (n - 1) eqn:E; [|done|lia].
    change (2 ^ 0) with 1. rewrite Z.div_1_r. lia. }
  assert (getBandWindow cdp (n - 1) 0 w
          = mkRect (match n - 1 with 0 => x0 w | _ => C (n - 1) (x0 w) end)
                   (match n - 1 with 0 => y0 w | _ => C (n - 1) (y0 w) end)
                   (match n - 1 with 0 => x1 w | _ => C (n - 1) (x1 w) end)
                   (match n - 1 with 0 => y1 w | _ => C (n - 1) (y1 w) end)) as ->.
  { destruct (decide (n = 1)) as [->|Hne].
    - simpl. by destruct w.
    - rewrite band_low by (done || lia). destruct (n - 1) eqn:E; [lia|done|lia]. }
  cbn [x0 x1 y0 y1]. rewrite !Hsum by lia. done.
Qed.

(** X23. The LL band window of [n] decompositions is the LL band window of
    one decomposition of the LL band window of [n - 1] decompositions: the
    windows of the resolutions, each the LL band window of the next higher
    one, are the LL band windows of the unreduced window. *)
Theorem ll_band_window_composes (n : Z) (w : grk_rect32) :
  1 <= n <= 32 -> valid w ->
  getBandWindow cdp n 0 w = getBandWindow cdp 1 0 (getBandWindow cdp (n - 1) 0 w).
Proof.
  intros Hn Hv. pose proof Hv as (Hx & Hx1 & Hy & Hy1).
  destruct (decide (n = 1)) as [->|Hne]; [done|].
  rewrite (band_low n w Hn Hv), (band_low (n - 1) w) by (done || lia).
  assert (forall c, 0 <= c < 4294967296 -> 0 <= C (n - 1) c < 4294967296) as Hr.
  { intros c Hc. pose proof (C_range (n - 1) c ltac:(lia) ltac:(lia)). lia. }
  pose proof (C_mono (n - 1) (x0 w) (x1 w) ltac:(lia) ltac:(lia)).
  pose proof (C_mono (n - 1) (y0 w) (y1 w) ltac:(lia) ltac:(lia)).
  pose proof (Hr (x0 w) ltac:(lia)). pose proof (Hr (x1 w) ltac:(lia)).
  pose proof (Hr (y0 w) ltac:(lia)). pose proof (Hr (y1 w) ltac:(lia)).
  rewrite band_low; [|lia|unfold valid; cbn [x0 x1 y0 y1]; lia].
  cbn [x0 x1 y0 y1]. rewrite !(C_step n) by lia.
  change (2 ^ 1) with 2. f_equal; f_equal; lia.
Qed.

Lemma band_coord_mono n b c c' :
  1 <= n <= 32 -> (b = 0 \/ b = 1) -> 0 <= c <= c' -> c' < 4294967296 ->
  0 <= band_coord cdp c (2 ^ (n - 1) * b) n
  <= band_coord cdp c' (2 ^ (n - 1) * b) n
  /\ band_coord cdp c' (2 ^ (n - 1) * b) n <= c'.
Proof.
  intros Hn [-> | ->] Hc Hc'.
  - rewrite Z.mul_0_r, !band_coord_low by lia.
    pose proof (C_range n c ltac:(lia) ltac:(lia)).
    pose proof (C_range n c' ltac:(lia) ltac:(lia)).
    pose proof (C_mono n c c' ltac:(lia) ltac:(lia)). lia.
  - rewrite Z.mul_1_r, !band_coord_high by lia.
    pose proof (C_range (n - 1) c ltac:(lia) ltac:(lia)).
    pose proof (C_range (n - 1) c' ltac:(lia) ltac:(lia)).
    pose proof (C_mono (n - 1) c c' ltac:(lia) ltac:(lia)).
    assert (C (n - 1) c / 2 <= C (n - 1) c' / 2) by (apply Z.div_le_mono; lia).
    assert (0 <= C (n - 1) c / 2) by (apply Z.div_pos; lia).
    assert (C (n - 1) c' / 2 <= C (n - 1) c') by (apply Z.div_le_upper_bound; lia).
    lia.
Qed.

(** X24. For up to 32 decompositions and each of the four orientations the
    band window of a window with its corners in order has its corners in
    order, and the band window of a window that lies within a second one
    lies within the band window of the second ([ceildivpow2] being the
    quotient by a power of two rounded up). *)
Theorem band_window_keeps_order_and_inclusion (n o : Z) (w t : grk_rect32) :
  0 <= n <= 32 -> 0 <= o < 4 -> valid w -> valid t -> within w t ->
  valid (getBandWindow cdp n o w)
  /\ within (getBandWindow cdp n o w) (getBandWindow cdp n o t).
Proof.
  intros Hn Ho Hw Ht Hin.
  destruct (decide (n = 0)) as [->|Hne]; [done|].
  pose proof Hw as (Hx & Hx1 & Hy & Hy1). pose proof Ht as (Htx & Htx1 & Hty & Hty1).
  destruct Hin as (Hi1 & Hi2 & Hi3 & Hi4).
  assert (exists bx by_, Z.land o 1 = bx /\ u32 (Z.shiftr o 1) = by_
                         /\ (bx = 0 \/ bx = 1) /\ (by_ = 0 \/ by_ = 1))
    as (bx & by_ & Hbx & Hby & Hbx' & Hby').
  { assert (o = 0 \/ o = 1 \/ o = 2 \/ o = 3) as [-> | [-> | [-> | ->]]] by lia;
      eexists _, _; (split; [reflexivity|]); (split; [reflexivity|]);
      vm_compute; auto. }
  rewrite !(getBandWindow_coords n o bx by_) by (done || lia).
  pose proof (band_coord_mono n bx (x0 w) (x1 w) ltac:(lia) Hbx' ltac:(lia) ltac:(lia)).
  pose proof (band_coord_mono n by_ (y0 w) (y1 w) ltac:(lia) Hby' ltac:(lia) ltac:(lia)).
  pose proof (band_coord_mono n bx (x0 t) (x0 w) ltac:(lia) Hbx' ltac:(lia) ltac:(lia)).
  pose proof (band_coord_mono n bx (x1 w) (x1 t) ltac:(lia) Hbx' ltac:(lia) ltac:(lia)).
  pose proof (band_coord_mono n by_ (y0 t) (y0 w) ltac:(lia) Hby' ltac:(lia) ltac:(lia)).
  pose proof (band_coord_mono n by_ (y1 w) (y1 t) ltac:(lia) Hby' ltac:(lia) ltac:(lia)).
  unfold valid, within. cbn [x0 x1 y0 y1]. lia.
Qed.

End BandWindows.

Lemma band_windows_tile_the_resolution_witness :
  (ResWindow.x0 (ResWindow.getBandWindow ResWindow.ceildivpow2 2 0
                   (ResWindow.mkRect 3 5 17 14))
   + ResWindow.x0 (ResWindow.getBandWindow ResWindow.ceildivpow2 2 1
                     (ResWindow.mkRect 3 5 17 14))
   = ResWindow.x0 (ResWindow.getBandWindow ResWindow.ceildivpow2 (2 - 1) 0
                     (ResWindow.mkRect 3 5 17 14))
   /\ ResWindow.x1 (ResWindow.getBandWindow ResWindow.ceildivpow2 2 0
                      (ResWindow.mkRect 3 5 17 14))
      + ResWindow.x1 (ResWindow.getBandWindow ResWindow.ceildivpow2 2 1
                        (ResWindow.mkRect 3 5 17 14))
      = ResWindow.x1 (ResWindow.getBandWindow ResWindow.ceildivpow2 (2 - 1) 0
                        (ResWindow.mkRect 3 5 17 14))).
Proof.
  apply (band_windows_tile_the_resolution ResWindow.ceildivpow2 ltac:(done) 2
           (ResWindow.mkRect 3 5 17 14)).
  - lia.
  - unfold ResWindow.valid. simpl. lia.
Defined.

Lemma ll_band_window_composes_witness :
  ResWindow.getBandWindow ResWindow.ceildivpow2 3 0 (ResWindow.mkRect 3 5 17 14)
  = ResWindow.getBandWindow ResWindow.ceildivpow2 1 0
      (ResWindow.getBandWindow ResWindow.ceildivpow2 (3 - 1) 0
         (ResWindow.mkRect 3 5 17 14)).
Proof.
  apply (ll_band_window_composes ResWindow.ceildivpow2 ltac:(done) 3
           (ResWindow.mkRect 3 5 17 14)).
  - lia.
  - unfold ResWindow.valid. simpl. lia.
Defined.

Lemma band_window_keeps_order_and_inclusion_witness :
  ResWindow.valid (ResWindow.getBandWindow ResWindow.ceildivpow2 2 3
                     (ResWindow.mkRect 3 5 17 14))
  /\ ResWindow.within
       (ResWindow.getBandWindow ResWindow.ceildivpow2 2 3 (ResWindow.mkRect 3 5 17 14))
       (ResWindow.getBandWindow ResWindow.ceildivpow2 2 3 (ResWindow.mkRect 0 0 32 32)).
Proof.
  apply (band_window_keeps_order_and_inclusion ResWindow.ceildivpow2 ltac:(done) 2 3
           (ResWindow.mkRect 3 5 17 14) (ResWindow.mkRect 0 0 32 32)).
  - lia.
  - lia.
  - unfold ResWindow.valid. simpl. lia.
  - unfold ResWindow.valid. simpl. lia.
  - unfold ResWindow.within. simpl. lia.
Defined.

(** * Properties of the block decompression scheduler *)

Section Scheduler.
Import T1Scheduler.

Context {Block : Type}.
Variable open : Block -> open_result.

Lemma opened_app (l1 l2 : list (event Block)) : opened (l1 ++ l2) = opened l1 ++ opened l2.
Proof. unfold opened. by rewrite omap_app. Qed.

Lemma deleted_app (l1 l2 : list (event Block)) :
  deleted (l1 ++ l2) = deleted l1 ++ deleted l2.
Proof. unfold deleted. by rewrite omap_app. Qed.

Lemma decompress_one_fold (l : list Block) : forall success log,
  let r := foldl (decompress_one open) (success, log) l in
  r.1 = success && all_open_true open l
  /\ opened r.2 = opened log ++ (if success then until_failure open l else [])
  /\ deleted r.2 = deleted log ++ l.
Proof.
  induction l as [|b l IH]; intros success log; cbv zeta.
  - destruct success; simpl; by rewrite !app_nil_r.
  - cbn [foldl all_open_true forallb until_failure].
    destruct success.
    + assert (decompress_one open (true, log) b
              = (match open b with OpenTrue => true | _ => false end,
                 log ++ [Opened b; Deleted b])) as ->
        by (unfold decompress_one, decompressBlock; by destruct (open b)).
      destruct (IH (match open b with OpenTrue => true | _ => false end)
                   (log ++ [Opened b; Deleted b])) as (H1 & H2 & H3).
      rewrite H1, H2, H3, !opened_app, !deleted_app.
      destruct (open b); cbn; by rewrite <- !app_assoc, ?app_nil_r.
    + assert (decompress_one open (false, log) b = (false, log ++ [Deleted b])) as ->
        by done.
      destruct (IH false (log ++ [Deleted b])) as (H1 & H2 & H3).
      rewrite H1, H2, H3, !opened_app, !deleted_app. cbn.
      by rewrite <- !app_assoc, !app_nil_r.
Qed.

Lemma foldl_concat {A B} (f : A -> B -> A) (ls : list (list B)) : forall a,
  foldl (fun a l => foldl f a l) a ls = foldl f a (concat ls).
Proof.
  induction ls as [|l ls IH]; intros a; [done|].
  simpl. by rewrite foldl_app, IH.
Qed.

(** X25. With one worker, [decompress] returns true exactly when every
    block opens with true; it opens the blocks in their order up to the
    first one that does not, this one included, and none after it; and it
    deletes every block exactly once, in the order of the blocks, whether
    opened or not and whether [open] returned or threw. *)
Theorem single_worker_decompress (blocks : list (list Block)) :
  let r := decompress open blocks in
  r.1 = all_open_true open (concat blocks)
  /\ opened r.2 = until_failure open (concat blocks)
  /\ deleted r.2 = concat blocks.
Proof.
  cbv zeta. unfold decompress. destruct blocks as [|rb blocks]; [done|].
  rewrite foldl_concat.
  by destruct (decompress_one_fold (concat (rb :: blocks)) true []) as (-> & -> & ->).
Qed.

End Scheduler.

(** * Properties of the capability, region of interest and progression markers *)

Section CapRgn.
Import Markers.

Lemma grk_read_bound data nb : forall pos acc, 0 <= acc ->
  0 <= grk_read data pos nb acc < (acc + 1) * 256 ^ Z.of_nat nb.
Proof.
  induction nb as [|nb IH]; intros pos acc Ha.
  - simpl. lia.
  - cbn [grk_read]. pose proof (byte_at_range data pos) as Hb.
    specialize (IH (S pos) (acc * 256 + byte_at data pos) ltac:(lia)).
    replace (Z.of_nat (S nb)) with (1 + Z.of_nat nb) by lia.
    rewrite Z.pow_add_r by lia. change (256 ^ 1) with 256.
    assert (0 < 256 ^ Z.of_nat nb) by (apply Z.pow_pos_nonneg; lia).
    nia.
Qed.

Lemma only_bit_17 tmp :
  0 <= tmp < 4294967296 ->
  Z.land tmp 0xFFFDFFFF = 0 -> Z.land tmp 0x00020000 <> 0 -> tmp = 0x00020000.
Proof.
  intros Hr H0 H1. apply Z.bits_inj'. intros k Hk.
  destruct (decide (k = 17)) as [->|Hne].
  - change (Z.testbit 131072 17) with true.
    destruct (Z.testbit tmp 17) eqn:E; [done|]. exfalso. apply H1.
    apply Z.bits_inj'. intros j Hj. rewrite Z.land_spec, Z.bits_0.
    destruct (decide (j = 17)) as [->|Hj']; [by rewrite E|].
    replace (Z.testbit 131072 j) with false; [by rewrite andb_false_r|].
    change 131072 with (2 ^ 17). by rewrite Z.pow2_bits_eqb, (proj2 (Z.eqb_neq 17 j)) by lia.
  - replace (Z.testbit 131072 k) with false
      by (change 131072 with (2 ^ 17);
          by rewrite Z.pow2_bits_eqb, (proj2 (Z.eqb_neq 17 k)) by lia).
    destruct (decide (k < 32)) as [Hlt|Hge].
    + pose proof (f_equal (fun z => Z.testbit z k) H0) as Hb. cbn beta in Hb.
      rewrite Z.land_spec, Z.bits_0 in Hb.
      assert (Z.testbit 0xFFFDFFFF k = true) as Hm.
      { change 0xFFFDFFFF with (Z.ones 32 - 2 ^ 17).
        assert (k = 0 \/ k = 1 \/ k = 2 \/ k = 3 \/ k = 4 \/ k = 5 \/ k = 6 \/ k = 7
                \/ k = 8 \/ k = 9 \/ k = 10 \/ k = 11 \/ k = 12 \/ k = 13 \/ k = 14
                \/ k = 15 \/ k = 16 \/ k = 18 \/ k = 19 \/ k = 20 \/ k = 21 \/ k = 22
                \/ k = 23 \/ k = 24 \/ k = 25 \/ k = 26 \/ k = 27 \/ k = 28 \/ k = 29
                \/ k = 30 \/ k = 31) as Hcases by lia.
        repeat (destruct Hcases as [-> | Hcases]; [reflexivity|]). by subst. }
      rewrite Hm, andb_true_r in Hb. done.
    + apply Z.bits_above_log2; [lia|].
      destruct (decide (tmp = 0)) as [->|Hnz]; [simpl; lia|].
      assert (Z.log2 tmp < 32) by (apply Z.log2_lt_pow2; lia). lia.
Qed.

Section Cap.
Variable popcount : Z -> Z.
Hypothesis popcount_bit : popcount 0x00020000 = 1.

(** X26. [read_cap] accepts one value of Pcap only: when it succeeds, the
    Pcap that it stored is 0x00020000, bit 17 alone, and the segment held 6
    bytes, Pcap and one Ccap ([grk_population_count] being taken to count
    one bit in this value). *)
Theorem cap_accepts_one_pcap (headerData : list Z) (header_size : Z) (cp : CodingParams) :
  (read_cap popcount headerData header_size cp).1 = true ->
  pcap (read_cap popcount headerData header_size cp).2 = 0x00020000
  /\ header_size = 6.
Proof.
  unfold read_cap. destruct (header_size <? 4); [done|].
  destruct (negb (Z.land _ _ =? 0)) eqn:E0; [done|].
  destruct (Z.land _ 131072 =? 0) eqn:E1; [done|].
  apply negb_false_iff, Z.eqb_eq in E0. apply Z.eqb_neq in E1.
  pose proof (grk_read_bound headerData 4 0 0 ltac:(lia)) as Hr.
  change ((0 + 1) * 256 ^ Z.of_nat 4) with 4294967296 in Hr.
  rewrite (only_bit_17 _ Hr E0 E1) in *. cbn [pcap].
  rewrite popcount_bit. change (u32 (4 + 2 * u32 1)) with 6.
  destruct (negb (header_size =? 6)) eqn:E2; [done|].
  apply negb_false_iff, Z.eqb_eq in E2. done.
Qed.

End Cap.
End CapRgn.

Lemma cap_accepts_one_pcap_witness :
  Markers.pcap (Markers.read_cap (fun _ => 1) [0; 2; 0; 0; 0; 7] 6 (Markers.mkCp 0 [0])).2
  = 0x00020000
  /\ 6 = 6.
Proof.
  apply (cap_accepts_one_pcap (fun _ => 1) ltac:(done) [0; 2; 0; 0; 0; 7] 6
           (Markers.mkCp 0 [0])).
  vm_compute. reflexivity.
Defined.

Section Rgn.
Import Markers.


End Rgn.


Section Poc.
Import Markers.

Variables NUM MAXRLVLS : Z.

Lemma length_set_prog i f l : length (set_prog i f l) = length l.
Proof. unfold set_prog. by rewrite length_alter. Qed.

Lemma prog_at_set i f l :
  (i < length l)%nat -> prog_at i (set_prog i f l) = f (prog_at i l).
Proof.
  intros Hi. unfold prog_at, set_prog. rewrite list_lookup_alter_eq.
  destruct (lookup_lt_is_Some_2 l i Hi) as [p ->]. done.
Qed.

Lemma lookup_set_prog_ne i k f l : i <> k -> set_prog i f l !! k = l !! k.
Proof. intros H. unfold set_prog. by rewrite list_lookup_alter_ne. Qed.

Lemma read_progs_spec n : forall i data pos room maxres numcomps numlayers l l',
  (i + n <= length l)%nat ->
  read_progs NUM n i data pos room maxres numcomps numlayers l = (true, l') ->
  length l' = length l
  /\ (forall k, (i <= k < i + n)%nat ->
        progression_ok NUM maxres (u16 numcomps) numlayers (prog_at k l'))
  /\ (forall k, (k < i \/ i + n <= k)%nat -> l' !! k = l !! k).
Proof.
  induction n as [|n IH]; intros i data pos room maxres numcomps numlayers l l' Hlen.
  - intros [= <-]. split; [done|]. split; [intros; lia|done].
  - cbn [read_progs]. cbv zeta.
    repeat rewrite prog_at_set by (rewrite ?length_set_prog; lia).
    cbn [resS compS layE resE compE progression].
    destruct (maxres <=? _) eqn:E1; [done|].
    destruct (numcomps <? _) eqn:E2; [done|].
    destruct (byte_at data _ <=? byte_at data pos) eqn:E3; [done|].
    destruct (Z.min _ (u16 numcomps) <=? _) eqn:E4; [done|].
    destruct (NUM <=? _) eqn:E5; [done|].
    intros Hr. apply IH in Hr as (Hl & Hin & Hout); [|rewrite ?length_set_prog; lia].
    rewrite !length_set_prog in Hl. split; [done|]. split.
    + intros k Hk. destruct (decide (k = i)) as [->|Hne]; [|apply Hin; lia].
      assert (forall L, l' !! i = L !! i -> prog_at i l' = prog_at i L) as Heq
        by (intros L HL; unfold prog_at; by rewrite HL).
      rewrite (Heq _ (Hout i ltac:(lia))).
      repeat rewrite prog_at_set by (rewrite ?length_set_prog; lia).
      unfold progression_ok. cbn [resS compS layE resE compE progression].
      apply Z.leb_gt in E1, E3, E4, E5.
      pose proof (byte_at_range data pos).
      pose proof (byte_at_range data (S (S pos + room + 2) + room)).
      assert (0 <= u16 (grk_read data (S pos) room 0))
        by (unfold u16; apply Z.mod_pos_bound; lia).
      lia.
    + intros k Hk. rewrite Hout by lia.
      by rewrite !lookup_set_prog_ne by lia.
Qed.

(** X28. A POC segment that [read_poc] accepts holds a whole, positive
    number of records; the records are written after the [old] ones already
    there, every one of them within the bounds checked (start before end for
    resolutions and components, start resolution below the largest number of
    resolutions, end component at most the number of components, end layer
    at most the number of layers, a known progression order), the other
    records of the array are left as they were, and [numpocs] counts all
    records but one. *)
Theorem poc_records_checked numcomps numresolutions numlayers old data hs progs numpocs
    progs' numpocs' :
  0 <= hs < 65536 -> 0 <= old < 2 ^ 31 ->
  MAXRLVLS <= Z.of_nat (length progs) ->
  read_poc NUM MAXRLVLS numcomps numresolutions numlayers old data hs progs numpocs
    = (true, progs', numpocs') ->
  let chunkSize := if u16 numcomps <=? 256 then 7 else 9 in
  let new := hs / chunkSize + old in
  hs mod chunkSize = 0 /\ old < new <= MAXRLVLS
  /\ numpocs' = new - 1
  /\ length progs' = length progs
  /\ (forall k, (Z.to_nat old <= k < Z.to_nat new)%nat ->
        progression_ok NUM (maxNumResLevels_loop numresolutions 0) (u16 numcomps)
          numlayers (prog_at k progs'))
  /\ (forall k, (k < Z.to_nat old \/ Z.to_nat new <= k)%nat -> progs' !! k = progs !! k).
Proof.
  intros Hhs Hold Hlen. unfold read_poc. cbv zeta.
  set (room := if u16 numcomps <=? 256 then 1 else 2).
  assert (5 + 2 * room = if u16 numcomps <=? 256 then 7 else 9) as ->
    by (unfold room; by destruct (u16 numcomps <=? 256)).
  set (chunk := if u16 numcomps <=? 256 then 7 else 9).
  assert (chunk = 7 \/ chunk = 9) as Hchunk
    by (unfold chunk; destruct (u16 numcomps <=? 256); auto).
  assert (0 <= hs / chunk <= hs) as Hq.
  { split; [apply Z.div_pos; lia|]. apply Z.div_le_upper_bound; nia. }
  destruct (hs / chunk =? 0) eqn:E0; [done|]. apply Z.eqb_neq in E0.
  destruct (hs mod chunk =? 0) eqn:E1; [|done]. apply Z.eqb_eq in E1.
  cbn [orb negb].
  assert (u32 (hs / chunk + old) = hs / chunk + old) as ->
    by (unfold u32; apply Z.mod_small; lia).
  destruct (MAXRLVLS <? _) eqn:E2; [done|]. apply Z.ltb_ge in E2.
  destruct (read_progs _ _ _ _ _ _ _ _ _ _) as [ok l] eqn:Er.
  destruct ok; [|done]. cbn [negb]. intros [= <- <-].
  apply read_progs_spec in Er as (Hl & Hin & Hout); [|lia].
  split; [done|]. split; [lia|]. split; [unfold u32; apply Z.mod_small; lia|].
  split; [done|]. split.
  - intros k Hk. apply Hin. lia.
  - intros k Hk. apply Hout. lia.
Qed.

End Poc.

Lemma poc_records_checked_witness :
  let data := [0; 0; 0; 2; 1; 1; 0]%Z in
  let progs := replicate 4 (Markers.mkProg 0 0 0 0 0 0) in
  let new := [Markers.mkProg 0 0 2 1 1 0] ++ replicate 3 (Markers.mkProg 0 0 0 0 0 0) in
  Markers.read_poc 5 4 3 [2; 3; 1] 2 0 data 7 progs 0 = (true, new, 0)
  /\ 7 mod 7 = 0 /\ 0 < 1 <= 4 /\ 0 = 1 - 1
  /\ length new = length progs
  /\ (forall k, (0 <= k < 1)%nat ->
        Markers.progression_ok 5 3 3 2 (Markers.prog_at k new))
  /\ (forall k, (k < 0 \/ 1 <= k)%nat -> new !! k = progs !! k).
Proof.
  cbv zeta. split; [vm_compute; reflexivity|].
  apply (poc_records_checked 5 4 3 [2; 3; 1] 2 0 [0; 0; 0; 2; 1; 1; 0] 7
           (replicate 4 (Markers.mkProg 0 0 0 0 0 0)) 0
           ([Markers.mkProg 0 0 2 1 1 0] ++ replicate 3 (Markers.mkProg 0 0 0 0 0 0)) 0).
  - lia.
  - lia.
  - vm_compute. discriminate.
  - vm_compute. reflexivity.
Defined.
